(** * Salinha do Profe. Gilson: canvas interaction and peer synchronisation

    A shallow embedding of the whiteboard ([components/Whiteboard.tsx]), of the
    element types ([types.ts]) and of the synchronisation handlers of the
    application component ([App.tsx]).

    Conventions of the embedding.
    - A JavaScript [number] is an exact rational ([Q]); rounding of IEEE
      doubles is outside the model.  Comparisons are the boolean ones of
      [QArith] and equations between computed numbers are stated with [==].
    - A division by zero gives [Infinity] or [NaN] in JavaScript, which are
      no rationals, and [0] in [Q]: the definitions follow the code where the
      divisors are not zero.  The divisors are the scale of the view, which
      starts at 1 and which the wheel keeps between 0.1 and 10
      by its clamp, the squared length of a segment, which the
      code tests, the width of a pasted bitmap, and, in a resize, the width
      and the height of the image and the candidate height.  The statements
      on the numbers of a resize and of a paste are made for positive
      widths, heights and scales, where every divisor is positive.
    - [Math.hypot(a, b) < t] is decided on squares ([hypot_lt]); the lemma
      [hypot_lt_sqrt] relates it to the square root over the reals.
    - React state and refs are fields of explicit state records; an event
      handler is a function from state to state, and a functional state
      update [setElements(prev => ...)] is applied to the current store.
    - [connRef.current.send] appends to the trace [sent]. *)

From Stdlib Require Import List String Ascii Bool Arith ZArith NArith Lia.
From Stdlib Require Import QArith Qminmax Qabs Lqa.
From Stdlib Require Import DecimalString.
From Stdlib Require Import Reals Qreals Lra.
Import ListNotations.

Local Open Scope string_scope.
Local Open Scope list_scope.
Local Open Scope Q_scope.

(** ** types.ts *)

Inductive Tool : Type :=
| select | pen | highlighter | eraser | stroke_eraser.

Definition Tool_eqb (a b : Tool) : bool :=
  match a, b with
  | select, select | pen, pen | highlighter, highlighter
  | eraser, eraser | stroke_eraser, stroke_eraser => true
  | _, _ => false
  end.

Module Point.
Record t : Type := mk { x : Q; y : Q }.
End Point.

Module Path.
Record t : Type := mk {
  points : list Point.t;
  color : string;
  lineWidth : Q;
  tool : Tool }.
End Path.

(** The decoded bitmap, [new Image()] with its [src] assigned. *)
Record HTMLImageElement : Type := { img_src : string }.

Definition newImage (src : string) : HTMLImageElement := {| img_src := src |}.

Module ImageElement.
Record t : Type := mk {
  id : string;
  image : option HTMLImageElement;  (* absent on the wire *)
  src : option string;              (* [src?: string] *)
  x : Q;
  y : Q;
  width : Q;
  height : Q;
  locked : option bool }.           (* [locked?: boolean] *)
End ImageElement.

Module PathElement.
Record t : Type := mk { id : string; path : Path.t }.
End PathElement.

(** [CanvasElement = PathElement | ImageElement]; the constructor is the
    [type] tag. *)
Inductive CanvasElement : Type :=
| PathEl (p : PathElement.t)
| ImageEl (i : ImageElement.t).

Definition elId (el : CanvasElement) : string :=
  match el with
  | PathEl p => PathElement.id p
  | ImageEl i => ImageElement.id i
  end.

(** Truthiness of the optional fields, as [if (el.src)] and [if (el.locked)]
    read them. *)
Definition truthy_string (s : option string) : bool :=
  match s with
  | Some s => negb (s =? "")%string
  | None => false
  end.

Definition truthy_bool (b : option bool) : bool :=
  match b with
  | Some b => b
  | None => false
  end.

(** The payload of [UPDATE_ELEMENT]: an id and the fields to overwrite. *)
Module Partial.
Record t : Type := mk {
  id : string;
  src : option string;
  x : option Q;
  y : option Q;
  width : option Q;
  height : option Q;
  locked : option bool;
  path : option Path.t }.
End Partial.

(** [payload?: any]: the shapes that the five message kinds carry, and
    [undefined]. *)
Inductive Payload : Type :=
| PUndefined
| PElements (els : list CanvasElement)
| PElement (el : CanvasElement)
| PId (id : string)
| PPartial (p : Partial.t).

Record SyncMessage : Type := { type : string; payload : Payload }.

(** ** App.tsx: the element store and the synchronisation handlers *)

Record AppState : Type := {
  tool : Tool;
  color : string;
  lineWidth : Q;
  elements : list CanvasElement;
  undoStack : list CanvasElement;
  connOpen : bool;                 (* [connRef.current && connRef.current.open] *)
  sent : list SyncMessage }.       (* what [connRef.current.send] was given *)

(** The raw setters of [useState]. *)
Definition setElements (next : list CanvasElement) (st : AppState) : AppState :=
  {| tool := tool st; color := color st; lineWidth := lineWidth st;
     elements := next; undoStack := undoStack st;
     connOpen := connOpen st; sent := sent st |}.

Definition setUndoStack (next : list CanvasElement) (st : AppState) : AppState :=
  {| tool := tool st; color := color st; lineWidth := lineWidth st;
     elements := elements st; undoStack := next;
     connOpen := connOpen st; sent := sent st |}.

Definition sendSyncMessage (msg : SyncMessage) (st : AppState) : AppState :=
  if connOpen st then
    {| tool := tool st; color := color st; lineWidth := lineWidth st;
       elements := elements st; undoStack := undoStack st;
       connOpen := connOpen st; sent := sent st ++ [msg] |}
  else st.

(** What applying a received message can come to: the handler returns, it
    throws a [TypeError] (a property read on [undefined], a call of something
    that is no function), or the store leaves [CanvasElement[]] because the
    payload has not the shape of its kind, where the embedding stops. *)
Inductive Outcome (A : Type) : Type :=
| Done (a : A)
| TypeError
| Untyped.
Arguments Done {A} a.
Arguments TypeError {A}.
Arguments Untyped {A}.

(** [el.id === v] for a payload value [v]: only a string can be equal to an
    id. *)
Definition id_is (id : string) (v : Payload) : bool :=
  match v with
  | PId s => (id =? s)%string
  | _ => false
  end.

(** [{ ...el, ...payload }].  Keys that the element's variant does not have
    are read by no code and are not kept. *)
Definition or_else {A : Type} (o : option A) (d : A) : A :=
  match o with
  | Some a => a
  | None => d
  end.

Definition or_else_opt {A : Type} (o d : option A) : option A :=
  match o with
  | Some a => Some a
  | None => d
  end.

Definition merge (el : CanvasElement) (p : Partial.t) : CanvasElement :=
  match el with
  | PathEl pe =>
      PathEl {| PathElement.id := Partial.id p;
                PathElement.path := or_else (Partial.path p) (PathElement.path pe) |}
  | ImageEl i =>
      ImageEl {| ImageElement.id := Partial.id p;
                 ImageElement.image := ImageElement.image i;
                 ImageElement.src := or_else_opt (Partial.src p) (ImageElement.src i);
                 ImageElement.x := or_else (Partial.x p) (ImageElement.x i);
                 ImageElement.y := or_else (Partial.y p) (ImageElement.y i);
                 ImageElement.width := or_else (Partial.width p) (ImageElement.width i);
                 ImageElement.height := or_else (Partial.height p) (ImageElement.height i);
                 ImageElement.locked := or_else_opt (Partial.locked p) (ImageElement.locked i) |}
  end.

(** [{ ...el, image: img }] *)
Definition with_image (i : ImageElement.t) (img : HTMLImageElement) : ImageElement.t :=
  {| ImageElement.id := ImageElement.id i;
     ImageElement.image := Some img;
     ImageElement.src := ImageElement.src i;
     ImageElement.x := ImageElement.x i;
     ImageElement.y := ImageElement.y i;
     ImageElement.width := ImageElement.width i;
     ImageElement.height := ImageElement.height i;
     ImageElement.locked := ImageElement.locked i |}.

Definition handleRemoteData (msg : SyncMessage) (st : AppState) : Outcome AppState :=
  let prev := elements st in
  if (type msg =? "SYNC_FULL_STATE")%string then
    match payload msg with
    | PElements els =>
        let rehydratedElements :=
          map (fun el =>
                 match el with
                 | ImageEl i =>
                     if truthy_string (ImageElement.src i)
                     then ImageEl (with_image i (newImage (or_else (ImageElement.src i) "")))
                     else el
                 | PathEl _ => el
                 end) els in
        Done (setElements rehydratedElements st)
    | _ => TypeError
    end
  else if (type msg =? "ADD_ELEMENT")%string then
    match payload msg with
    | PElement newEl =>
        match find (fun e => (elId e =? elId newEl)%string) prev with
        | Some _ => Done (setElements prev st)
        | None =>
            match newEl with
            | ImageEl i =>
                if truthy_string (ImageElement.src i)
                then Done (setElements
                             (prev ++ [ImageEl (with_image i (newImage (or_else (ImageElement.src i) "")))])
                             st)
                else Done (setElements (prev ++ [newEl]) st)
            | PathEl _ => Done (setElements (prev ++ [newEl]) st)
            end
        end
    | PUndefined => TypeError
    | PPartial p =>
        match find (fun e => (elId e =? Partial.id p)%string) prev with
        | Some _ => Done (setElements prev st)
        | None => Untyped
        end
    | PElements _ | PId _ => Untyped
    end
  else if (type msg =? "REMOVE_ELEMENT")%string then
    Done (setElements (filter (fun el => negb (id_is (elId el) (payload msg))) prev) st)
  else if (type msg =? "CLEAR_BOARD")%string then
    Done (setElements [] st)
  else if (type msg =? "UPDATE_ELEMENT")%string then
    match payload msg with
    | PPartial p =>
        Done (setElements
                (map (fun el => if (elId el =? Partial.id p)%string then merge el p else el) prev)
                st)
    | PUndefined =>
        match prev with
        | [] => Done (setElements [] st)
        | _ :: _ => TypeError
        end
    | PElement e =>
        match find (fun el => (elId el =? elId e)%string) prev with
        | Some _ => Untyped
        | None => Done (setElements prev st)
        end
    | PElements _ | PId _ => Done (setElements prev st)
    end
  else Done st.

(** [React.SetStateAction<CanvasElement[]>]: a value or an updater. *)
Inductive SetStateAction : Type :=
| Value (next : list CanvasElement)
| Updater (f : list CanvasElement -> list CanvasElement).

(** [newEl.image && newEl.image.src.startsWith('data:')] *)
Definition image_is_data_url (img : option HTMLImageElement) : bool :=
  match img with
  | Some h => String.prefix "data:" (img_src h)
  | None => false
  end.

(** The setter handed to the whiteboard: applies the update and tells the peer
    about an element that was appended or removed. *)
Definition handleSetElements (newElementsOrUpdater : SetStateAction) (st : AppState)
  : AppState :=
  let prev := elements st in
  let next :=
    match newElementsOrUpdater with
    | Updater f => f prev
    | Value v => v
    end in
  let st' :=
    if (List.length prev <? List.length next)%nat then
      match nth_error next (List.length next - 1) with
      | Some newEl =>
          let payload :=
            match newEl with
            | ImageEl i =>
                if image_is_data_url (ImageElement.image i)
                then ImageEl {| ImageElement.id := ImageElement.id i;
                                ImageElement.image := None;
                                ImageElement.src :=
                                  option_map img_src (ImageElement.image i);
                                ImageElement.x := ImageElement.x i;
                                ImageElement.y := ImageElement.y i;
                                ImageElement.width := ImageElement.width i;
                                ImageElement.height := ImageElement.height i;
                                ImageElement.locked := ImageElement.locked i |}
                else newEl
            | PathEl _ => newEl
            end in
          sendSyncMessage {| type := "ADD_ELEMENT"; payload := PElement payload |} st
      | None => st
      end
    else if (List.length next <? List.length prev)%nat then
      let remainingIds := map elId next in
      match find (fun e => negb (existsb (String.eqb (elId e)) remainingIds)) prev with
      | Some removed =>
          sendSyncMessage {| type := "REMOVE_ELEMENT"; payload := PId (elId removed) |} st
      | None => st
      end
    else st in
  setElements next st'.

(** [handleClear]; [confirmed] is the answer of [window.confirm]. *)
Definition handleClear (confirmed : bool) (st : AppState) : AppState :=
  if confirmed
  then sendSyncMessage {| type := "CLEAR_BOARD"; payload := PUndefined |}
         (setUndoStack [] (setElements [] st))
  else st.

(** Applying a sequence of received messages, stopping at the first that does
    not return. *)
Fixpoint applyAll (msgs : list SyncMessage) (st : AppState) : Outcome AppState :=
  match msgs with
  | [] => Done st
  | m :: rest =>
      match handleRemoteData m st with
      | Done st' => applyAll rest st'
      | TypeError => TypeError
      | Untyped => Untyped
      end
  end.

Definition AddElement (el : CanvasElement) : SyncMessage :=
  {| type := "ADD_ELEMENT"; payload := PElement el |}.
Definition FullState (els : list CanvasElement) : SyncMessage :=
  {| type := "SYNC_FULL_STATE"; payload := PElements els |}.
Definition RemoveElement (id : string) : SyncMessage :=
  {| type := "REMOVE_ELEMENT"; payload := PId id |}.
Definition UpdateElement (p : Partial.t) : SyncMessage :=
  {| type := "UPDATE_ELEMENT"; payload := PPartial p |}.
Definition ClearBoard : SyncMessage :=
  {| type := "CLEAR_BOARD"; payload := PUndefined |}.

(** Reconstruction of the bitmap of a received element from its encoded
    source, as [handleRemoteData] does it for [SYNC_FULL_STATE] and
    [ADD_ELEMENT]. *)
Definition rehydrate (el : CanvasElement) : CanvasElement :=
  match el with
  | ImageEl i =>
      if truthy_string (ImageElement.src i)
      then ImageEl (with_image i (newImage (or_else (ImageElement.src i) "")))
      else el
  | PathEl _ => el
  end.

(** ** Numbers *)

Definition Qlt_bool (a b : Q) : bool := negb (Qle_bool b a).

(** [Math.hypot(a, b) < t]: the root is not negative, so the comparison holds
    exactly when [t] is positive and the squares compare. *)
Definition hypot_lt (a b t : Q) : bool :=
  Qlt_bool 0 t && Qlt_bool (a * a + b * b) (t * t).

(** [Date.now().toString()] for a clock reading [now]. *)
Definition Date_now_toString (now : N) : string :=
  NilEmpty.string_of_uint (N.to_uint now).

(** ** components/Whiteboard.tsx *)

Inductive Action : Type :=
| none | drawing | panning | resizing | moving.

Inductive ResizeHandle : Type :=
| top_left | top_right | bottom_left | bottom_right.

Record ViewTransform : Type := { scale : Q; offset : Point.t }.

(** [canvas.style.cursor] *)
Inductive Cursor : Type :=
| cursor_default | cursor_pointer | cursor_move | cursor_crosshair
| cursor_nwse_resize | cursor_nesw_resize.

(** [canvas.getBoundingClientRect()] *)
Module DOMRect.
Record t : Type := mk { left : Q; top : Q }.
End DOMRect.

Record WhiteboardState : Type := {
  currentPathRef : option Path.t;
  actionRef : Action;
  panStartRef : Point.t;
  moveStartRef : Point.t;
  resizeHandleRef : option ResizeHandle;
  selectedElementId : option string;
  viewTransform : ViewTransform;
  cursor : Cursor;
  rect : DOMRect.t }.

(** The whiteboard mounted in the application: its props are the fields of
    [app], its [setElements] is [handleSetElements] and its [setUndoStack] the
    raw setter. *)
Record Session : Type := { app : AppState; wb : WhiteboardState }.

Record MouseEvent : Type := { clientX : Q; clientY : Q; button : nat }.

(** [e.touches[0]] *)
Record Touch : Type := { touchX : Q; touchY : Q }.

Definition with_app (f : AppState -> AppState) (s : Session) : Session :=
  {| app := f (app s); wb := wb s |}.

Definition set_actionRef (a : Action) (w : WhiteboardState) : WhiteboardState :=
  {| currentPathRef := currentPathRef w; actionRef := a;
     panStartRef := panStartRef w; moveStartRef := moveStartRef w;
     resizeHandleRef := resizeHandleRef w;
     selectedElementId := selectedElementId w;
     viewTransform := viewTransform w; cursor := cursor w; rect := rect w |}.

Definition set_currentPathRef (p : option Path.t) (w : WhiteboardState) : WhiteboardState :=
  {| currentPathRef := p; actionRef := actionRef w;
     panStartRef := panStartRef w; moveStartRef := moveStartRef w;
     resizeHandleRef := resizeHandleRef w;
     selectedElementId := selectedElementId w;
     viewTransform := viewTransform w; cursor := cursor w; rect := rect w |}.

Definition set_panStartRef (p : Point.t) (w : WhiteboardState) : WhiteboardState :=
  {| currentPathRef := currentPathRef w; actionRef := actionRef w;
     panStartRef := p; moveStartRef := moveStartRef w;
     resizeHandleRef := resizeHandleRef w;
     selectedElementId := selectedElementId w;
     viewTransform := viewTransform w; cursor := cursor w; rect := rect w |}.

Definition set_moveStartRef (p : Point.t) (w : WhiteboardState) : WhiteboardState :=
  {| currentPathRef := currentPathRef w; actionRef := actionRef w;
     panStartRef := panStartRef w; moveStartRef := p;
     resizeHandleRef := resizeHandleRef w;
     selectedElementId := selectedElementId w;
     viewTransform := viewTransform w; cursor := cursor w; rect := rect w |}.

Definition set_resizeHandleRef (h : option ResizeHandle) (w : WhiteboardState)
  : WhiteboardState :=
  {| currentPathRef := currentPathRef w; actionRef := actionRef w;
     panStartRef := panStartRef w; moveStartRef := moveStartRef w;
     resizeHandleRef := h;
     selectedElementId := selectedElementId w;
     viewTransform := viewTransform w; cursor := cursor w; rect := rect w |}.

Definition setSelectedElementId (i : option string) (w : WhiteboardState)
  : WhiteboardState :=
  {| currentPathRef := currentPathRef w; actionRef := actionRef w;
     panStartRef := panStartRef w; moveStartRef := moveStartRef w;
     resizeHandleRef := resizeHandleRef w;
     selectedElementId := i;
     viewTransform := viewTransform w; cursor := cursor w; rect := rect w |}.

Definition setViewTransform (v : ViewTransform) (w : WhiteboardState) : WhiteboardState :=
  {| currentPathRef := currentPathRef w; actionRef := actionRef w;
     panStartRef := panStartRef w; moveStartRef := moveStartRef w;
     resizeHandleRef := resizeHandleRef w;
     selectedElementId := selectedElementId w;
     viewTransform := v; cursor := cursor w; rect := rect w |}.

Definition set_cursor (c : Cursor) (w : WhiteboardState) : WhiteboardState :=
  {| currentPathRef := currentPathRef w; actionRef := actionRef w;
     panStartRef := panStartRef w; moveStartRef := moveStartRef w;
     resizeHandleRef := resizeHandleRef w;
     selectedElementId := selectedElementId w;
     viewTransform := viewTransform w; cursor := c; rect := rect w |}.

Definition with_wb (f : WhiteboardState -> WhiteboardState) (s : Session) : Session :=
  {| app := app s; wb := f (wb s) |}.

Section Geometry.

Variable viewTransform0 : ViewTransform.
Variable elements0 : list CanvasElement.

(** The handlers are bound to the canvas element, so [canvasRef.current] is
    set whenever one runs; the branches for a missing canvas are left out. *)
Definition getTransformedPoint (r : DOMRect.t) (clientX clientY : Q) : Point.t :=
  {| Point.x := (clientX - DOMRect.left r - Point.x (offset viewTransform0))
                / scale viewTransform0;
     Point.y := (clientY - DOMRect.top r - Point.y (offset viewTransform0))
                / scale viewTransform0 |}.

(** The test of [getElementAtPoint] on one image. *)
Definition pointInImage (point : Point.t) (element : ImageElement.t) : bool :=
  Qle_bool (ImageElement.x element) (Point.x point)
  && Qle_bool (Point.x point) (ImageElement.x element + ImageElement.width element)
  && Qle_bool (ImageElement.y element) (Point.y point)
  && Qle_bool (Point.y point) (ImageElement.y element + ImageElement.height element).

(** The loop [for (i = elements.length - 1; i >= 0; i--)], on the store
    reversed. *)
Fixpoint getElementAtPoint_loop (point : Point.t) (topDown : list CanvasElement)
  : option ImageElement.t :=
  match topDown with
  | [] => None
  | ImageEl element :: below =>
      if pointInImage point element then Some element
      else getElementAtPoint_loop point below
  | PathEl _ :: below => getElementAtPoint_loop point below
  end.

Definition getElementAtPoint (point : Point.t) : option ImageElement.t :=
  getElementAtPoint_loop point (rev elements0).

(** The inner loop of [getPathAtPoint], over the consecutive pairs
    [points[j]], [points[j+1]]. *)
Fixpoint pathSegments_loop (point : Point.t) (threshold : Q) (points : list Point.t)
  : bool :=
  match points with
  | p1 :: ((p2 :: _) as rest) =>
      let dx := Point.x p2 - Point.x p1 in
      let dy := Point.y p2 - Point.y p1 in
      let lenSq := dx * dx + dy * dy in
      if Qeq_bool lenSq 0 then
        if hypot_lt (Point.x point - Point.x p1) (Point.y point - Point.y p1) threshold
        then true
        else pathSegments_loop point threshold rest
      else
        let t := ((Point.x point - Point.x p1) * dx + (Point.y point - Point.y p1) * dy)
                 / lenSq in
        let t := Qmax 0 (Qmin 1 t) in
        let closestX := Point.x p1 + t * dx in
        let closestY := Point.y p1 + t * dy in
        if hypot_lt (Point.x point - closestX) (Point.y point - closestY) threshold
        then true
        else pathSegments_loop point threshold rest
  | _ => false
  end.

Fixpoint getPathAtPoint_loop (point : Point.t) (topDown : list CanvasElement)
  : option PathElement.t :=
  match topDown with
  | [] => None
  | PathEl element :: below =>
      let points := Path.points (PathElement.path element) in
      let lineWidth := Path.lineWidth (PathElement.path element) in
      let threshold := (lineWidth / 2 + 5) / scale viewTransform0 in
      if pathSegments_loop point threshold points then Some element
      else getPathAtPoint_loop point below
  | ImageEl _ :: below => getPathAtPoint_loop point below
  end.

Definition getPathAtPoint (point : Point.t) : option PathElement.t :=
  getPathAtPoint_loop point (rev elements0).

Definition handlePositions (element : ImageElement.t) : list (ResizeHandle * Point.t) :=
  [ (top_left, {| Point.x := ImageElement.x element; Point.y := ImageElement.y element |});
    (top_right, {| Point.x := ImageElement.x element + ImageElement.width element;
                   Point.y := ImageElement.y element |});
    (bottom_left, {| Point.x := ImageElement.x element;
                     Point.y := ImageElement.y element + ImageElement.height element |});
    (bottom_right, {| Point.x := ImageElement.x element + ImageElement.width element;
                      Point.y := ImageElement.y element + ImageElement.height element |}) ].

Definition getResizeHandleAtPoint (point : Point.t) (element : ImageElement.t)
  : option ResizeHandle :=
  let handleSize := 12 / scale viewTransform0 in
  option_map fst
    (find (fun entry =>
             Qlt_bool (Qabs (Point.x point - Point.x (snd entry))) (handleSize / 2)
             && Qlt_bool (Qabs (Point.y point - Point.y (snd entry))) (handleSize / 2))
          (handlePositions element)).

Definition isPointInLockButton (point : Point.t) (element : ImageElement.t) : bool :=
  let btnSize := 24 / scale viewTransform0 in
  let padding := 8 / scale viewTransform0 in
  let btnX := ImageElement.x element + ImageElement.width element - btnSize in
  let btnY := ImageElement.y element - btnSize - padding in
  let hitPadding := 10 / scale viewTransform0 in
  Qle_bool (btnX - hitPadding) (Point.x point)
  && Qle_bool (Point.x point) (btnX + btnSize + hitPadding)
  && Qle_bool (btnY - hitPadding) (Point.y point)
  && Qle_bool (Point.y point) (btnY + btnSize + hitPadding).

End Geometry.

(** Spreads that overwrite some fields of an image: [{ ...el, locked }],
    [{ ...el, x, y }], [{ ...el, x, y, width, height }]. *)
Definition with_locked (el : ImageElement.t) (l : bool) : ImageElement.t :=
  {| ImageElement.id := ImageElement.id el;
     ImageElement.image := ImageElement.image el;
     ImageElement.src := ImageElement.src el;
     ImageElement.x := ImageElement.x el;
     ImageElement.y := ImageElement.y el;
     ImageElement.width := ImageElement.width el;
     ImageElement.height := ImageElement.height el;
     ImageElement.locked := Some l |}.

Definition with_rect (el : ImageElement.t) (newX newY newW newH : Q) : ImageElement.t :=
  {| ImageElement.id := ImageElement.id el;
     ImageElement.image := ImageElement.image el;
     ImageElement.src := ImageElement.src el;
     ImageElement.x := newX;
     ImageElement.y := newY;
     ImageElement.width := newW;
     ImageElement.height := newH;
     ImageElement.locked := ImageElement.locked el |}.

Definition with_xy (el : ImageElement.t) (newX newY : Q) : ImageElement.t :=
  with_rect el newX newY (ImageElement.width el) (ImageElement.height el).

(** [el.id === selectedElementId]; no id is equal to [null]. *)
Definition is_selected (selected : option string) (id : string) : bool :=
  match selected with
  | Some sid => (id =? sid)%string
  | None => false
  end.

(** [elements.find(el => el.id === selectedElementId && el.type === 'image')] *)
Definition selectedImage (s : Session) : option ImageElement.t :=
  match find (fun el =>
                match el with
                | ImageEl i => is_selected (selectedElementId (wb s)) (ImageElement.id i)
                | PathEl _ => false
                end) (elements (app s)) with
  | Some (ImageEl i) => Some i
  | _ => None
  end.

Definition eventPoint (s : Session) (x y : Q) : Point.t :=
  getTransformedPoint (viewTransform (wb s)) (rect (wb s)) x y.

Definition startDrawing (x y : Q) (s : Session) : Session :=
  let startPoint := eventPoint s x y in
  let path :=
    {| Path.points := [startPoint];
       Path.color := color (app s);
       Path.lineWidth :=
         if Tool_eqb (tool (app s)) eraser then lineWidth (app s) else lineWidth (app s);
       Path.tool := if Tool_eqb (tool (app s)) select then pen else tool (app s) |} in
  with_app (setUndoStack [])
    (with_wb (fun w => set_currentPathRef (Some path) (set_actionRef drawing w)) s).

(** The removal both erasing branches make:
    [setElements(prev => prev.filter(el => el.id !== id)); setUndoStack([])]. *)
Definition eraseById (id : string) (s : Session) : Session :=
  with_app (fun a =>
              setUndoStack []
                (handleSetElements
                   (Updater (filter (fun el => negb (elId el =? id)%string))) a)) s.

(** The updater of the lock control:
    [prev.map(el => el.id === selectedElement.id && el.type === 'image'
                    ? { ...el, locked: !el.locked } : el)]. *)
Definition toggleLock (selectedId : string) : list CanvasElement -> list CanvasElement :=
  map (fun el =>
         match el with
         | ImageEl i =>
             if (ImageElement.id i =? selectedId)%string
             then ImageEl (with_locked i (negb (truthy_bool (ImageElement.locked i))))
             else el
         | PathEl _ => el
         end).

Definition handleMouseDown (e : MouseEvent) (s : Session) : Session :=
  let vt := viewTransform (wb s) in
  let els := elements (app s) in
  let point := eventPoint s (clientX e) (clientY e) in
  if (button e =? 1)%nat then
    with_wb (fun w =>
               set_panStartRef {| Point.x := clientX e; Point.y := clientY e |}
                 (set_actionRef panning w)) s
  else if (button e =? 0)%nat then
    if Tool_eqb (tool (app s)) stroke_eraser then
      match getPathAtPoint vt els point with
      | Some pathToDelete => eraseById (PathElement.id pathToDelete) s
      | None =>
          match getElementAtPoint els point with
          | Some imgToDelete =>
              if negb (truthy_bool (ImageElement.locked imgToDelete))
              then eraseById (ImageElement.id imgToDelete) s
              else s
          | None => s
          end
      end
    else if Tool_eqb (tool (app s)) select then
      let selectedElement := selectedImage s in
      let bodyClick (_ : unit) :=
        match getElementAtPoint els point with
        | Some elementUnderMouse =>
            let s1 :=
              with_wb (setSelectedElementId (Some (ImageElement.id elementUnderMouse))) s in
            if negb (truthy_bool (ImageElement.locked elementUnderMouse))
            then with_wb (fun w => set_moveStartRef point (set_actionRef moving w)) s1
            else s1
        | None => with_wb (setSelectedElementId None) s
        end in
      match selectedElement with
      | Some sel =>
          if isPointInLockButton vt point sel then
            with_app (handleSetElements (Updater (toggleLock (ImageElement.id sel)))) s
          else if negb (truthy_bool (ImageElement.locked sel)) then
            match getResizeHandleAtPoint vt point sel with
            | Some handle =>
                with_wb (fun w => set_resizeHandleRef (Some handle)
                                    (set_actionRef resizing w)) s
            | None => bodyClick tt
            end
          else bodyClick tt
      | None => bodyClick tt
      end
    else
      startDrawing (clientX e) (clientY e) (with_wb (setSelectedElementId None) s)
  else s.

(** The floor and the aspect correction every corner of the resize applies to
    its candidate width and height.  For a positive [ar] the divisors [ar]
    and [h] are positive. *)
Definition constrain (minSize ar w h : Q) : Q * Q :=
  let w := if Qlt_bool w minSize then minSize else w in
  let h := if Qlt_bool h (minSize / ar) then minSize / ar else h in
  if Qlt_bool ar (w / h) then (w, w / ar) else (h * ar, h).

(** The body of the [resizing] update for an unlocked selected image.  The
    ratio [ar] is a positive rational for an image of positive width and
    height; for a width or a height of zero the code goes on with [NaN] or
    [Infinity], where this definition does not follow it. *)
Definition resizeImage (handle : option ResizeHandle) (point : Point.t)
           (el : ImageElement.t) : ImageElement.t :=
  let minSize := 20 in
  let ar := ImageElement.width el / ImageElement.height el in
  let mouseX := Point.x point in
  let mouseY := Point.y point in
  match handle with
  | Some top_left =>
      let anchorX := ImageElement.x el + ImageElement.width el in
      let anchorY := ImageElement.y el + ImageElement.height el in
      let '(newW, newH) := constrain minSize ar (anchorX - mouseX) (anchorY - mouseY) in
      with_rect el (anchorX - newW) (anchorY - newH) newW newH
  | Some top_right =>
      let anchorX := ImageElement.x el in
      let anchorY := ImageElement.y el + ImageElement.height el in
      let '(newW, newH) := constrain minSize ar (mouseX - anchorX) (anchorY - mouseY) in
      with_rect el anchorX (anchorY - newH) newW newH
  | Some bottom_left =>
      let anchorX := ImageElement.x el + ImageElement.width el in
      let anchorY := ImageElement.y el in
      let '(newW, newH) := constrain minSize ar (anchorX - mouseX) (mouseY - anchorY) in
      with_rect el (anchorX - newW) anchorY newW newH
  | Some bottom_right =>
      let anchorX := ImageElement.x el in
      let anchorY := ImageElement.y el in
      let '(newW, newH) := constrain minSize ar (mouseX - anchorX) (mouseY - anchorY) in
      with_rect el anchorX anchorY newW newH
  | None =>
      with_rect el (ImageElement.x el) (ImageElement.y el)
                (ImageElement.width el) (ImageElement.height el)
  end.

(** The updaters of the [moving] and [resizing] cases. *)
Definition movingUpdate (selected : option string) (dx dy : Q)
  : list CanvasElement -> list CanvasElement :=
  map (fun el =>
         match el with
         | ImageEl i =>
             if is_selected selected (ImageElement.id i) then
               if truthy_bool (ImageElement.locked i) then el
               else ImageEl (with_xy i (ImageElement.x i + dx) (ImageElement.y i + dy))
             else el
         | PathEl _ => el
         end).

Definition resizingUpdate (selected : option string) (handle : option ResizeHandle)
           (point : Point.t) : list CanvasElement -> list CanvasElement :=
  map (fun el =>
         match el with
         | ImageEl i =>
             if is_selected selected (ImageElement.id i) then
               if truthy_bool (ImageElement.locked i) then el
               else ImageEl (resizeImage handle point i)
             else el
         | PathEl _ => el
         end).

Definition is_some {A : Type} (o : option A) : bool :=
  match o with
  | Some _ => true
  | None => false
  end.

(** [currentPathRef.current.points.push(point)] *)
Definition push_point (p : Path.t) (point : Point.t) : Path.t :=
  {| Path.points := Path.points p ++ [point];
     Path.color := Path.color p;
     Path.lineWidth := Path.lineWidth p;
     Path.tool := Path.tool p |}.

(** The cursor [handleMouseMove] shows over [point] with the select tool, the
    pointer not being over the lock button. *)
Definition selectCursor (s : Session) (point : Point.t) : Cursor :=
  let vt := viewTransform (wb s) in
  let els := elements (app s) in
  let overUnlocked (_ : unit) :=
    match getElementAtPoint els point with
    | Some el => if truthy_bool (ImageElement.locked el) then cursor_default else cursor_move
    | None => cursor_default
    end in
  match selectedImage s with
  | Some sel =>
      if negb (truthy_bool (ImageElement.locked sel)) then
        match getResizeHandleAtPoint vt point sel with
        | Some top_left | Some bottom_right => cursor_nwse_resize
        | Some top_right | Some bottom_left => cursor_nesw_resize
        | None => if is_some (getElementAtPoint els point) then cursor_move else cursor_default
        end
      else overUnlocked tt
  | None => overUnlocked tt
  end.

Definition handleMouseMove (e : MouseEvent) (s : Session) : Session :=
  let vt := viewTransform (wb s) in
  let els := elements (app s) in
  let point := eventPoint s (clientX e) (clientY e) in
  if Tool_eqb (tool (app s)) stroke_eraser then
    let pathHit := getPathAtPoint vt els point in
    let imgHit := getElementAtPoint els point in
    let canErase :=
      is_some pathHit
      || match imgHit with
         | Some i => negb (truthy_bool (ImageElement.locked i))
         | None => false
         end in
    with_wb (set_cursor (if canErase then cursor_pointer else cursor_default)) s
  else if Tool_eqb (tool (app s)) select
          && match selectedImage s with
             | Some sel => isPointInLockButton vt point sel
             | None => false
             end then
    with_wb (set_cursor cursor_pointer) s
  else
    let c :=
      if Tool_eqb (tool (app s)) select then selectCursor s point
      else match tool (app s) with
           | pen | highlighter | eraser => cursor_crosshair
           | _ => cursor_default
           end in
    let s := with_wb (set_cursor c) s in
    match actionRef (wb s) with
    | panning =>
        let dx := clientX e - Point.x (panStartRef (wb s)) in
        let dy := clientY e - Point.y (panStartRef (wb s)) in
        with_wb (fun w =>
                   set_panStartRef {| Point.x := clientX e; Point.y := clientY e |}
                     (setViewTransform
                        {| scale := scale (viewTransform w);
                           offset := {| Point.x := Point.x (offset (viewTransform w)) + dx;
                                        Point.y := Point.y (offset (viewTransform w)) + dy |} |}
                        w)) s
    | drawing =>
        match currentPathRef (wb s) with
        | None => s
        | Some p => with_wb (set_currentPathRef (Some (push_point p point))) s
        end
    | moving =>
        let dx := Point.x point - Point.x (moveStartRef (wb s)) in
        let dy := Point.y point - Point.y (moveStartRef (wb s)) in
        with_wb (set_moveStartRef point)
          (with_app
             (handleSetElements (Updater (movingUpdate (selectedElementId (wb s)) dx dy)))
             s)
    | resizing =>
        with_app
          (handleSetElements
             (Updater (resizingUpdate (selectedElementId (wb s))
                                      (resizeHandleRef (wb s)) point)))
          s
    | none => s
    end.

Definition handleMouseUp (now : N) (s : Session) : Session :=
  let s1 :=
    match actionRef (wb s), currentPathRef (wb s) with
    | drawing, Some p =>
        if (1 <? List.length (Path.points p))%nat then
          let scaledPath :=
            {| Path.points := Path.points p;
               Path.color := Path.color p;
               Path.lineWidth := Path.lineWidth p / scale (viewTransform (wb s));
               Path.tool := Path.tool p |} in
          let newElement :=
            PathEl {| PathElement.id := Date_now_toString now;
                      PathElement.path := scaledPath |} in
          with_app (handleSetElements (Updater (fun prev => prev ++ [newElement]))) s
        else s
    | _, _ => s
    end in
  let s2 :=
    match actionRef (wb s) with
    | resizing | moving => with_app (setUndoStack []) s1
    | _ => s1
    end in
  with_wb (fun w => set_resizeHandleRef None (set_currentPathRef None (set_actionRef none w)))
          s2.

(** The canvas binds [onMouseLeave] and [onTouchEnd] to [handleMouseUp]. *)
Definition onMouseLeave : N -> Session -> Session := handleMouseUp.
Definition onTouchEnd : N -> Session -> Session := handleMouseUp.

Definition onTouchStart (t : Touch) (s : Session) : Session :=
  let vt := viewTransform (wb s) in
  let els := elements (app s) in
  let point := eventPoint s (touchX t) (touchY t) in
  if Tool_eqb (tool (app s)) stroke_eraser then
    match getPathAtPoint vt els point with
    | Some pathToDelete => eraseById (PathElement.id pathToDelete) s
    | None => s
    end
  else if Tool_eqb (tool (app s)) select then
    match getElementAtPoint els point with
    | Some el => with_wb (setSelectedElementId (Some (ImageElement.id el))) s
    | None => with_wb (setSelectedElementId None) s
    end
  else startDrawing (touchX t) (touchY t) s.

Definition onTouchMove (t : Touch) (s : Session) : Session :=
  match actionRef (wb s), currentPathRef (wb s) with
  | drawing, Some p =>
      let point := eventPoint s (touchX t) (touchY t) in
      with_wb (set_currentPathRef (Some (push_point p point))) s
  | _, _ => s
  end.

Record WheelEvent : Type := { wheelX : Q; wheelY : Q; deltaY : Q }.

(** The zoom about the pointer; [0.001] and [0.1] are [1 # 1000] and
    [1 # 10]. *)
Definition handleWheel (e : WheelEvent) (s : Session) : Session :=
  let vt := viewTransform (wb s) in
  let mouseX := wheelX e - DOMRect.left (rect (wb s)) in
  let mouseY := wheelY e - DOMRect.top (rect (wb s)) in
  let scaleMultiplier := 1 - deltaY e * (1 # 1000) in
  let newScale := Qmax (1 # 10) (Qmin 10 (scale vt * scaleMultiplier)) in
  let newOffsetX := mouseX - (mouseX - Point.x (offset vt)) * (newScale / scale vt) in
  let newOffsetY := mouseY - (mouseY - Point.y (offset vt)) * (newScale / scale vt) in
  with_wb (setViewTransform
             {| scale := newScale;
                offset := {| Point.x := newOffsetX; Point.y := newOffsetY |} |}) s.

(** The events the canvas hands to the whiteboard. *)
Inductive Event : Type :=
| MouseDown (e : MouseEvent)
| MouseMove (e : MouseEvent)
| MouseUp (now : N)
| MouseLeave (now : N)
| TouchStart (t : Touch)
| TouchMove (t : Touch)
| TouchEnd (now : N)
| Wheel (e : WheelEvent).

Definition handle (ev : Event) (s : Session) : Session :=
  match ev with
  | MouseDown e => handleMouseDown e s
  | MouseMove e => handleMouseMove e s
  | MouseUp now => handleMouseUp now s
  | MouseLeave now => onMouseLeave now s
  | TouchStart t => onTouchStart t s
  | TouchMove t => onTouchMove t s
  | TouchEnd now => onTouchEnd now s
  | Wheel e => handleWheel e s
  end.

Definition run (evs : list Event) (s : Session) : Session :=
  fold_left (fun s ev => handle ev s) evs s.


(** * Auxiliary definitions of the statements *)

(** [store] holds an element with this id. *)
Definition hasId (id : string) (store : list CanvasElement) : bool :=
  existsb (fun e => (elId e =? id)%string) store.

(** The elements of a batch that a store does not yet hold. *)
Definition fresh (store batch : list CanvasElement) : list CanvasElement :=
  filter (fun e => negb (hasId (elId e) store)) batch.

(** The five kinds that the [switch] of [handleRemoteData] has a case for. *)
Definition knownKinds : list string :=
  ["SYNC_FULL_STATE"; "ADD_ELEMENT"; "REMOVE_ELEMENT"; "CLEAR_BOARD"; "UPDATE_ELEMENT"].

(** [{ id, locked }], the payload of an update of the lock flag alone. *)
Definition lockPatch (id : string) (l : bool) : Partial.t :=
  {| Partial.id := id; Partial.src := None;
     Partial.x := None; Partial.y := None;
     Partial.width := None; Partial.height := None;
     Partial.locked := Some l; Partial.path := None |}.


(** The range that the wheel keeps the zoom in. *)
Definition scaleInRange (s : Session) : Prop :=
  (1 # 10) <= scale (viewTransform (wb s)) /\ scale (viewTransform (wb s)) <= 10.

(** The pointer-move events, of the mouse and of a finger. *)
Definition isPointerMove (ev : Event) : Prop :=
  match ev with
  | MouseMove _ | TouchMove _ => True
  | _ => False
  end.

(** The corner of an image that a handle sits on, and the handle across the
    diagonal. *)
Definition corner (h : ResizeHandle) (el : ImageElement.t) : Point.t :=
  match h with
  | top_left =>
      {| Point.x := ImageElement.x el; Point.y := ImageElement.y el |}
  | top_right =>
      {| Point.x := ImageElement.x el + ImageElement.width el;
         Point.y := ImageElement.y el |}
  | bottom_left =>
      {| Point.x := ImageElement.x el;
         Point.y := ImageElement.y el + ImageElement.height el |}
  | bottom_right =>
      {| Point.x := ImageElement.x el + ImageElement.width el;
         Point.y := ImageElement.y el + ImageElement.height el |}
  end.

Definition opposite (h : ResizeHandle) : ResizeHandle :=
  match h with
  | top_left => bottom_right
  | top_right => bottom_left
  | bottom_left => top_right
  | bottom_right => top_left
  end.

(** Two points with the same coordinates. *)
Definition samePoint (p q : Point.t) : Prop :=
  Point.x p == Point.x q /\ Point.y p == Point.y q.

(** The width and the height that a pointer at [point] asks for when it drags
    the handle [h] away from the corner [anchor]. *)
Definition dragWidth (h : ResizeHandle) (anchor point : Point.t) : Q :=
  match h with
  | top_left | bottom_left => Point.x anchor - Point.x point
  | top_right | bottom_right => Point.x point - Point.x anchor
  end.

Definition dragHeight (h : ResizeHandle) (anchor point : Point.t) : Q :=
  match h with
  | top_left | top_right => Point.y anchor - Point.y point
  | bottom_left | bottom_right => Point.y point - Point.y anchor
  end.

(** The Euclidean distance of two points, over the reals. *)
Definition distance (p q : Point.t) : R :=
  sqrt ((Q2R (Point.x p) - Q2R (Point.x q)) * (Q2R (Point.x p) - Q2R (Point.x q))
        + (Q2R (Point.y p) - Q2R (Point.y q)) * (Q2R (Point.y p) - Q2R (Point.y q)))%R.

(** The point [p1 + t (p2 - p1)] of the line through [p1] and [p2]. *)
Definition along (p1 p2 : Point.t) (t : Q) : Point.t :=
  {| Point.x := Point.x p1 + t * (Point.x p2 - Point.x p1);
     Point.y := Point.y p1 + t * (Point.y p2 - Point.y p1) |}.

(** The projection of [point] on the segment from [p1] to [p2], its parameter
    clamped to the interval from 0 to 1; for a segment of no length, [p1]. *)
Definition clampedProjection (point p1 p2 : Point.t) : Point.t :=
  let dx := Point.x p2 - Point.x p1 in
  let dy := Point.y p2 - Point.y p1 in
  let lenSq := dx * dx + dy * dy in
  if Qeq_bool lenSq 0 then p1
  else
    along p1 p2
          (Qmax 0 (Qmin 1 (((Point.x point - Point.x p1) * dx
                            + (Point.y point - Point.y p1) * dy) / lenSq))).

(** The square of the distance, which stays rational. *)
Definition sqDistance (p q : Point.t) : Q :=
  (Point.x p - Point.x q) * (Point.x p - Point.x q)
  + (Point.y p - Point.y q) * (Point.y p - Point.y q).

(** The hit test of a path as the specification words it: some pair of
    consecutive points of the path spans a segment whose distance to the
    probe, taken at the clamped projection, is less than
    [(strokeWidth / 2 + 5) / scale]. *)
Definition pathHit (vt : ViewTransform) (point : Point.t) (pe : PathElement.t) : Prop :=
  exists (j : nat) (p1 p2 : Point.t),
    nth_error (Path.points (PathElement.path pe)) j = Some p1
    /\ nth_error (Path.points (PathElement.path pe)) (S j) = Some p2
    /\ (distance point (clampedProjection point p1 p2)
        < Q2R ((Path.lineWidth (PathElement.path pe) / 2 + 5) / scale vt))%R.

(** Case analysis on every test that the goal branches on. *)
Ltac break_branches :=
  repeat match goal with
         | |- context [if ?c then _ else _] => destruct c
         | |- context [match ?x with _ => _ end] => destruct x
         end.

(** Concrete elements and sessions for the examples. *)
Module Sample.

Definition stroke : PathElement.t :=
  {| PathElement.id := "1700000000001";
     PathElement.path :=
       {| Path.points := [ {| Point.x := 0; Point.y := 0 |};
                           {| Point.x := 10; Point.y := 0 |} ];
          Path.color := "#000000";
          Path.lineWidth := 4;
          Path.tool := pen |} |}.

Definition photo : ImageElement.t :=
  {| ImageElement.id := "pdf-1700000000002-1";
     ImageElement.image := None;
     ImageElement.src := Some "data:image/png;base64,iVBORw0KGgo=";
     ImageElement.x := 100;
     ImageElement.y := 50;
     ImageElement.width := 200;
     ImageElement.height := 100;
     ImageElement.locked := Some false |}.

Definition lockedPhoto : ImageElement.t := with_locked photo true.

Definition batch : list CanvasElement := [PathEl stroke; ImageEl photo].

(** A peer with the data channel open and [store] on the board. *)
Definition peer (t : Tool) (store : list CanvasElement) : AppState :=
  {| tool := t; color := "#000000"; lineWidth := 4;
     elements := store; undoStack := [];
     connOpen := true; sent := [] |}.

Definition board (a : Action) (sel : option string) : WhiteboardState :=
  {| currentPathRef := None;
     actionRef := a;
     panStartRef := {| Point.x := 0; Point.y := 0 |};
     moveStartRef := {| Point.x := 0; Point.y := 0 |};
     resizeHandleRef := None;
     selectedElementId := sel;
     viewTransform := {| scale := 1; offset := {| Point.x := 0; Point.y := 0 |} |};
     cursor := cursor_default;
     rect := {| DOMRect.left := 0; DOMRect.top := 0 |} |}.

Definition click (x y : Q) : MouseEvent :=
  {| clientX := x; clientY := y; button := 0 |}.

(** The host with [photo] on the board and selected, the select tool active;
    the lock control of [photo] spans 266..310 by 8..52. *)
Definition host : Session :=
  {| app := peer select [PathEl stroke; ImageEl photo];
     wb := board none (Some (ImageElement.id photo)) |}.

(** The guest with the same board and nothing selected. *)
Definition guest : Session :=
  {| app := peer select [PathEl stroke; ImageEl photo];
     wb := board none None |}.

(** A board with [photo] alone and the stroke eraser active. *)
Definition erasing : Session :=
  {| app := peer stroke_eraser [ImageEl photo];
     wb := board none None |}.

Definition zoom (k : Q) : ViewTransform :=
  {| scale := k; offset := {| Point.x := 0; Point.y := 0 |} |}.

Definition at_ (x y : Q) : Point.t := {| Point.x := x; Point.y := y |}.

Definition openPath : Path.t :=
  {| Path.points := [ {| Point.x := 0; Point.y := 0 |};
                      {| Point.x := 3; Point.y := 4 |};
                      {| Point.x := 6; Point.y := 8 |} ];
     Path.color := "#EF4444";
     Path.lineWidth := 4;
     Path.tool := pen |}.

(** The board while a stroke is drawn at zoom 2. *)
Definition drawingBoard : WhiteboardState :=
  setViewTransform {| scale := 2; offset := {| Point.x := 0; Point.y := 0 |} |}
    (set_currentPathRef (Some openPath) (board drawing None)).

End Sample.

(** * Further definitions: geometry of the view, gestures, the wire *)

From Stdlib Require Import DecimalNat.

(** The point lies in the rectangle of the image, its edges included. *)
Definition insideImage (point : Point.t) (i : ImageElement.t) : Prop :=
  ImageElement.x i <= Point.x point
  /\ Point.x point <= ImageElement.x i + ImageElement.width i
  /\ ImageElement.y i <= Point.y point
  /\ Point.y point <= ImageElement.y i + ImageElement.height i.

(** Where [redrawCanvas] draws a point of the document, in client
    coordinates: [ctx.translate(offset); ctx.scale(scale)] on a canvas whose
    bounding rectangle starts at [rect.left], [rect.top]. *)
Definition toClient (vt : ViewTransform) (r : DOMRect.t) (p : Point.t) : Point.t :=
  {| Point.x := Point.x p * scale vt + Point.x (offset vt) + DOMRect.left r;
     Point.y := Point.y p * scale vt + Point.y (offset vt) + DOMRect.top r |}.

(** The point of the document under a mouse event. *)
Definition mousePoint (s : Session) (e : MouseEvent) : Point.t :=
  eventPoint s (clientX e) (clientY e).

(** The messages sent between two states of the application. *)
Definition sentSince (before after : AppState) : list SyncMessage :=
  skipn (List.length (sent before)) (sent after).

(** A pan in progress that pointer moves act on: with the select tool no
    image is selected, whose lock control would take the move. *)
Definition panReady (s : Session) : Prop :=
  actionRef (wb s) = panning
  /\ tool (app s) <> stroke_eraser
  /\ (tool (app s) = select -> selectedImage s = None).

(** The point of the document under the anchor of the pan. *)
Definition panAnchorPoint (s : Session) : Point.t :=
  eventPoint s (Point.x (panStartRef (wb s))) (Point.y (panStartRef (wb s))).

(** The tools that draw. *)
Definition drawingTool (t : Tool) : Prop := t = pen \/ t = highlighter \/ t = eraser.

(** The path a gesture commits: the points under the press and the moves,
    seen through the view of [s]. *)
Definition strokeOf (s : Session) (now : N) (e0 : MouseEvent) (moves : list MouseEvent)
  : CanvasElement :=
  PathEl {| PathElement.id := Date_now_toString now;
            PathElement.path :=
              {| Path.points := map (mousePoint s) (e0 :: moves);
                 Path.color := color (app s);
                 Path.lineWidth := lineWidth (app s) / scale (viewTransform (wb s));
                 Path.tool := tool (app s) |} |}.

(** What [handleSetElements] puts on the wire for an element: a copy in which
    a bitmap that is a data URL is replaced by that URL as [src]. *)
Definition wirePayload (newEl : CanvasElement) : CanvasElement :=
  match newEl with
  | ImageEl i =>
      if image_is_data_url (ImageElement.image i)
      then ImageEl {| ImageElement.id := ImageElement.id i;
                      ImageElement.image := None;
                      ImageElement.src := option_map img_src (ImageElement.image i);
                      ImageElement.x := ImageElement.x i;
                      ImageElement.y := ImageElement.y i;
                      ImageElement.width := ImageElement.width i;
                      ImageElement.height := ImageElement.height i;
                      ImageElement.locked := ImageElement.locked i |}
      else newEl
  | PathEl _ => newEl
  end.

(** The kinds of message the whiteboard can cause to be sent. *)
Definition storeChangeKind (m : SyncMessage) : Prop :=
  type m = "ADD_ELEMENT" \/ type m = "REMOVE_ELEMENT".

(** The updater of both erasing branches. *)
Definition withoutId (id : string) : list CanvasElement -> list CanvasElement :=
  filter (fun el => negb (elId el =? id)%string).

(** What the stroke eraser may take at a point: a path that is hit there, or,
    no path of the store being hit, an unlocked image under the point. *)
Definition erasable (s : Session) (point : Point.t) (el : CanvasElement) : Prop :=
  match el with
  | PathEl pe => pathHit (viewTransform (wb s)) point pe
  | ImageEl i =>
      insideImage point i
      /\ truthy_bool (ImageElement.locked i) = false
      /\ forall pe, In (PathEl pe) (elements (app s)) ->
                    ~ pathHit (viewTransform (wb s)) point pe
  end.

(** The store after an erasure: as before, or without one erasable
    element. *)
Definition erasedAt (s : Session) (point : Point.t) (after : list CanvasElement) : Prop :=
  after = elements (app s)
  \/ exists below el above,
      elements (app s) = below ++ el :: above
      /\ after = below ++ above
      /\ erasable s point el.

(** The point is nearer to the corner of the handle [h] than half the size of
    a handle, 12 pixels of the screen, along both axes. *)
Definition nearHandle (vt : ViewTransform) (point : Point.t) (el : ImageElement.t)
           (h : ResizeHandle) : Prop :=
  Qabs (Point.x point - Point.x (corner h el)) < 12 / scale vt / 2
  /\ Qabs (Point.y point - Point.y (corner h el)) < 12 / scale vt / 2.

(** The test [getResizeHandleAtPoint] makes for one handle. *)
Definition nearHandleb (vt : ViewTransform) (point : Point.t) (el : ImageElement.t)
           (h : ResizeHandle) : bool :=
  Qlt_bool (Qabs (Point.x point - Point.x (corner h el))) (12 / scale vt / 2)
  && Qlt_bool (Qabs (Point.y point - Point.y (corner h el))) (12 / scale vt / 2).

(** ** Whiteboard.tsx: pasting an image *)

(** An item of the clipboard: its type and, where [getAsFile] gives a file,
    the object URL that [URL.createObjectURL] makes for it. *)
Record ClipboardItem : Type := { item_type : string; item_file : option string }.

(** [item.type.indexOf('image') !== -1] *)
Definition isImageItem (item : ClipboardItem) : bool :=
  is_some (String.index 0 "image" (item_type item)).

(** A bitmap that is loading.  The paste handler is made anew in every render
    and its [onload] closes over the [viewTransform] of that render: the view
    the image is laid out with is the one of the moment the paste arrived,
    whatever the view is when the bitmap has loaded. *)
Record PendingImage : Type := {
  pendingImage : HTMLImageElement;
  capturedView : ViewTransform }.

(** The loop of [handlePaste] over the items: the first item that is an image
    and has a file starts to load, and the handler returns. *)
Fixpoint handlePaste_loop (vt : ViewTransform) (items : list ClipboardItem)
  : option PendingImage :=
  match items with
  | [] => None
  | item :: rest =>
      if isImageItem item then
        match item_file item with
        | None => handlePaste_loop vt rest
        | Some imageUrl =>
            Some {| pendingImage := newImage imageUrl; capturedView := vt |}
        end
      else handlePaste_loop vt rest
  end.

(** [handlePaste]; [items] is [e.clipboardData?.items].  The state is not
    touched before the bitmap has loaded. *)
Definition handlePaste (items : option (list ClipboardItem)) (s : Session)
  : option PendingImage :=
  match items with
  | None => None
  | Some items => handlePaste_loop (viewTransform (wb s)) items
  end.

(** The [onload] handler of a pasted image, run in the session [s] of the
    moment the bitmap has loaded.  [imageWidth] and [imageHeight] are
    [image.width] and [image.height], [rectWidth] and [rectHeight] the width
    and height of the bounding rectangle of the canvas, which is read when
    the handler runs; the view is the captured one; [0.5] is [1 # 2]. *)
Definition handlePaste_onload (pending : PendingImage) (imageWidth imageHeight : Q)
           (rectWidth rectHeight : Q) (now : N) (s : Session) : Session :=
  let image := pendingImage pending in
  let vt := capturedView pending in
  let r := rect (wb s) in
  let targetWidth := Qmin imageWidth (rectWidth * (1 # 2)) in
  let scale0 := targetWidth / imageWidth in
  let targetHeight := imageHeight * scale0 in
  let centerPoint :=
    getTransformedPoint vt r (DOMRect.left r + rectWidth / 2)
                        (DOMRect.top r + rectHeight / 2) in
  let newImageElement :=
    {| ImageElement.id := Date_now_toString now;
       ImageElement.image := Some image;
       ImageElement.src := None;
       ImageElement.x := Point.x centerPoint - (targetWidth / scale vt) / 2;
       ImageElement.y := Point.y centerPoint - (targetHeight / scale vt) / 2;
       ImageElement.width := targetWidth / scale vt;
       ImageElement.height := targetHeight / scale vt;
       ImageElement.locked := Some false |} in
  with_app (handleSetElements (Updater (fun prev => prev ++ [ImageEl newImageElement]))) s.

(** The middle of the canvas, in client coordinates. *)
Definition canvasCentre (r : DOMRect.t) (rectWidth rectHeight : Q) : Point.t :=
  {| Point.x := DOMRect.left r + rectWidth / 2;
     Point.y := DOMRect.top r + rectHeight / 2 |}.

(** The middle of the rectangle of an image. *)
Definition centreOf (i : ImageElement.t) : Point.t :=
  {| Point.x := ImageElement.x i + ImageElement.width i / 2;
     Point.y := ImageElement.y i + ImageElement.height i / 2 |}.

(** ** App.tsx: importing a PDF *)

(** A page as [handleImportPdf] gets it from the renderer: whether the canvas
    gave a 2d context, the viewport at scale 1.5, the data URL of the
    rendering and the clock when the element is made. *)
Record RenderedPage : Type := {
  hasContext : bool;
  viewportWidth : Q;
  viewportHeight : Q;
  imgData : string;
  renderedAt : N }.

(** [`pdf-${Date.now()}-${i}`] *)
Definition pdfId (now : N) (i : nat) : string :=
  "pdf-" ++ Date_now_toString now ++ "-" ++ NilEmpty.string_of_uint (Nat.to_uint i).

(** The loop over the pages, from page [i] on with the running [currentY]. *)
Fixpoint importPages (i : nat) (currentY : Q) (pages : list RenderedPage)
  : list ImageElement.t :=
  match pages with
  | [] => []
  | page :: rest =>
      if hasContext page then
        {| ImageElement.id := pdfId (renderedAt page) i;
           ImageElement.image := Some (newImage (imgData page));
           ImageElement.src := Some (imgData page);
           ImageElement.x := 100;
           ImageElement.y := currentY;
           ImageElement.width := viewportWidth page / 2;
           ImageElement.height := viewportHeight page / 2;
           ImageElement.locked := Some false |}
        :: importPages (S i) (currentY + (viewportHeight page / 2 + 20)) rest
      else importPages (S i) currentY rest
  end.

Definition setTool (t : Tool) (st : AppState) : AppState :=
  {| tool := t; color := color st; lineWidth := lineWidth st;
     elements := elements st; undoStack := undoStack st;
     connOpen := connOpen st; sent := sent st |}.

(** [{ ...el, image: undefined }] *)
Definition without_image (el : ImageElement.t) : ImageElement.t :=
  {| ImageElement.id := ImageElement.id el;
     ImageElement.image := None;
     ImageElement.src := ImageElement.src el;
     ImageElement.x := ImageElement.x el;
     ImageElement.y := ImageElement.y el;
     ImageElement.width := ImageElement.width el;
     ImageElement.height := ImageElement.height el;
     ImageElement.locked := ImageElement.locked el |}.

(** [handleImportPdf] for a file whose pages all render: [isPdf] is
    [file.type === 'application/pdf'], [pages] the pages of the document in
    order.  The store is set with the raw setter and every new element is
    sent on its own. *)
Definition handleImportPdf (isPdf : bool) (pages : list RenderedPage) (st : AppState)
  : AppState :=
  if negb isPdf then st
  else
    let newElements := importPages 1 50 (firstn 20 pages) in
    let st1 := setElements (elements st ++ map ImageEl newElements) st in
    let st2 :=
      fold_left (fun a el =>
                   sendSyncMessage
                     {| type := "ADD_ELEMENT";
                        payload := PElement (ImageEl (without_image el)) |} a)
                newElements st1 in
    setTool select st2.

(** The pages of a document that an import makes images of, each with its
    number, counted from 1: those of the first 20 pages that gave a drawing
    context. *)
Definition renderedPages (pages : list RenderedPage) : list (nat * RenderedPage) :=
  filter (fun numbered => hasContext (snd numbered)) (combine (seq 1 20) pages).

(** The image of a numbered page, but for its [y]: the id made of the clock
    and the number of the page, the data URL of the rendering as source and
    as [src] of the bitmap, half the viewport as size, [x = 100], unlocked. *)
Definition imageOfPage (numbered : nat * RenderedPage) (el : ImageElement.t) : Prop :=
  let page := snd numbered in
  ImageElement.id el = pdfId (renderedAt page) (fst numbered)
  /\ ImageElement.image el = Some {| img_src := imgData page |}
  /\ ImageElement.src el = Some (imgData page)
  /\ ImageElement.x el = 100
  /\ ImageElement.width el = viewportWidth page / 2
  /\ ImageElement.height el = viewportHeight page / 2
  /\ ImageElement.locked el = Some false.

(** Images laid out one under the other from [y0], 20 apart, at [x = 100]. *)
Fixpoint stackedFrom (y0 : Q) (els : list ImageElement.t) : Prop :=
  match els with
  | [] => True
  | el :: rest =>
      ImageElement.x el == 100
      /\ ImageElement.y el == y0
      /\ stackedFrom (y0 + ImageElement.height el + 20) rest
  end.

(** The events of a finger. *)
Definition isTouch (ev : Event) : Prop :=
  match ev with
  | TouchStart _ | TouchMove _ | TouchEnd _ => True
  | _ => False
  end.

Definition isPath (el : CanvasElement) : Prop :=
  match el with
  | PathEl _ => True
  | ImageEl _ => False
  end.

(** * Properties *)

(** ** The element store under received messages *)

Lemma setElements_same (st : AppState) : setElements (elements st) st = st.
Proof. destruct st; reflexivity. Qed.

Lemma elId_rehydrate (el : CanvasElement) : elId (rehydrate el) = elId el.
Proof.
  destruct el as [p | i]; simpl; [reflexivity |].
  destruct (truthy_string (ImageElement.src i)); reflexivity.
Qed.

Lemma find_hasId (id : string) (store : list CanvasElement) :
  find (fun e => (elId e =? id)%string) store = None <-> hasId id store = false.
Proof.
  unfold hasId; induction store as [| e store IH]; simpl; [tauto |].
  destruct (elId e =? id)%string; simpl; [split; discriminate | exact IH].
Qed.

Lemma hasId_In (id : string) (store : list CanvasElement) :
  hasId id store = true <-> In id (map elId store).
Proof.
  unfold hasId; rewrite existsb_exists, in_map_iff; split.
  - intros [e [Hin He]]; apply String.eqb_eq in He; eauto.
  - intros [e [He Hin]]; exists e; split; [assumption | now apply String.eqb_eq].
Qed.

Lemma hasId_app (id : string) (a b : list CanvasElement) :
  hasId id (a ++ b) = hasId id a || hasId id b.
Proof. unfold hasId; apply existsb_app. Qed.

(** One [ADD_ELEMENT], in closed form. *)
Lemma handleRemoteData_add (el : CanvasElement) (st : AppState) :
  handleRemoteData (AddElement el) st =
  Done (setElements
          (if hasId (elId el) (elements st) then elements st
           else elements st ++ [rehydrate el]) st).
Proof.
  unfold handleRemoteData, AddElement; simpl.
  destruct (find _ (elements st)) eqn:Hf.
  - assert (Hh : hasId (elId el) (elements st) = true).
    { destruct (hasId (elId el) (elements st)) eqn:Hh; [reflexivity |].
      apply find_hasId in Hh; congruence. }
    now rewrite Hh.
  - apply find_hasId in Hf; rewrite Hf.
    destruct el as [p | i]; simpl; [reflexivity |].
    destruct (truthy_string (ImageElement.src i)); reflexivity.
Qed.

Lemma fresh_snoc (store batch : list CanvasElement) (x : CanvasElement) :
  ~ In (elId x) (map elId batch) ->
  fresh (store ++ [x]) batch = fresh store batch.
Proof.
  intros Hx; unfold fresh; apply filter_ext_in; intros e He.
  rewrite hasId_app; simpl.
  destruct (elId x =? elId e)%string eqn:E; [| now rewrite !orb_false_r].
  apply String.eqb_eq in E; exfalso; apply Hx; rewrite E; now apply in_map.
Qed.

Lemma applyAll_add (batch : list CanvasElement) :
  NoDup (map elId batch) ->
  forall st,
    applyAll (map AddElement batch) st =
    Done (setElements (elements st ++ map rehydrate (fresh (elements st) batch)) st).
Proof.
  induction batch as [| el batch IH]; intros Hnd st; simpl.
  - now rewrite app_nil_r, setElements_same.
  - inversion Hnd as [| ? ? Hnotin Hnd']; subst.
    rewrite handleRemoteData_add, (IH Hnd'); simpl.
    destruct (hasId (elId el) (elements st)) eqn:Hh; simpl.
    + reflexivity.
    + rewrite fresh_snoc by (now rewrite elId_rehydrate).
      now rewrite <- app_assoc.
Qed.

Lemma fresh_all (store batch : list CanvasElement) :
  (forall e, In e batch -> ~ In (elId e) (map elId store)) ->
  fresh store batch = batch.
Proof.
  intros H; unfold fresh; induction batch as [| e batch IH]; simpl; [reflexivity |].
  destruct (hasId (elId e) store) eqn:Hh; simpl.
  - apply hasId_In in Hh; exfalso; apply (H e); [now left | assumption].
  - f_equal; apply IH; intros e' He'; apply H; now right.
Qed.

Lemma map_elId_rehydrate (l : list CanvasElement) :
  map elId (map rehydrate l) = map elId l.
Proof. rewrite map_map; apply map_ext; intros; apply elId_rehydrate. Qed.

(** Dropping elements of a store keeps its ids distinct. *)
Lemma NoDup_ids_filter (keep : CanvasElement -> bool) (store : list CanvasElement) :
  NoDup (map elId store) -> NoDup (map elId (filter keep store)).
Proof.
  intros Hnd; induction store as [| e store IH]; simpl in *; [constructor |].
  apply NoDup_cons_iff in Hnd; destruct Hnd as [Hnotin Hnd].
  destruct (keep e); simpl; [| now apply IH].
  apply NoDup_cons; [| now apply IH].
  intros Hin; apply Hnotin; apply in_map_iff in Hin.
  destruct Hin as [e' [He' Hin]]; apply filter_In in Hin.
  rewrite <- He'; apply in_map; tauto.
Qed.

Lemma NoDup_fresh (store batch : list CanvasElement) :
  NoDup (map elId store) -> NoDup (map elId batch) ->
  NoDup (map elId (store ++ map rehydrate (fresh store batch))).
Proof.
  intros Hs Hb; rewrite map_app, map_elId_rehydrate.
  apply NoDup_app; [assumption | now apply NoDup_ids_filter |].
  intros id Hin Hin'; unfold fresh in Hin'; rewrite in_map_iff in Hin'.
  destruct Hin' as [e [He Hf]]; apply filter_In in Hf; destruct Hf as [_ Hf].
  apply hasId_In in Hin; rewrite He, Hin in Hf; discriminate.
Qed.

Lemma In_fresh_or_store (store batch : list CanvasElement) (e : CanvasElement) :
  In e batch ->
  In (elId e) (map elId (store ++ map rehydrate (fresh store batch))).
Proof.
  intros He; rewrite map_app, map_elId_rehydrate, in_app_iff.
  destruct (hasId (elId e) store) eqn:Hh.
  - left; now apply hasId_In.
  - right; apply in_map; unfold fresh; apply filter_In; now rewrite Hh.
Qed.

(** [C1] A batch of [AddElement] messages with distinct ids appends, in
    receipt order and each with its bitmap reconstructed, exactly the elements
    whose id the store did not hold: all of them when the ids are new to the
    store.  A store with unique ids keeps unique ids and then holds every id
    of the batch.  A message is appended if and only if no element of the
    store has its id, and replaying it changes nothing. *)
Theorem add_element_distinct_ids (batch : list CanvasElement) (st : AppState) :
  NoDup (map elId batch) ->
  (exists st',
      applyAll (map AddElement batch) st = Done st'
      /\ elements st' = elements st ++ map rehydrate (fresh (elements st) batch)
      /\ ((forall e, In e batch -> ~ In (elId e) (map elId (elements st))) ->
          elements st' = elements st ++ map rehydrate batch)
      /\ (NoDup (map elId (elements st)) ->
          NoDup (map elId (elements st'))
          /\ forall e, In e batch -> In (elId e) (map elId (elements st'))))
  /\ (forall el,
         exists st1,
           handleRemoteData (AddElement el) st = Done st1
           /\ (hasId (elId el) (elements st) = false ->
               elements st1 = elements st ++ [rehydrate el])
           /\ (hasId (elId el) (elements st) = true -> elements st1 = elements st)
           /\ handleRemoteData (AddElement el) st1 = Done st1).
Proof.
  intros Hnd; split.
  - eexists; split; [now apply applyAll_add |]; simpl.
    split; [reflexivity |]; split.
    + intros Hnew; now rewrite fresh_all.
    + intros Hst; split; [now apply NoDup_fresh |].
      intros e He; now apply In_fresh_or_store.
  - intros el; eexists; split; [apply handleRemoteData_add |]; simpl.
    split; [now intros -> |]; split; [now intros -> |].
    rewrite handleRemoteData_add; simpl.
    destruct (hasId (elId el) (elements st)) eqn:Hh.
    + now rewrite Hh.
    + rewrite hasId_app; simpl; rewrite elId_rehydrate, String.eqb_refl, orb_true_r.
      reflexivity.
Qed.

Lemma add_element_distinct_ids_witness :
  NoDup (map elId Sample.batch)
  /\ exists st',
      applyAll (map AddElement Sample.batch) (Sample.peer pen []) = Done st'
      /\ elements st' = map rehydrate Sample.batch.
Proof.
  assert (Hnd : NoDup (map elId Sample.batch)).
  { repeat constructor; simpl; intuition discriminate. }
  split; [exact Hnd |].
  destruct (add_element_distinct_ids Sample.batch (Sample.peer pen []) Hnd)
    as [[st' [Hrun [_ [Hnew _]]]] _].
  exists st'; split; [exact Hrun |].
  apply Hnew; simpl; tauto.
Defined.

Lemma rehydrate_idempotent (el : CanvasElement) : rehydrate (rehydrate el) = rehydrate el.
Proof.
  destruct el as [p | i]; simpl; [reflexivity |].
  destruct (truthy_string (ImageElement.src i)) eqn:H; simpl; now rewrite H.
Qed.

Lemma handleRemoteData_full (E : list CanvasElement) (st : AppState) :
  handleRemoteData (FullState E) st = Done (setElements (map rehydrate E) st).
Proof. reflexivity. Qed.

Lemma truthy_string_of (url : string) : url <> "" -> truthy_string (Some url) = true.
Proof.
  intros H; cbn [truthy_string]; apply negb_true_iff; now apply String.eqb_neq.
Qed.

(** What the [map] of [SYNC_FULL_STATE] makes of the image at one place of
    the payload. *)
Lemma full_state_image (E : list CanvasElement) (st st' : AppState)
      (n : nat) (i : ImageElement.t) :
  handleRemoteData (FullState E) st = Done st' ->
  nth_error E n = Some (ImageEl i) ->
  (forall url,
      ImageElement.src i = Some url -> url <> "" ->
      exists i' img,
        nth_error (elements st') n = Some (ImageEl i')
        /\ ImageElement.image i' = Some img
        /\ img_src img = url
        /\ ImageElement.id i' = ImageElement.id i
        /\ ImageElement.src i' = Some url
        /\ ImageElement.x i' = ImageElement.x i
        /\ ImageElement.y i' = ImageElement.y i
        /\ ImageElement.width i' = ImageElement.width i
        /\ ImageElement.height i' = ImageElement.height i
        /\ ImageElement.locked i' = ImageElement.locked i)
  /\ (ImageElement.src i = None \/ ImageElement.src i = Some "" ->
      nth_error (elements st') n = Some (ImageEl i)).
Proof.
  rewrite handleRemoteData_full; intros Hrun Hn; injection Hrun as <-.
  cbn [elements setElements]; rewrite nth_error_map, Hn; cbn [option_map rehydrate].
  split.
  - intros url Hsrc Hne; rewrite Hsrc, (truthy_string_of url Hne); cbn [or_else].
    eexists; eexists; split; [reflexivity |].
    cbn; repeat split; try reflexivity; exact Hsrc.
  - intros [Hsrc | Hsrc]; rewrite Hsrc; reflexivity.
Qed.

(** [C2] [FullState(E)] replaces the store, whatever it held, with [E] in
    which every image that carries an encoded source has its bitmap rebuilt
    from it: an image of [E] with a source that is not empty stands at the
    same place of the store with a new bitmap whose [src] is that source, its
    id, source, rectangle and lock flag as sent, an image without a source
    (or with the empty one) and a path are taken as they are, and the store
    is as long as [E].  The result does not depend on the store before, and
    applying the message twice leaves the same state as applying it once. *)
Theorem full_state_replaces (E : list CanvasElement) (st : AppState) :
  (exists st',
      handleRemoteData (FullState E) st = Done st'
      /\ elements st' = map rehydrate E
      /\ (forall n i,
             nth_error E n = Some (ImageEl i) ->
             nth_error (elements st') n =
             Some (ImageEl (if truthy_string (ImageElement.src i)
                            then with_image i (newImage (or_else (ImageElement.src i) ""))
                            else i)))
      /\ (forall n p,
             nth_error E n = Some (PathEl p) ->
             nth_error (elements st') n = Some (PathEl p))
      /\ (forall other,
             handleRemoteData (FullState E) (setElements other st) = Done st')
      /\ List.length (elements st') = List.length E
      /\ (forall n i url,
             nth_error E n = Some (ImageEl i) ->
             ImageElement.src i = Some url ->
             url <> "" ->
             exists i' img,
               nth_error (elements st') n = Some (ImageEl i')
               /\ ImageElement.image i' = Some img
               /\ img_src img = url
               /\ ImageElement.id i' = ImageElement.id i
               /\ ImageElement.src i' = Some url
               /\ ImageElement.x i' = ImageElement.x i
               /\ ImageElement.y i' = ImageElement.y i
               /\ ImageElement.width i' = ImageElement.width i
               /\ ImageElement.height i' = ImageElement.height i
               /\ ImageElement.locked i' = ImageElement.locked i)
      /\ (forall n i,
             nth_error E n = Some (ImageEl i) ->
             ImageElement.src i = None \/ ImageElement.src i = Some "" ->
             nth_error (elements st') n = Some (ImageEl i))
      /\ applyAll [FullState E; FullState E] st = Done st')
  /\ exists st2,
      applyAll [FullState E; FullState E] st = Done st2
      /\ elements st2 = map rehydrate E.
Proof.
  split.
  - exists (setElements (map rehydrate E) st).
    pose proof (handleRemoteData_full E st) as Hrun.
    split; [exact Hrun |]; cbn [elements setElements].
    split; [reflexivity |]; split; [| split; [| split; [| split; [| split; [| split]]]]].
    + intros n i Hn; rewrite nth_error_map, Hn; simpl.
      destruct (truthy_string (ImageElement.src i)); reflexivity.
    + intros n p Hn; now rewrite nth_error_map, Hn.
    + intros other; now rewrite handleRemoteData_full.
    + apply length_map.
    + intros n i url Hn Hsrc Hne.
      exact (proj1 (full_state_image E st _ n i Hrun Hn) url Hsrc Hne).
    + intros n i Hn Hsrc.
      exact (proj2 (full_state_image E st _ n i Hrun Hn) Hsrc).
    + reflexivity.
  - eexists; split; [simpl; reflexivity |]; reflexivity.
Qed.

(** A full state of a stroke and a photo sent with its data URL: the photo
    arrives with a bitmap of that URL. *)
Example full_state_rebuilds_photo :
  exists st',
    handleRemoteData (FullState Sample.batch) (Sample.peer pen []) = Done st'
    /\ elements st' =
       [PathEl Sample.stroke;
        ImageEl {| ImageElement.id := "pdf-1700000000002-1";
                   ImageElement.image :=
                     Some {| img_src := "data:image/png;base64,iVBORw0KGgo=" |};
                   ImageElement.src := Some "data:image/png;base64,iVBORw0KGgo=";
                   ImageElement.x := 100;
                   ImageElement.y := 50;
                   ImageElement.width := 200;
                   ImageElement.height := 100;
                   ImageElement.locked := Some false |}].
Proof. eexists; split; reflexivity. Qed.

Lemma filter_absent (id : string) (store : list CanvasElement) :
  hasId id store = false ->
  filter (fun el => negb (elId el =? id)%string) store = store.
Proof.
  unfold hasId; induction store as [| e store IH]; simpl; [reflexivity |].
  intros H; apply orb_false_iff in H; destruct H as [He Hs].
  rewrite He; simpl; f_equal; now apply IH.
Qed.

Lemma map_absent (p : Partial.t) (store : list CanvasElement) :
  hasId (Partial.id p) store = false ->
  map (fun el => if (elId el =? Partial.id p)%string then merge el p else el) store = store.
Proof.
  unfold hasId; induction store as [| e store IH]; simpl; [reflexivity |].
  intros H; apply orb_false_iff in H; destruct H as [He Hs].
  rewrite He; f_equal; now apply IH.
Qed.

Lemma handleRemoteData_unknown (msg : SyncMessage) (st : AppState) :
  ~ In (type msg) knownKinds -> handleRemoteData msg st = Done st.
Proof.
  intros H; unfold handleRemoteData.
  repeat match goal with
         | |- context [String.eqb (type msg) ?k] =>
             destruct (String.eqb_spec (type msg) k) as [E | _];
             [exfalso; apply H; rewrite E; simpl; tauto |]
         end.
  reflexivity.
Qed.

(** [C9] [RemoveElement(id)] and [UpdateElement(id, partial)] for an id that
    no element of the store has, and a message whose kind is none of the
    five, return normally with the application state, and so the store,
    unchanged. *)
Theorem absent_id_or_unknown_kind_is_noop (st : AppState) :
  (forall id,
      hasId id (elements st) = false ->
      handleRemoteData (RemoveElement id) st = Done st)
  /\ (forall p,
         hasId (Partial.id p) (elements st) = false ->
         handleRemoteData (UpdateElement p) st = Done st)
  /\ (forall msg,
         ~ In (type msg) knownKinds ->
         handleRemoteData msg st = Done st).
Proof.
  split; [| split].
  - intros id H; unfold handleRemoteData, RemoveElement; simpl.
    now rewrite filter_absent, setElements_same.
  - intros p H; unfold handleRemoteData, UpdateElement; simpl.
    now rewrite map_absent, setElements_same.
  - intros msg; apply handleRemoteData_unknown.
Qed.

Lemma absent_id_or_unknown_kind_is_noop_witness :
  let st := Sample.peer pen Sample.batch in
  handleRemoteData (RemoveElement "nobody") st = Done st
  /\ handleRemoteData (UpdateElement (lockPatch "nobody" true)) st = Done st
  /\ handleRemoteData {| type := "FOO"; payload := PElements Sample.batch |} st = Done st.
Proof.
  intros st.
  destruct (absent_id_or_unknown_kind_is_noop st) as [Hrm [Hup Hun]].
  split; [apply Hrm; reflexivity |].
  split; [apply Hup; reflexivity |].
  apply Hun; simpl; intuition discriminate.
Defined.

Lemma handleRemoteData_only_store (msg : SyncMessage) (st st' : AppState) :
  handleRemoteData msg st = Done st' -> st' = setElements (elements st') st.
Proof.
  unfold handleRemoteData; intros H.
  repeat match type of H with
         | (if ?c then _ else _) = _ => destruct c
         | match ?x with _ => _ end = _ => destruct x
         end;
    try discriminate; inversion H; subst; clear H;
    rewrite ?setElements_same; reflexivity.
Qed.

(** [C10] Applying a received message sends nothing: whatever the message,
    when [handleRemoteData] returns, the trace of sent messages is the one
    from before, and the store is the only part of the state that can have
    changed.  The same holds over any sequence of received messages. *)
Theorem remote_data_sends_nothing (msgs : list SyncMessage) (st st' : AppState) :
  applyAll msgs st = Done st' ->
  sent st' = sent st /\ st' = setElements (elements st') st.
Proof.
  revert st; induction msgs as [| m msgs IH]; simpl; intros st H.
  - inversion H; subst; now rewrite setElements_same.
  - destruct (handleRemoteData m st) as [st1 | |] eqn:Hm; try discriminate.
    apply handleRemoteData_only_store in Hm.
    destruct (IH _ H) as [Hs Hst]; split.
    + now rewrite Hs, Hm.
    + rewrite Hst at 1; rewrite Hm; reflexivity.
Qed.

Lemma remote_data_sends_nothing_witness :
  let st := Sample.peer pen [] in
  let msgs := [FullState Sample.batch; AddElement (ImageEl Sample.lockedPhoto);
               RemoveElement "1700000000001"; {| type := "FOO"; payload := PUndefined |};
               UpdateElement (lockPatch "pdf-1700000000002-1" true)] in
  exists st', applyAll msgs st = Done st' /\ sent st' = [].
Proof.
  intros st msgs; eexists; split; [reflexivity |].
  eapply (remote_data_sends_nothing msgs st); reflexivity.
Defined.

(** ** The whiteboard *)

Lemma elements_handleSetElements (u : SetStateAction) (a : AppState) :
  elements (handleSetElements u a) =
  match u with
  | Updater f => f (elements a)
  | Value v => v
  end.
Proof. unfold handleSetElements; destruct u; reflexivity. Qed.

Lemma handleMouseUp_idle (now : N) (s : Session) :
  actionRef (wb (handleMouseUp now s)) = none
  /\ currentPathRef (wb (handleMouseUp now s)) = None
  /\ resizeHandleRef (wb (handleMouseUp now s)) = None.
Proof. unfold handleMouseUp; simpl; auto. Qed.

(** [C7] Releasing the pointer while drawing appends the open path as a new
    path element, its stroke width divided by the zoom scale of that moment,
    exactly when the path has two points or more, and leaves the store as it
    was otherwise; whatever the state, releasing the pointer or leaving the
    canvas, which is bound to the same handler, ends in the idle action with
    no open path. *)
Theorem pointer_up_commits_open_path (now : N) (s : Session) (p : Path.t) :
  actionRef (wb s) = drawing ->
  currentPathRef (wb s) = Some p ->
  ((2 <= List.length (Path.points p))%nat ->
   elements (app (handleMouseUp now s)) =
   elements (app s) ++
   [PathEl {| PathElement.id := Date_now_toString now;
              PathElement.path :=
                {| Path.points := Path.points p;
                   Path.color := Path.color p;
                   Path.lineWidth := Path.lineWidth p / scale (viewTransform (wb s));
                   Path.tool := Path.tool p |} |}])
  /\ ((List.length (Path.points p) < 2)%nat ->
      elements (app (handleMouseUp now s)) = elements (app s))
  /\ (forall (t : N) (s0 : Session),
         actionRef (wb (handleMouseUp t s0)) = none
         /\ currentPathRef (wb (handleMouseUp t s0)) = None
         /\ onMouseLeave t s0 = handleMouseUp t s0
         /\ actionRef (wb (onMouseLeave t s0)) = none).
Proof.
  intros Ha Hp; split; [| split].
  - intros Hlen; unfold handleMouseUp; rewrite Ha, Hp.
    assert (H : (1 <? List.length (Path.points p))%nat = true)
      by (apply Nat.ltb_lt; lia).
    rewrite H; cbn [app with_app with_wb]; now rewrite elements_handleSetElements.
  - intros Hlen; unfold handleMouseUp; rewrite Ha, Hp.
    assert (H : (1 <? List.length (Path.points p))%nat = false)
      by (apply Nat.ltb_ge; lia).
    rewrite H; reflexivity.
  - intros t s0; unfold onMouseLeave.
    destruct (handleMouseUp_idle t s0) as [H1 [H2 _]]; auto.
Qed.

Lemma nth_error_movingUpdate (sel : option string) (dx dy : Q)
      (store : list CanvasElement) (n : nat) (i : ImageElement.t) :
  nth_error store n = Some (ImageEl i) ->
  truthy_bool (ImageElement.locked i) = true ->
  nth_error (movingUpdate sel dx dy store) n = Some (ImageEl i).
Proof.
  intros Hn Hl; unfold movingUpdate; rewrite nth_error_map, Hn; simpl.
  rewrite Hl; now destruct (is_selected sel (ImageElement.id i)).
Qed.

Lemma nth_error_resizingUpdate (sel : option string) (h : option ResizeHandle)
      (point : Point.t) (store : list CanvasElement) (n : nat) (i : ImageElement.t) :
  nth_error store n = Some (ImageEl i) ->
  truthy_bool (ImageElement.locked i) = true ->
  nth_error (resizingUpdate sel h point store) n = Some (ImageEl i).
Proof.
  intros Hn Hl; unfold resizingUpdate; rewrite nth_error_map, Hn; simpl.
  rewrite Hl; now destruct (is_selected sel (ImageElement.id i)).
Qed.

(** What a pointer move does to the store: nothing, or the update of the
    action in progress. *)
Lemma handleMouseMove_elements (e : MouseEvent) (s : Session) :
  let point := eventPoint s (clientX e) (clientY e) in
  elements (app (handleMouseMove e s)) = elements (app s)
  \/ (actionRef (wb s) = moving
      /\ elements (app (handleMouseMove e s)) =
         movingUpdate (selectedElementId (wb s))
                      (Point.x point - Point.x (moveStartRef (wb s)))
                      (Point.y point - Point.y (moveStartRef (wb s)))
                      (elements (app s)))
  \/ (actionRef (wb s) = resizing
      /\ elements (app (handleMouseMove e s)) =
         resizingUpdate (selectedElementId (wb s)) (resizeHandleRef (wb s)) point
                        (elements (app s))).
Proof.
  intros point; unfold handleMouseMove.
  destruct (Tool_eqb (tool (app s)) stroke_eraser); [now left |].
  destruct (Tool_eqb (tool (app s)) select && _); [now left |].
  cbn [wb with_wb actionRef set_cursor].
  destruct (actionRef (wb s)) eqn:Ha.
  - now left.
  - left; cbn [wb with_wb currentPathRef set_cursor].
    now destruct (currentPathRef (wb s)).
  - now left.
  - right; right; split; [reflexivity |].
    cbn [app with_app with_wb]; now rewrite elements_handleSetElements.
  - right; left; split; [reflexivity |].
    cbn [app with_app with_wb]; now rewrite elements_handleSetElements.
Qed.

Lemma handleMouseMove_keeps_locked (e : MouseEvent) (s : Session)
      (n : nat) (i : ImageElement.t) :
  nth_error (elements (app s)) n = Some (ImageEl i) ->
  truthy_bool (ImageElement.locked i) = true ->
  nth_error (elements (app (handleMouseMove e s))) n = Some (ImageEl i).
Proof.
  intros Hn Hl.
  destruct (handleMouseMove_elements e s) as [H | [[_ H] | [_ H]]]; rewrite H.
  - exact Hn.
  - now apply nth_error_movingUpdate.
  - now apply nth_error_resizingUpdate.
Qed.

Lemma onTouchMove_app (t : Touch) (s : Session) : app (onTouchMove t s) = app s.
Proof.
  unfold onTouchMove.
  destruct (actionRef (wb s)); try reflexivity.
  destruct (currentPathRef (wb s)); reflexivity.
Qed.

Lemma moves_keep_locked (evs : list Event) (s : Session)
      (n : nat) (i : ImageElement.t) :
  Forall isPointerMove evs ->
  nth_error (elements (app s)) n = Some (ImageEl i) ->
  truthy_bool (ImageElement.locked i) = true ->
  nth_error (elements (app (run evs s))) n = Some (ImageEl i).
Proof.
  intros Hmv; revert s; induction Hmv as [| ev evs Hev _ IH]; intros s Hn Hl; simpl;
    [exact Hn |].
  apply IH; [| exact Hl].
  destruct ev; try contradiction; cbn [handle].
  - now apply handleMouseMove_keeps_locked.
  - now rewrite onTouchMove_app.
Qed.

(** [C3] A locked image is left as it is, position and size included, by any
    sequence of pointer moves, whatever the action in progress and also when
    [moving] or [resizing] is in progress with that image selected: the
    updates of both actions test the lock flag of the element at each step
    and return a locked element itself. *)
Theorem locked_image_never_moves (evs : list Event) (s : Session)
        (n : nat) (i : ImageElement.t) :
  Forall isPointerMove evs ->
  nth_error (elements (app s)) n = Some (ImageEl i) ->
  ImageElement.locked i = Some true ->
  nth_error (elements (app (run evs s))) n = Some (ImageEl i)
  /\ (forall sel dx dy,
         nth_error (movingUpdate sel dx dy (elements (app s))) n = Some (ImageEl i))
  /\ (forall sel h point,
         nth_error (resizingUpdate sel h point (elements (app s))) n = Some (ImageEl i)).
Proof.
  intros Hmv Hn Hl.
  assert (Ht : truthy_bool (ImageElement.locked i) = true) by now rewrite Hl.
  split; [now apply moves_keep_locked |]; split; intros.
  - now apply nth_error_movingUpdate.
  - now apply nth_error_resizingUpdate.
Qed.

Lemma pointer_up_commits_open_path_witness :
  let s := {| app := Sample.peer pen []; wb := Sample.drawingBoard |} in
  elements (app (handleMouseUp 1700000000003 s)) =
  [PathEl {| PathElement.id := "1700000000003";
             PathElement.path :=
               {| Path.points := Path.points Sample.openPath;
                  Path.color := "#EF4444";
                  Path.lineWidth := 4 / 2;
                  Path.tool := pen |} |}].
Proof.
  intros s.
  destruct (pointer_up_commits_open_path 1700000000003 s Sample.openPath
              eq_refl eq_refl) as [Hcommit _].
  apply Hcommit; simpl; lia.
Defined.

Lemma locked_image_never_moves_witness :
  let s := {| app := Sample.peer select [PathEl Sample.stroke; ImageEl Sample.lockedPhoto];
              wb := Sample.board moving (Some (ImageElement.id Sample.lockedPhoto)) |} in
  let evs := [MouseMove (Sample.click 150 80);
              TouchMove {| touchX := 160; touchY := 90 |};
              MouseMove (Sample.click 400 300)] in
  nth_error (elements (app (run evs s))) 1 = Some (ImageEl Sample.lockedPhoto).
Proof.
  intros s evs.
  apply (locked_image_never_moves evs s 1 Sample.lockedPhoto);
    [repeat constructor | reflexivity | reflexivity].
Defined.

(** ** Resizing *)

Lemma Qlt_bool_iff (a b : Q) : Qlt_bool a b = true <-> a < b.
Proof.
  unfold Qlt_bool; rewrite negb_true_iff; split; intros H.
  - apply Qnot_le_lt; intros Hle; apply Qle_bool_iff in Hle; congruence.
  - destruct (Qle_bool b a) eqn:E; [| reflexivity].
    apply Qle_bool_iff in E; exfalso; now apply (Qlt_not_le a b).
Qed.

Lemma Qlt_bool_false (a b : Q) : Qlt_bool a b = false <-> b <= a.
Proof.
  unfold Qlt_bool; rewrite negb_false_iff; apply Qle_bool_iff.
Qed.

Lemma div_mul_cancel (a ar : Q) : ~ ar == 0 -> a / ar * ar == a.
Proof. intros H; field; exact H. Qed.

Lemma div_pos (a ar : Q) : 0 < a -> 0 < ar -> 0 < a / ar.
Proof.
  intros Ha Har; apply Qlt_shift_div_l; [exact Har | now rewrite Qmult_0_l].
Qed.

(** The width and height that [constrain] returns are in the ratio [ar], the
    width is at least [minSize] and the height is positive. *)
Lemma constrain_spec (minSize ar w h : Q) :
  0 < minSize -> 0 < ar ->
  fst (constrain minSize ar w h) == snd (constrain minSize ar w h) * ar
  /\ minSize <= fst (constrain minSize ar w h)
  /\ 0 < snd (constrain minSize ar w h).
Proof.
  intros Hm Har; unfold constrain.
  assert (Hne : ~ ar == 0) by (intros E; rewrite E in Har; discriminate).
  set (w1 := if Qlt_bool w minSize then minSize else w).
  set (h1 := if Qlt_bool h (minSize / ar) then minSize / ar else h).
  assert (Hw1 : minSize <= w1).
  { subst w1; destruct (Qlt_bool w minSize) eqn:E;
      [apply Qle_refl | now apply Qlt_bool_false in E]. }
  assert (Hh1 : minSize / ar <= h1).
  { subst h1; destruct (Qlt_bool h (minSize / ar)) eqn:E;
      [apply Qle_refl | now apply Qlt_bool_false in E]. }
  assert (Hd : 0 < minSize / ar) by now apply div_pos.
  destruct (Qlt_bool ar (w1 / h1)); simpl.
  - split; [now rewrite div_mul_cancel |].
    split; [exact Hw1 |].
    apply div_pos; [apply Qlt_le_trans with minSize |]; assumption.
  - split; [reflexivity |]; split.
    + rewrite <- (div_mul_cancel minSize ar Hne).
      apply Qmult_le_compat_r; [exact Hh1 | now apply Qlt_le_weak].
    + now apply Qlt_le_trans with (minSize / ar).
Qed.

Lemma resizeImage_size (h : ResizeHandle) (point : Point.t) (el : ImageElement.t) :
  let anchor := corner (opposite h) el in
  let c := constrain 20 (ImageElement.width el / ImageElement.height el)
                     (dragWidth h anchor point) (dragHeight h anchor point) in
  ImageElement.width (resizeImage (Some h) point el) = fst c
  /\ ImageElement.height (resizeImage (Some h) point el) = snd c.
Proof.
  destruct h; unfold resizeImage; simpl;
    match goal with
    | |- context [constrain ?m ?a ?w ?h] => destruct (constrain m a w h)
    end; split; reflexivity.
Qed.

Lemma resizeImage_anchor (h : ResizeHandle) (point : Point.t) (el : ImageElement.t) :
  samePoint (corner (opposite h) (resizeImage (Some h) point el))
            (corner (opposite h) el).
Proof.
  destruct h; unfold resizeImage, samePoint; simpl;
    match goal with
    | |- context [constrain ?m ?a ?w ?h] => destruct (constrain m a w h)
    end; simpl; split; ring.
Qed.

Lemma resizeImage_ratio (h : ResizeHandle) (point : Point.t) (el : ImageElement.t) :
  0 < ImageElement.width el -> 0 < ImageElement.height el ->
  let el' := resizeImage (Some h) point el in
  ImageElement.width el' / ImageElement.height el'
  == ImageElement.width el / ImageElement.height el
  /\ 20 <= ImageElement.width el'
  /\ 0 < ImageElement.height el'.
Proof.
  intros Hw Hh el'.
  destruct (resizeImage_size h point el) as [HW HH].
  fold el' in HW, HH; rewrite HW, HH.
  match goal with
  | |- context [constrain ?m ?a ?w ?h] =>
      destruct (constrain_spec m a w h) as [Hr [Hmin Hpos]];
        [reflexivity | now apply div_pos |];
        set (c := constrain m a w h) in *
  end.
  split; [| split; assumption].
  rewrite Hr; field.
  split; intros E; [rewrite E in Hh | rewrite E in Hpos]; discriminate.
Qed.

Lemma resizeImage_keeps (h : option ResizeHandle) (point : Point.t) (el : ImageElement.t) :
  ImageElement.id (resizeImage h point el) = ImageElement.id el
  /\ ImageElement.image (resizeImage h point el) = ImageElement.image el
  /\ ImageElement.src (resizeImage h point el) = ImageElement.src el
  /\ ImageElement.locked (resizeImage h point el) = ImageElement.locked el.
Proof.
  destruct h as [[] |]; unfold resizeImage; cbv zeta;
    try match goal with
        | |- context [constrain ?m ?a ?w ?h] => destruct (constrain m a w h)
        end; repeat split.
Qed.

(** The store of a pointer move that meets [resizing]: the [switch] is
    reached when the tool is not the stroke eraser and, with the select tool,
    the pointer is not on the lock control of the selected image. *)
Lemma handleMouseMove_resizing (e : MouseEvent) (s : Session) :
  actionRef (wb s) = resizing ->
  tool (app s) <> stroke_eraser ->
  (tool (app s) = select ->
   forall sel,
     selectedImage s = Some sel ->
     isPointInLockButton (viewTransform (wb s)) (eventPoint s (clientX e) (clientY e)) sel
     = false) ->
  elements (app (handleMouseMove e s)) =
  resizingUpdate (selectedElementId (wb s)) (resizeHandleRef (wb s))
                 (eventPoint s (clientX e) (clientY e)) (elements (app s)).
Proof.
  intros Ha Ht Hlock; unfold handleMouseMove.
  destruct (Tool_eqb (tool (app s)) stroke_eraser) eqn:Hse.
  { destruct (tool (app s)); try discriminate Hse; now contradiction Ht. }
  assert (Hgate : Tool_eqb (tool (app s)) select
                  && match selectedImage s with
                     | Some sel =>
                         isPointInLockButton (viewTransform (wb s))
                                             (eventPoint s (clientX e) (clientY e)) sel
                     | None => false
                     end = false).
  { destruct (Tool_eqb (tool (app s)) select) eqn:Hsel; [| reflexivity].
    assert (Hts : tool (app s) = select)
      by (destruct (tool (app s)); try discriminate Hsel; reflexivity).
    destruct (selectedImage s) as [sel |] eqn:E; [| reflexivity].
    exact (Hlock Hts sel eq_refl). }
  rewrite Hgate; cbv zeta; cbn [wb with_wb actionRef set_cursor]; rewrite Ha.
  cbn [app with_app with_wb wb set_cursor selectedElementId resizeHandleRef].
  now rewrite elements_handleSetElements.
Qed.

(** A pointer move that does not reach the [switch] changes the cursor
    alone. *)
Lemma handleMouseMove_returns_early (e : MouseEvent) (s : Session) :
  tool (app s) = stroke_eraser
  \/ (tool (app s) = select
      /\ exists sel,
          selectedImage s = Some sel
          /\ isPointInLockButton (viewTransform (wb s))
                                 (eventPoint s (clientX e) (clientY e)) sel = true) ->
  app (handleMouseMove e s) = app s.
Proof.
  intros [Ht | [Ht [sel [Hsel Hlock]]]]; unfold handleMouseMove; rewrite Ht; cbn [Tool_eqb].
  - reflexivity.
  - rewrite Hsel, Hlock; reflexivity.
Qed.

(** A pointer move while [resizing] sets the cursor and, where it reaches the
    [switch], updates the store. *)
Lemma handleMouseMove_resizing_shape (e : MouseEvent) (s : Session) :
  actionRef (wb s) = resizing ->
  (exists c, handleMouseMove e s = with_wb (set_cursor c) s)
  \/ (exists c,
         handleMouseMove e s =
         with_app
           (handleSetElements
              (Updater (resizingUpdate (selectedElementId (wb s)) (resizeHandleRef (wb s))
                                       (eventPoint s (clientX e) (clientY e)))))
           (with_wb (set_cursor c) s)).
Proof.
  intros Ha; unfold handleMouseMove.
  destruct (Tool_eqb (tool (app s)) stroke_eraser); [left; eexists; reflexivity |].
  destruct (Tool_eqb (tool (app s)) select && _); [left; eexists; reflexivity |].
  cbn [wb with_wb actionRef set_cursor]; rewrite Ha.
  right; eexists; reflexivity.
Qed.

Lemma samePoint_trans (p q r : Point.t) : samePoint p q -> samePoint q r -> samePoint p r.
Proof.
  intros [Hx Hy] [Hx' Hy']; split; [now rewrite Hx | now rewrite Hy].
Qed.

(** Over the pointer moves of a drag of the handle [h], the corner opposite
    [h] and the ratio of an image of positive width and height stay. *)
Lemma resizing_drag (h : ResizeHandle) (moves : list MouseEvent) :
  forall (s : Session) (n : nat) (el : ImageElement.t),
    actionRef (wb s) = resizing ->
    resizeHandleRef (wb s) = Some h ->
    nth_error (elements (app s)) n = Some (ImageEl el) ->
    0 < ImageElement.width el ->
    0 < ImageElement.height el ->
    exists el',
      nth_error (elements (app (run (map MouseMove moves) s))) n = Some (ImageEl el')
      /\ samePoint (corner (opposite h) el') (corner (opposite h) el)
      /\ ImageElement.width el' / ImageElement.height el'
         == ImageElement.width el / ImageElement.height el
      /\ 0 < ImageElement.width el'
      /\ 0 < ImageElement.height el'
      /\ ImageElement.id el' = ImageElement.id el
      /\ ImageElement.locked el' = ImageElement.locked el.
Proof.
  induction moves as [| e moves IH]; intros s n el Ha Hh Hn Hw Hht.
  - exists el; split; [exact Hn |].
    split; [split; reflexivity |]; split; [reflexivity |]; repeat split; assumption.
  - unfold run; cbn [map fold_left handle]; fold (run (map MouseMove moves) (handleMouseMove e s)).
    destruct (handleMouseMove_resizing_shape e s Ha) as [[c Hs1] | [c Hs1]]; rewrite Hs1.
    + now apply IH.
    + set (point := eventPoint s (clientX e) (clientY e)) in *.
      match goal with
      | |- context [run _ ?t] => set (s1 := t)
      end.
      assert (Ha1 : actionRef (wb s1) = resizing) by exact Ha.
      assert (Hh1 : resizeHandleRef (wb s1) = Some h) by exact Hh.
      assert (Hn1 : nth_error (elements (app s1)) n = Some (ImageEl el)
                    \/ nth_error (elements (app s1)) n
                       = Some (ImageEl (resizeImage (Some h) point el))).
      { unfold s1; cbn [app with_app with_wb]; rewrite elements_handleSetElements.
        unfold resizingUpdate; rewrite nth_error_map, Hn, Hh; cbn [option_map].
        destruct (is_selected _ _); [| now left].
        destruct (truthy_bool _); [now left | now right]. }
      destruct Hn1 as [Hn1 | Hn1]; [exact (IH s1 n el Ha1 Hh1 Hn1 Hw Hht) |].
      destruct (resizeImage_ratio h point el Hw Hht) as [Hr [Hmin Hpos]].
      destruct (resizeImage_keeps (Some h) point el) as [Hid [_ [_ Hlk]]].
      assert (Hw1 : 0 < ImageElement.width (resizeImage (Some h) point el))
        by (eapply Qlt_le_trans; [| exact Hmin]; reflexivity).
      destruct (IH s1 n (resizeImage (Some h) point el) Ha1 Hh1 Hn1 Hw1 Hpos)
        as [el' [Hel' [Hc [Hr' [Hw' [Hh' [Hid' Hlk']]]]]]].
      exists el'; split; [exact Hel' |].
      split; [eapply samePoint_trans; [exact Hc | apply resizeImage_anchor] |].
      split; [now rewrite Hr' |].
      repeat split; try assumption; congruence.
Qed.

(** [C4] For an image of positive width and height, a resize from the handle
    [h] takes its candidate width and height from the pointer and the corner
    opposite [h], with the subtraction turned the way of that handle, and
    fits them with [constrain]; the corner opposite [h] of the resulting
    rectangle is the one of the rectangle before; the ratio of width to
    height is kept, the width is at least 20 and the height positive; id,
    bitmap, source and lock flag are kept.  A pointer move while [resizing]
    with the handle [h] replaces the image by that resize, taken at the point
    of the document under the pointer, when the image is the selected one and
    is not locked, the tool is not the stroke eraser and, with the select
    tool, the pointer is not on the lock control of the selected image; in
    every other case the move leaves the image as it is.  Over all the moves
    of a drag of the handle [h] the image keeps the corner opposite [h] and
    its ratio. *)
Theorem resize_keeps_opposite_corner_and_ratio
        (h : ResizeHandle) (point : Point.t) (el : ImageElement.t) :
  0 < ImageElement.width el ->
  0 < ImageElement.height el ->
  let el' := resizeImage (Some h) point el in
  let anchor := corner (opposite h) el in
  let c := constrain 20 (ImageElement.width el / ImageElement.height el)
                     (dragWidth h anchor point) (dragHeight h anchor point) in
  samePoint (corner (opposite h) el') anchor
  /\ (ImageElement.width el' = fst c /\ ImageElement.height el' = snd c)
  /\ (ImageElement.width el' / ImageElement.height el'
      == ImageElement.width el / ImageElement.height el
      /\ 20 <= ImageElement.width el'
      /\ 0 < ImageElement.height el')
  /\ (ImageElement.id el' = ImageElement.id el
      /\ ImageElement.image el' = ImageElement.image el
      /\ ImageElement.src el' = ImageElement.src el
      /\ ImageElement.locked el' = ImageElement.locked el)
  /\ (forall (e : MouseEvent) (s : Session) (n : nat),
         actionRef (wb s) = resizing ->
         resizeHandleRef (wb s) = Some h ->
         nth_error (elements (app s)) n = Some (ImageEl el) ->
         let after := nth_error (elements (app (handleMouseMove e s))) n in
         let onLockControl :=
           tool (app s) = select
           /\ exists sel,
               selectedImage s = Some sel
               /\ isPointInLockButton (viewTransform (wb s))
                                      (eventPoint s (clientX e) (clientY e)) sel = true in
         (tool (app s) <> stroke_eraser ->
          ~ onLockControl ->
          selectedElementId (wb s) = Some (ImageElement.id el) ->
          ImageElement.locked el <> Some true ->
          after = Some (ImageEl (resizeImage (Some h)
                                             (eventPoint s (clientX e) (clientY e)) el)))
         /\ (tool (app s) = stroke_eraser
             \/ onLockControl
             \/ selectedElementId (wb s) <> Some (ImageElement.id el)
             \/ ImageElement.locked el = Some true ->
             after = Some (ImageEl el)))
  /\ (forall (moves : list MouseEvent) (s : Session) (n : nat),
         actionRef (wb s) = resizing ->
         resizeHandleRef (wb s) = Some h ->
         nth_error (elements (app s)) n = Some (ImageEl el) ->
         exists last,
           nth_error (elements (app (run (map MouseMove moves) s))) n
           = Some (ImageEl last)
           /\ samePoint (corner (opposite h) last) anchor
           /\ ImageElement.width last / ImageElement.height last
              == ImageElement.width el / ImageElement.height el
           /\ 0 < ImageElement.width last
           /\ 0 < ImageElement.height last).
Proof.
  intros Hw Hh el' anchor c.
  split; [apply resizeImage_anchor |].
  split; [apply resizeImage_size |].
  split; [now apply resizeImage_ratio |].
  split; [apply resizeImage_keeps |].
  split;
    [| intros moves s n Ha Hhandle Hn;
       destruct (resizing_drag h moves s n el Ha Hhandle Hn Hw Hh)
         as [last [Hlast [Hc [Hr [Hw' [Hh' _]]]]]];
       exists last; repeat split; try assumption; apply Hc].
  intros e s n Ha Hhandle Hn after onLockControl.
  assert (Hstep :
            tool (app s) <> stroke_eraser -> ~ onLockControl ->
            after =
            Some (if is_selected (selectedElementId (wb s)) (ImageElement.id el)
                  then if truthy_bool (ImageElement.locked el) then ImageEl el
                       else ImageEl (resizeImage (Some h)
                                                 (eventPoint s (clientX e) (clientY e)) el)
                  else ImageEl el)).
  { intros Ht Hoff; unfold after.
    rewrite (handleMouseMove_resizing e s Ha Ht).
    - unfold resizingUpdate; rewrite nth_error_map, Hn, Hhandle; cbn [option_map].
      destruct (is_selected _ _); [| reflexivity].
      destruct (truthy_bool _); reflexivity.
    - intros Hsel sel Hs.
      destruct (isPointInLockButton _ _ sel) eqn:Hlock; [| reflexivity].
      exfalso; apply Hoff; split; [exact Hsel |]; now exists sel. }
  split.
  - intros Ht Hoff Hsel Hunlocked; rewrite (Hstep Ht Hoff), Hsel.
    cbn [is_selected]; rewrite String.eqb_refl.
    destruct (ImageElement.locked el) as [[|] |]; cbn [truthy_bool];
      [now contradiction Hunlocked | reflexivity | reflexivity].
  - intros Hcase.
    assert (Hearly : tool (app s) = stroke_eraser \/ onLockControl ->
                     after = Some (ImageEl el)).
    { intros H; unfold after; now rewrite (handleMouseMove_returns_early e s H). }
    destruct (Tool_eqb (tool (app s)) stroke_eraser) eqn:Hse.
    { apply Hearly; left; destruct (tool (app s)); try discriminate Hse; reflexivity. }
    assert (Ht : tool (app s) <> stroke_eraser)
      by (intros E; rewrite E in Hse; discriminate Hse).
    assert (Hdec : onLockControl \/ ~ onLockControl).
    { unfold onLockControl.
      destruct (Tool_eqb (tool (app s)) select) eqn:Hsel.
      - assert (Hts : tool (app s) = select)
          by (destruct (tool (app s)); try discriminate Hsel; reflexivity).
        destruct (selectedImage s) as [sel |] eqn:E.
        + destruct (isPointInLockButton (viewTransform (wb s))
                                        (eventPoint s (clientX e) (clientY e)) sel) eqn:Hl.
          * left; split; [exact Hts |]; now exists sel.
          * right; intros [_ [sel' [E' Hl']]]; injection E' as <-; congruence.
        + right; intros [_ [sel' [E' _]]]; discriminate E'.
      - right; intros [Hts _]; rewrite Hts in Hsel; discriminate Hsel. }
    destruct Hdec as [Hon | Hoff]; [apply Hearly; now right |].
    rewrite (Hstep Ht Hoff).
    destruct Hcase as [Hc | [Hc | [Hc | Hc]]];
      [now contradiction Ht | now contradiction Hoff | |].
    + destruct (is_selected (selectedElementId (wb s)) (ImageElement.id el)) eqn:Hs;
        [| reflexivity].
      exfalso; apply Hc; unfold is_selected in Hs.
      destruct (selectedElementId (wb s)) as [sid |]; [| discriminate Hs].
      apply String.eqb_eq in Hs; now rewrite Hs.
    + rewrite Hc; cbn [truthy_bool]; now destruct (is_selected _ _).
Qed.

Lemma resize_keeps_opposite_corner_and_ratio_witness :
  let el' := resizeImage (Some bottom_right) {| Point.x := 400; Point.y := 300 |}
                         Sample.photo in
  let s := {| app := Sample.peer select [PathEl Sample.stroke; ImageEl Sample.photo];
              wb := set_resizeHandleRef
                      (Some bottom_right)
                      (Sample.board resizing (Some (ImageElement.id Sample.photo))) |} in
  (0 < ImageElement.width Sample.photo /\ 0 < ImageElement.height Sample.photo)
  /\ ImageElement.width el' / ImageElement.height el' == 200 / 100
  /\ 20 <= ImageElement.width el'
  /\ nth_error (elements (app (handleMouseMove (Sample.click 400 300) s))) 1
     = Some (ImageEl el').
Proof.
  intros el' s.
  assert (Hw : 0 < ImageElement.width Sample.photo) by reflexivity.
  assert (Hh : 0 < ImageElement.height Sample.photo) by reflexivity.
  destruct (resize_keeps_opposite_corner_and_ratio
              bottom_right {| Point.x := 400; Point.y := 300 |} Sample.photo Hw Hh)
    as [_ [_ [[Hr [Hmin _]] [_ [Hstep _]]]]].
  split; [split; assumption |].
  split; [exact Hr |]; split; [exact Hmin |].
  destruct (Hstep (Sample.click 400 300) s 1%nat eq_refl eq_refl eq_refl) as [Hresized _].
  rewrite Hresized.
  - vm_compute; reflexivity.
  - discriminate.
  - intros [_ [sel [Hsel Hlock]]]; vm_compute in Hsel; injection Hsel as <-.
    vm_compute in Hlock; discriminate Hlock.
  - reflexivity.
  - discriminate.
Defined.

(** ** Hit-testing of paths *)

Lemma sqrt_lt_iff (s t : R) :
  (0 <= s)%R -> (sqrt s < t)%R <-> (0 < t /\ s < t * t)%R.
Proof.
  intros Hs; split.
  - intros H; pose proof (sqrt_pos s) as Hp.
    split; [lra |].
    rewrite <- (sqrt_sqrt s Hs) at 1; nra.
  - intros [Ht Hlt].
    rewrite <- (sqrt_square t) by lra.
    apply sqrt_lt_1; nra.
Qed.

(** The comparison on squares is the comparison of [Math.hypot] with the
    threshold. *)
Lemma hypot_lt_sqrt (a b t : Q) :
  hypot_lt a b t = true
  <-> (sqrt (Q2R a * Q2R a + Q2R b * Q2R b) < Q2R t)%R.
Proof.
  unfold hypot_lt; rewrite andb_true_iff, !Qlt_bool_iff, sqrt_lt_iff by nra.
  rewrite <- !Q2R_mult, <- Q2R_plus.
  replace 0%R with (Q2R 0) by (unfold Q2R; simpl; lra).
  split; intros [H1 H2]; split;
    solve [now apply Qlt_Rlt | now apply Rlt_Qlt].
Qed.

Lemma hypot_lt_distance (point c : Point.t) (t : Q) :
  hypot_lt (Point.x point - Point.x c) (Point.y point - Point.y c) t = true
  <-> (distance point c < Q2R t)%R.
Proof.
  rewrite hypot_lt_sqrt; unfold distance; now rewrite !Q2R_minus.
Qed.

(** One turn of the inner loop: the test of the pair, then the pairs that
    follow. *)
Lemma pathSegments_loop_cons (point : Point.t) (t : Q) (p1 p2 : Point.t)
      (rest : list Point.t) :
  pathSegments_loop point t (p1 :: p2 :: rest) =
  hypot_lt (Point.x point - Point.x (clampedProjection point p1 p2))
           (Point.y point - Point.y (clampedProjection point p1 p2)) t
  || pathSegments_loop point t (p2 :: rest).
Proof.
  unfold clampedProjection; cbn [pathSegments_loop].
  destruct (Qeq_bool _ 0); cbn [along Point.x Point.y];
    match goal with
    | |- (if ?c then _ else _) = _ => destruct c; reflexivity
    end.
Qed.

Lemma pathSegments_loop_iff (point : Point.t) (t : Q) (points : list Point.t) :
  pathSegments_loop point t points = true
  <-> exists (j : nat) (p1 p2 : Point.t),
      nth_error points j = Some p1
      /\ nth_error points (S j) = Some p2
      /\ (distance point (clampedProjection point p1 p2) < Q2R t)%R.
Proof.
  induction points as [| p1 points IH].
  - split; [discriminate | intros [j [? [? [H _]]]]; destruct j; discriminate].
  - destruct points as [| p2 rest].
    + split; [discriminate |].
      intros [j [? [? [_ [H _]]]]]; destruct j; discriminate.
    + rewrite pathSegments_loop_cons, orb_true_iff, IH, hypot_lt_distance.
      split.
      * intros [H | [j [q1 [q2 [H1 [H2 H3]]]]]].
        -- exists 0%nat, p1, p2; auto.
        -- exists (S j), q1, q2; auto.
      * intros [[| j] [q1 [q2 [H1 [H2 H3]]]]].
        -- left; simpl in H1, H2; congruence.
        -- right; exists j, q1, q2; auto.
Qed.

Lemma pathSegments_loop_pathHit (vt : ViewTransform) (point : Point.t)
      (pe : PathElement.t) :
  pathSegments_loop point
    ((Path.lineWidth (PathElement.path pe) / 2 + 5) / scale vt)
    (Path.points (PathElement.path pe)) = true
  <-> pathHit vt point pe.
Proof. apply pathSegments_loop_iff. Qed.

(** The outer loop, from the top of the stack down: the path it returns is
    hit and no path above it is. *)
Lemma getPathAtPoint_loop_Some (vt : ViewTransform) (point : Point.t)
      (topDown : list CanvasElement) (pe : PathElement.t) :
  getPathAtPoint_loop vt point topDown = Some pe
  <-> exists over under,
      topDown = over ++ PathEl pe :: under
      /\ pathHit vt point pe
      /\ forall pe', In (PathEl pe') over -> ~ pathHit vt point pe'.
Proof.
  induction topDown as [| el topDown IH]; cbn [getPathAtPoint_loop].
  - split; [discriminate | intros [[| ? ?] [? [H _]]]; discriminate].
  - destruct el as [q | i].
    + destruct (pathSegments_loop _ _ _) eqn:Hq.
      * apply pathSegments_loop_pathHit in Hq; split.
        -- intros H; inversion H; subst; exists [], topDown; simpl; tauto.
        -- intros [[| el over] [under [Heq [Hhit Hno]]]]; simpl in Heq.
           ++ congruence.
           ++ inversion Heq; subst; exfalso; apply (Hno q); [now left | exact Hq].
      * assert (Hnq : ~ pathHit vt point q).
        { intros H; apply pathSegments_loop_pathHit in H; congruence. }
        rewrite IH; split.
        -- intros [over [under [Heq [Hhit Hno]]]]; subst.
           exists (PathEl q :: over), under; split; [reflexivity |].
           split; [exact Hhit |].
           intros pe' [E | Hin]; [inversion E; subst; exact Hnq | now apply Hno].
        -- intros [[| el over] [under [Heq [Hhit Hno]]]]; simpl in Heq.
           ++ inversion Heq; subst; contradiction.
           ++ inversion Heq; subst; exists over, under; split; [reflexivity |].
              split; [exact Hhit |]; intros pe' Hin; apply Hno; now right.
    + rewrite IH; split.
      * intros [over [under [Heq [Hhit Hno]]]]; subst.
        exists (ImageEl i :: over), under; split; [reflexivity |].
        split; [exact Hhit |].
        intros pe' [E | Hin]; [discriminate | now apply Hno].
      * intros [[| el over] [under [Heq [Hhit Hno]]]]; simpl in Heq.
        -- discriminate.
        -- inversion Heq; subst; exists over, under; split; [reflexivity |].
           split; [exact Hhit |]; intros pe' Hin; apply Hno; now right.
Qed.

Lemma getPathAtPoint_loop_None (vt : ViewTransform) (point : Point.t)
      (topDown : list CanvasElement) :
  getPathAtPoint_loop vt point topDown = None
  <-> forall pe, In (PathEl pe) topDown -> ~ pathHit vt point pe.
Proof.
  induction topDown as [| el topDown IH]; cbn [getPathAtPoint_loop].
  - split; [intros _ pe [] | reflexivity].
  - destruct el as [q | i].
    + destruct (pathSegments_loop _ _ _) eqn:Hq.
      * apply pathSegments_loop_pathHit in Hq; split; [discriminate |].
        intros H; exfalso; apply (H q); [now left | exact Hq].
      * rewrite IH; split.
        -- intros H pe [E | Hin]; [| now apply H].
           inversion E; subst; intros Hhit.
           apply pathSegments_loop_pathHit in Hhit; congruence.
        -- intros H pe Hin; apply H; now right.
    + rewrite IH; split.
      * intros H pe [E | Hin]; [discriminate | now apply H].
      * intros H pe Hin; apply H; now right.
Qed.

(** [C5] [getPathAtPoint] returns a path exactly when that path is hit, some
    pair of consecutive points of it spanning a segment whose distance to the
    probe, at the clamped projection, is strictly less than
    [(strokeWidth / 2 + 5) / scale], and no path later in the store, which is
    above it, is hit; it returns nothing exactly when no path of the store is
    hit. *)
Theorem path_hit_test_topmost (vt : ViewTransform) (store : list CanvasElement)
        (point : Point.t) :
  (forall pe,
      getPathAtPoint vt store point = Some pe
      <-> exists below above,
          store = below ++ PathEl pe :: above
          /\ pathHit vt point pe
          /\ forall pe', In (PathEl pe') above -> ~ pathHit vt point pe')
  /\ (getPathAtPoint vt store point = None
      <-> forall pe, In (PathEl pe) store -> ~ pathHit vt point pe).
Proof.
  unfold getPathAtPoint; split.
  - intros pe; rewrite getPathAtPoint_loop_Some; split.
    + intros [over [under [Heq [Hhit Hno]]]].
      exists (rev under), (rev over); split; [| split].
      * rewrite <- (rev_involutive store), Heq, rev_app_distr; simpl.
        now rewrite <- app_assoc.
      * exact Hhit.
      * intros pe' Hin; apply Hno; now apply in_rev.
    + intros [below [above [Heq [Hhit Hno]]]].
      exists (rev above), (rev below); split; [| split].
      * rewrite Heq, rev_app_distr; simpl; now rewrite <- app_assoc.
      * exact Hhit.
      * intros pe' Hin; apply Hno; now apply in_rev in Hin.
  - rewrite getPathAtPoint_loop_None; split; intros H pe Hin; apply H.
    + now apply in_rev in Hin.
    + now apply in_rev.
Qed.

(** *** The clamped projection is the nearest point of the segment *)

Lemma clamp_cases (t0 : Q) :
  (t0 <= 0 /\ Qmax 0 (Qmin 1 t0) == 0)
  \/ (0 <= t0 /\ t0 <= 1 /\ Qmax 0 (Qmin 1 t0) == t0)
  \/ (1 <= t0 /\ Qmax 0 (Qmin 1 t0) == 1).
Proof.
  destruct (Q.min_spec 1 t0) as [[H1 E1] | [H1 E1]];
    destruct (Q.max_spec 0 (Qmin 1 t0)) as [[H2 E2] | [H2 E2]];
    rewrite E1 in *.
  - right; right; split; [Lqa.lra | now rewrite E2].
  - Lqa.lra.
  - right; left; split; [Lqa.lra | split; [Lqa.lra | now rewrite E2]].
  - left; split; [Lqa.lra | now rewrite E2].
Qed.

Lemma sum_of_squares_zero (a b : Q) : a * a + b * b == 0 -> a == 0 /\ b == 0.
Proof. intros H; split; Lqa.nra. Qed.

Lemma sum_of_squares_pos (a b : Q) : ~ a * a + b * b == 0 -> 0 < a * a + b * b.
Proof.
  intros H; destruct (Qlt_le_dec 0 (a * a + b * b)) as [Hlt | Hle]; [exact Hlt |].
  exfalso; apply H; Lqa.nra.
Qed.

Lemma nearest_parameter (vx vy dx dy t0 tc t : Q) :
  0 < dx * dx + dy * dy ->
  t0 * (dx * dx + dy * dy) == vx * dx + vy * dy ->
  0 <= t -> t <= 1 ->
  (t0 <= 0 /\ tc == 0) \/ (0 <= t0 /\ t0 <= 1 /\ tc == t0) \/ (1 <= t0 /\ tc == 1) ->
  (vx - tc * dx) * (vx - tc * dx) + (vy - tc * dy) * (vy - tc * dy)
  <= (vx - t * dx) * (vx - t * dx) + (vy - t * dy) * (vy - t * dy).
Proof.
  intros HL Ht0 H0 H1 Hc.
  assert (E : (vx - t * dx) * (vx - t * dx) + (vy - t * dy) * (vy - t * dy)
              - ((vx - tc * dx) * (vx - tc * dx) + (vy - tc * dy) * (vy - tc * dy))
              == (dx * dx + dy * dy) * (t - tc) * (t + tc - 2 * t0)).
  { assert (E2 : (vx - t * dx) * (vx - t * dx) + (vy - t * dy) * (vy - t * dy)
                 - ((vx - tc * dx) * (vx - tc * dx) + (vy - tc * dy) * (vy - tc * dy))
                 == (dx * dx + dy * dy) * (t - tc) * (t + tc)
                    - 2 * (t - tc) * (vx * dx + vy * dy)) by ring.
    rewrite E2, <- Ht0; ring. }
  assert (P : 0 <= (dx * dx + dy * dy) * (t - tc) * (t + tc - 2 * t0)).
  { rewrite <- Qmult_assoc; apply Qmult_le_0_compat; [now apply Qlt_le_weak |].
    destruct Hc as [[Ha Hb] | [[Ha [Hm Hb]] | [Ha Hb]]]; rewrite Hb.
    - apply Qmult_le_0_compat; Lqa.lra.
    - destruct (Qlt_le_dec t t0).
      + setoid_replace ((t - t0) * (t + t0 - 2 * t0)) with ((t0 - t) * (t0 - t)) by ring.
        apply Qmult_le_0_compat; Lqa.lra.
      + setoid_replace ((t - t0) * (t + t0 - 2 * t0)) with ((t - t0) * (t - t0)) by ring.
        apply Qmult_le_0_compat; Lqa.lra.
    - setoid_replace ((t - 1) * (t + 1 - 2 * t0)) with ((1 - t) * (2 * t0 - t - 1)) by ring.
      apply Qmult_le_0_compat; Lqa.lra. }
  Lqa.lra.
Qed.

Lemma sqDistance_nearest (point p1 p2 : Point.t) (t : Q) :
  0 <= t -> t <= 1 ->
  sqDistance point (clampedProjection point p1 p2) <= sqDistance point (along p1 p2 t).
Proof.
  intros H0 H1; unfold clampedProjection.
  set (dx := Point.x p2 - Point.x p1); set (dy := Point.y p2 - Point.y p1).
  destruct (Qeq_bool (dx * dx + dy * dy) 0) eqn:E.
  - apply Qeq_bool_iff, sum_of_squares_zero in E; destruct E as [Ex Ey].
    unfold sqDistance, along; cbn [Point.x Point.y]; fold dx dy.
    rewrite Ex, Ey; ring_simplify; apply Qle_refl.
  - assert (Hne : ~ dx * dx + dy * dy == 0).
    { intros H; apply Qeq_bool_iff in H; congruence. }
    pose proof (sum_of_squares_pos dx dy Hne) as HL.
    set (t0 := ((Point.x point - Point.x p1) * dx + (Point.y point - Point.y p1) * dy)
               / (dx * dx + dy * dy)).
    assert (Ht0 : t0 * (dx * dx + dy * dy)
                  == (Point.x point - Point.x p1) * dx + (Point.y point - Point.y p1) * dy).
    { unfold t0; field; exact Hne. }
    pose proof (nearest_parameter _ _ dx dy t0 (Qmax 0 (Qmin 1 t0)) t HL Ht0 H0 H1
                                  (clamp_cases t0)) as N.
    unfold sqDistance, along; cbn [Point.x Point.y]; fold dx dy.
    setoid_replace (Point.x point - (Point.x p1 + Qmax 0 (Qmin 1 t0) * dx))
      with (Point.x point - Point.x p1 - Qmax 0 (Qmin 1 t0) * dx) by ring.
    setoid_replace (Point.y point - (Point.y p1 + Qmax 0 (Qmin 1 t0) * dy))
      with (Point.y point - Point.y p1 - Qmax 0 (Qmin 1 t0) * dy) by ring.
    setoid_replace (Point.x point - (Point.x p1 + t * dx))
      with (Point.x point - Point.x p1 - t * dx) by ring.
    setoid_replace (Point.y point - (Point.y p1 + t * dy))
      with (Point.y point - Point.y p1 - t * dy) by ring.
    exact N.
Qed.

Lemma distance_sqDistance (p q : Point.t) : distance p q = sqrt (Q2R (sqDistance p q)).
Proof.
  unfold distance, sqDistance; now rewrite Q2R_plus, !Q2R_mult, !Q2R_minus.
Qed.

(** No point of the segment is nearer to the probe than the clamped
    projection. *)
Lemma clampedProjection_nearest (point p1 p2 : Point.t) (t : Q) :
  0 <= t -> t <= 1 ->
  (distance point (clampedProjection point p1 p2) <= distance point (along p1 p2 t))%R.
Proof.
  intros H0 H1; rewrite !distance_sqDistance.
  apply sqrt_le_1_alt, Qle_Rle; now apply sqDistance_nearest.
Qed.

(** The clamped projection is a point of the segment. *)
Lemma clampedProjection_on_segment (point p1 p2 : Point.t) :
  exists t : Q,
    0 <= t /\ t <= 1 /\ samePoint (clampedProjection point p1 p2) (along p1 p2 t).
Proof.
  unfold clampedProjection.
  destruct (Qeq_bool _ 0).
  - exists 0; split; [apply Qle_refl |]; split; [discriminate |].
    unfold samePoint, along; simpl; split; ring.
  - match goal with
    | |- context [Qmax 0 (Qmin 1 ?t0)] =>
        exists (Qmax 0 (Qmin 1 t0));
          destruct (clamp_cases t0) as [[_ E] | [[Ha [Hb E]] | [_ E]]]
    end; (split; [| split; [| split; reflexivity]]); rewrite E;
      solve [apply Qle_refl | discriminate | assumption].
Qed.

Lemma distance_samePoint (p c c' : Point.t) :
  samePoint c c' -> distance p c = distance p c'.
Proof.
  intros [Hx Hy]; unfold distance.
  now rewrite (Qeq_eqR _ _ Hx), (Qeq_eqR _ _ Hy).
Qed.

(** A path is hit exactly when some point of one of its segments is nearer to
    the probe than the threshold. *)
Lemma pathHit_iff_near_segment (vt : ViewTransform) (point : Point.t)
      (pe : PathElement.t) :
  pathHit vt point pe
  <-> exists (j : nat) (p1 p2 : Point.t) (t : Q),
      nth_error (Path.points (PathElement.path pe)) j = Some p1
      /\ nth_error (Path.points (PathElement.path pe)) (S j) = Some p2
      /\ 0 <= t /\ t <= 1
      /\ (distance point (along p1 p2 t)
          < Q2R ((Path.lineWidth (PathElement.path pe) / 2 + 5) / scale vt))%R.
Proof.
  unfold pathHit; split.
  - intros [j [p1 [p2 [H1 [H2 Hd]]]]].
    destruct (clampedProjection_on_segment point p1 p2) as [t [H0 [Ht Hs]]].
    exists j, p1, p2, t; repeat split; try assumption.
    now rewrite <- (distance_samePoint point _ _ Hs).
  - intros [j [p1 [p2 [t [H1 [H2 [H0 [Ht Hd]]]]]]]].
    exists j, p1, p2; repeat split; try assumption.
    eapply Rle_lt_trans; [apply (clampedProjection_nearest point p1 p2 t H0 Ht) | exact Hd].
Qed.

Lemma path_hit_test_topmost_witness :
  let vt := {| scale := 2; offset := {| Point.x := 0; Point.y := 0 |} |} in
  pathHit vt {| Point.x := 5; Point.y := 3 |} Sample.stroke
  /\ ~ pathHit vt {| Point.x := 5; Point.y := 7 # 2 |} Sample.stroke.
Proof.
  intros vt; split.
  - destruct (path_hit_test_topmost vt [PathEl Sample.stroke] {| Point.x := 5; Point.y := 3 |})
      as [Hsome _].
    destruct (proj1 (Hsome Sample.stroke) eq_refl) as [below [above [_ [Hhit _]]]].
    exact Hhit.
  - destruct (path_hit_test_topmost vt [PathEl Sample.stroke]
                                    {| Point.x := 5; Point.y := 7 # 2 |})
      as [_ Hnone].
    apply (proj1 Hnone eq_refl); now left.
Defined.

(** ** The lock flag between the peers *)

Lemma sent_handleSetElements_same_length
      (f : list CanvasElement -> list CanvasElement) (a : AppState) :
  List.length (f (elements a)) = List.length (elements a) ->
  sent (handleSetElements (Updater f) a) = sent a.
Proof.
  intros H; unfold handleSetElements; rewrite H, Nat.ltb_irrefl; reflexivity.
Qed.

Lemma length_toggleLock (id : string) (store : list CanvasElement) :
  List.length (toggleLock id store) = List.length store.
Proof. unfold toggleLock; apply length_map. Qed.

(** A press on the lock control of the selected image. *)
Lemma handleMouseDown_lock (e : MouseEvent) (s : Session) (sel : ImageElement.t) :
  tool (app s) = select ->
  button e = 0%nat ->
  selectedImage s = Some sel ->
  isPointInLockButton (viewTransform (wb s)) (eventPoint s (clientX e) (clientY e)) sel
  = true ->
  handleMouseDown e s =
  with_app (handleSetElements (Updater (toggleLock (ImageElement.id sel)))) s.
Proof.
  intros Ht Hb Hsel Hlock; unfold handleMouseDown.
  rewrite Hb, Ht, Hsel, Hlock; reflexivity.
Qed.

(** With the select tool, a press anywhere but on the lock control of the
    selected image leaves the application state alone. *)
Lemma handleMouseDown_select_app (e : MouseEvent) (s : Session) :
  tool (app s) = select ->
  (forall sel,
      selectedImage s = Some sel ->
      isPointInLockButton (viewTransform (wb s)) (eventPoint s (clientX e) (clientY e)) sel
      = false) ->
  app (handleMouseDown e s) = app s.
Proof.
  intros Ht Hno; unfold handleMouseDown; rewrite Ht; cbn [Tool_eqb].
  destruct (button e =? 1)%nat; [reflexivity |].
  destruct (button e =? 0)%nat; [| reflexivity].
  assert (Hbody :
            app match getElementAtPoint (elements (app s))
                        (eventPoint s (clientX e) (clientY e)) with
                | Some elementUnderMouse =>
                    if negb (truthy_bool (ImageElement.locked elementUnderMouse))
                    then with_wb (fun w =>
                                    set_moveStartRef (eventPoint s (clientX e) (clientY e))
                                                     (set_actionRef moving w))
                                 (with_wb (setSelectedElementId
                                             (Some (ImageElement.id elementUnderMouse))) s)
                    else with_wb (setSelectedElementId
                                    (Some (ImageElement.id elementUnderMouse))) s
                | None => with_wb (setSelectedElementId None) s
                end = app s).
  { destruct (getElementAtPoint _ _) as [u |]; [| reflexivity].
    destruct (negb _); reflexivity. }
  destruct (selectedImage s) as [sel |] eqn:Hsel; [| exact Hbody].
  rewrite (Hno sel eq_refl).
  destruct (negb (truthy_bool (ImageElement.locked sel))); [| exact Hbody].
  destruct (getResizeHandleAtPoint _ _ _); [reflexivity | exact Hbody].
Qed.

Lemma handleMouseUp_keeps (now : N) (s : Session) (n : nat) (el : CanvasElement) :
  nth_error (elements (app s)) n = Some el ->
  nth_error (elements (app (handleMouseUp now s))) n = Some el.
Proof.
  intros Hn; unfold handleMouseUp.
  cbn [app with_wb].
  assert (Hs1 :
            nth_error
              (elements
                 (app match actionRef (wb s), currentPathRef (wb s) with
                      | drawing, Some p =>
                          if (1 <? List.length (Path.points p))%nat
                          then with_app
                                 (handleSetElements
                                    (Updater
                                       (fun prev =>
                                          prev ++
                                          [PathEl
                                             {| PathElement.id := Date_now_toString now;
                                                PathElement.path :=
                                                  {| Path.points := Path.points p;
                                                     Path.color := Path.color p;
                                                     Path.lineWidth :=
                                                       Path.lineWidth p
                                                       / scale (viewTransform (wb s));
                                                     Path.tool := Path.tool p |} |}]))) s
                          else s
                      | _, _ => s
                      end)) n = Some el).
  { destruct (actionRef (wb s)); try exact Hn.
    destruct (currentPathRef (wb s)); try exact Hn.
    destruct (1 <? _)%nat; try exact Hn.
    cbn [app with_app]; rewrite elements_handleSetElements.
    rewrite nth_error_app1; [exact Hn |].
    apply nth_error_Some; congruence. }
  destruct (actionRef (wb s)); exact Hs1.
Qed.

Lemma nth_error_toggleLock (id : string) (store : list CanvasElement)
      (n : nat) (i : ImageElement.t) :
  nth_error store n = Some (ImageEl i) ->
  ImageElement.id i = id ->
  nth_error (toggleLock id store) n =
  Some (ImageEl (with_locked i (negb (truthy_bool (ImageElement.locked i))))).
Proof.
  intros Hn Hid; unfold toggleLock; rewrite nth_error_map, Hn; simpl.
  now rewrite Hid, String.eqb_refl.
Qed.

Lemma merge_lockPatch (id : string) (i : ImageElement.t) :
  ImageElement.id i = id ->
  merge (ImageEl i) (lockPatch id true) = ImageEl (with_locked i true).
Proof. intros <-; reflexivity. Qed.

(** The claim that the host sends [UpdateElement(id, {locked: true})] when it
    locks an image fails: the press on the lock control locks the image in the
    host's store and sends nothing. *)
Lemma lock_toggle_sends_no_update :
  let s' := handleMouseDown (Sample.click 288 30) Sample.host in
  elements (app s') = [PathEl Sample.stroke; ImageEl Sample.lockedPhoto]
  /\ connOpen (app s') = true
  /\ sent (app s') = []
  /\ ~ In (UpdateElement (lockPatch (ImageElement.id Sample.photo) true)) (sent (app s')).
Proof.
  vm_compute; repeat split; intros [].
Qed.

(** A press with the select tool leaves the application state alone or is a
    press on the lock control of the selected image. *)
Lemma handleMouseDown_select_cases (e : MouseEvent) (s : Session) :
  tool (app s) = select ->
  app (handleMouseDown e s) = app s
  \/ exists sel,
      selectedImage s = Some sel
      /\ handleMouseDown e s =
         with_app (handleSetElements (Updater (toggleLock (ImageElement.id sel)))) s.
Proof.
  intros Ht.
  destruct (selectedImage s) as [sel |] eqn:Hsel.
  - destruct (isPointInLockButton (viewTransform (wb s))
                                  (eventPoint s (clientX e) (clientY e)) sel) eqn:Hlock.
    + destruct (button e =? 1)%nat eqn:H1;
        [left; unfold handleMouseDown; now rewrite H1 |].
      destruct (button e =? 0)%nat eqn:H0;
        [| left; unfold handleMouseDown; now rewrite H1, H0].
      right; exists sel; split; [reflexivity |].
      apply Nat.eqb_eq in H0; now apply handleMouseDown_lock.
    + left; apply (handleMouseDown_select_app e s Ht).
      intros sel' E; rewrite Hsel in E; injection E as <-; exact Hlock.
  - left; apply (handleMouseDown_select_app e s Ht).
    intros sel' E; rewrite Hsel in E; discriminate E.
Qed.

Lemma handleMouseMove_idle (e : MouseEvent) (s : Session) :
  actionRef (wb s) = none ->
  app (handleMouseMove e s) = app s /\ actionRef (wb (handleMouseMove e s)) = none.
Proof.
  intros Ha; unfold handleMouseMove.
  destruct (Tool_eqb (tool (app s)) stroke_eraser); [split; [reflexivity | exact Ha] |].
  destruct (Tool_eqb (tool (app s)) select && _); [split; [reflexivity | exact Ha] |].
  cbn [wb with_wb actionRef set_cursor]; rewrite Ha.
  split; [reflexivity | exact Ha].
Qed.

(** With no action in progress, pointer moves leave the application state
    alone. *)
Lemma idle_moves_keep_app (evs : list Event) (s : Session) :
  Forall isPointerMove evs ->
  actionRef (wb s) = none ->
  app (run evs s) = app s.
Proof.
  intros Hmv; revert s; induction Hmv as [| ev evs Hev _ IH]; intros s Ha;
    [reflexivity |].
  unfold run in *; cbn [fold_left].
  destruct ev; try contradiction; cbn [handle].
  - destruct (handleMouseMove_idle e s Ha) as [Happ Hidle].
    now rewrite (IH _ Hidle).
  - assert (Hsame : onTouchMove t s = s) by (unfold onTouchMove; now rewrite Ha).
    rewrite Hsame; now apply IH.
Qed.

(** [C6], amended.  A press on the lock control of the selected image toggles
    the flag in the local store and sends nothing.  A peer that applies
    [UpdateElement(id, {locked: true})] has every image with that id locked,
    its other fields as before.  A drag with the select tool on a locked
    image (any press with no action in progress, any pointer moves, the
    release) moves and resizes nothing: the image stands at its place of the
    store with the same position and size, its lock flag alone being
    cleared when the press fell on the lock control. *)
Theorem lock_toggle_is_local_and_update_locks :
  (forall (e : MouseEvent) (s : Session) (sel : ImageElement.t),
      tool (app s) = select ->
      button e = 0%nat ->
      selectedImage s = Some sel ->
      isPointInLockButton (viewTransform (wb s)) (eventPoint s (clientX e) (clientY e)) sel
      = true ->
      sent (app (handleMouseDown e s)) = sent (app s)
      /\ elements (app (handleMouseDown e s)) =
         toggleLock (ImageElement.id sel) (elements (app s)))
  /\ (forall (st : AppState) (id : string),
         exists st',
           handleRemoteData (UpdateElement (lockPatch id true)) st = Done st'
           /\ forall n i,
               nth_error (elements st) n = Some (ImageEl i) ->
               ImageElement.id i = id ->
               nth_error (elements st') n = Some (ImageEl (with_locked i true)))
  /\ (forall (s : Session) (n : nat) (i : ImageElement.t)
             (e0 : MouseEvent) (moves : list Event) (now : N),
         tool (app s) = select ->
         actionRef (wb s) = none ->
         Forall isPointerMove moves ->
         nth_error (elements (app s)) n = Some (ImageEl i) ->
         ImageElement.locked i = Some true ->
         exists i',
           nth_error
             (elements (app (run (MouseDown e0 :: moves ++ [MouseUp now]) s))) n
           = Some (ImageEl i')
           /\ ImageElement.x i' = ImageElement.x i
           /\ ImageElement.y i' = ImageElement.y i
           /\ ImageElement.width i' = ImageElement.width i
           /\ ImageElement.height i' = ImageElement.height i
           /\ ImageElement.id i' = ImageElement.id i
           /\ (i' = i \/ i' = with_locked i false)).
Proof.
  split; [| split].
  - intros e s sel Ht Hb Hsel Hlock.
    rewrite (handleMouseDown_lock e s sel Ht Hb Hsel Hlock); cbn [app with_app].
    split.
    + apply sent_handleSetElements_same_length, length_toggleLock.
    + now rewrite elements_handleSetElements.
  - intros st id; eexists; split; [reflexivity |].
    intros n i Hn Hid; cbn [elements setElements payload UpdateElement].
    rewrite nth_error_map, Hn; cbn [option_map lockPatch Partial.id elId].
    rewrite Hid, String.eqb_refl; now rewrite merge_lockPatch.
  - intros s n i e0 moves now Ht Hidle Hmv Hn Hl.
    unfold run; cbn [fold_left handle]; rewrite fold_left_app; cbn [fold_left handle].
    fold (run moves (handleMouseDown e0 s)).
    destruct (handleMouseDown_select_cases e0 s Ht) as [Happ | [sel [Hsel Hdown]]].
    + exists i; split; [| repeat split; now left].
      apply handleMouseUp_keeps.
      apply (moves_keep_locked moves (handleMouseDown e0 s) n i Hmv).
      * now rewrite Happ.
      * now rewrite Hl.
    + assert (Hwb : actionRef (wb (handleMouseDown e0 s)) = none)
        by (rewrite Hdown; exact Hidle).
      assert (Hstore : elements (app (run moves (handleMouseDown e0 s)))
                       = toggleLock (ImageElement.id sel) (elements (app s))).
      { rewrite (idle_moves_keep_app moves _ Hmv Hwb), Hdown; cbn [app with_app].
        now rewrite elements_handleSetElements. }
      destruct (ImageElement.id i =? ImageElement.id sel)%string eqn:Hid.
      * exists (with_locked i false); split; [| repeat split; now right].
        apply handleMouseUp_keeps; rewrite Hstore.
        apply String.eqb_eq in Hid.
        rewrite (nth_error_toggleLock _ _ n i Hn Hid), Hl; reflexivity.
      * exists i; split; [| repeat split; now left].
        apply handleMouseUp_keeps; rewrite Hstore.
        unfold toggleLock; rewrite nth_error_map, Hn; cbn [option_map].
        now rewrite Hid.
Qed.

Lemma lock_toggle_is_local_and_update_locks_witness :
  sent (app (handleMouseDown (Sample.click 288 30) Sample.host)) = []
  /\ exists st',
      handleRemoteData
        (UpdateElement (lockPatch (ImageElement.id Sample.photo) true))
        (app Sample.guest) = Done st'
      /\ nth_error (elements st') 1 = Some (ImageEl Sample.lockedPhoto)
      /\ exists i',
          nth_error
            (elements
               (app (run (MouseDown (Sample.click 150 80)
                            :: [MouseMove (Sample.click 200 120);
                                MouseMove (Sample.click 400 300)]
                            ++ [MouseUp 1700000000004])
                         {| app := st'; wb := wb Sample.guest |}))) 1
          = Some (ImageEl i')
          /\ ImageElement.x i' = 100
          /\ ImageElement.y i' = 50
          /\ ImageElement.width i' = 200
          /\ ImageElement.height i' = 100.
Proof.
  destruct lock_toggle_is_local_and_update_locks as [Hhost [Hguest Hdrag]].
  split.
  - destruct (Hhost (Sample.click 288 30) Sample.host Sample.photo
                    eq_refl eq_refl eq_refl eq_refl) as [Hsent _].
    exact Hsent.
  - destruct (Hguest (app Sample.guest) (ImageElement.id Sample.photo))
      as [st' [Hrun Hlocked]].
    exists st'; split; [exact Hrun |].
    assert (Hn : nth_error (elements st') 1 = Some (ImageEl Sample.lockedPhoto))
      by (apply (Hlocked 1%nat Sample.photo); reflexivity).
    split; [exact Hn |].
    assert (Htool : tool st' = select) by (injection Hrun as <-; reflexivity).
    assert (Hmoves : Forall isPointerMove
                            [MouseMove (Sample.click 200 120);
                             MouseMove (Sample.click 400 300)])
      by (repeat constructor).
    destruct (Hdrag {| app := st'; wb := wb Sample.guest |} 1%nat Sample.lockedPhoto
                    (Sample.click 150 80)
                    [MouseMove (Sample.click 200 120); MouseMove (Sample.click 400 300)]
                    1700000000004%N Htool eq_refl Hmoves Hn eq_refl)
      as [i' [Hi' [Hx [Hy [Hw [Hh _]]]]]].
    exists i'; split; [exact Hi' |]; repeat split; assumption.
Defined.

(** ** The stroke eraser *)

Lemma wb_eraseById (id : string) (s : Session) : wb (eraseById id s) = wb s.
Proof. reflexivity. Qed.

Lemma elements_eraseById (id : string) (s : Session) :
  elements (app (eraseById id s)) =
  filter (fun el => negb (elId el =? id)%string) (elements (app s)).
Proof.
  unfold eraseById; cbn [app with_app].
  unfold setUndoStack; cbn [elements]; now rewrite elements_handleSetElements.
Qed.

(** A left press with the stroke eraser: the board state is as before, and
    the store loses the elements with the id of the topmost hit path or, no
    path being hit, of the topmost image under the pointer when that image is
    not locked. *)
Lemma handleMouseDown_stroke_eraser (e : MouseEvent) (s : Session) :
  tool (app s) = stroke_eraser ->
  button e = 0%nat ->
  let point := eventPoint s (clientX e) (clientY e) in
  wb (handleMouseDown e s) = wb s
  /\ elements (app (handleMouseDown e s)) =
     match getPathAtPoint (viewTransform (wb s)) (elements (app s)) point with
     | Some pathToDelete =>
         filter (fun el => negb (elId el =? PathElement.id pathToDelete)%string)
                (elements (app s))
     | None =>
         match getElementAtPoint (elements (app s)) point with
         | Some imgToDelete =>
             if truthy_bool (ImageElement.locked imgToDelete) then elements (app s)
             else filter (fun el => negb (elId el =? ImageElement.id imgToDelete)%string)
                         (elements (app s))
         | None => elements (app s)
         end
     end.
Proof.
  intros Ht Hb point; unfold handleMouseDown; rewrite Hb, Ht; cbn [Nat.eqb Tool_eqb].
  fold point.
  destruct (getPathAtPoint _ _ point) as [p |].
  - split; [apply wb_eraseById | apply elements_eraseById].
  - destruct (getElementAtPoint _ point) as [i |]; [| now split].
    destruct (truthy_bool (ImageElement.locked i)); cbn [negb]; [now split |].
    split; [apply wb_eraseById | apply elements_eraseById].
Qed.

(** A touch with the stroke eraser tests paths only. *)
Lemma onTouchStart_stroke_eraser (t : Touch) (s : Session) :
  tool (app s) = stroke_eraser ->
  let point := eventPoint s (touchX t) (touchY t) in
  wb (onTouchStart t s) = wb s
  /\ elements (app (onTouchStart t s)) =
     match getPathAtPoint (viewTransform (wb s)) (elements (app s)) point with
     | Some pathToDelete =>
         filter (fun el => negb (elId el =? PathElement.id pathToDelete)%string)
                (elements (app s))
     | None => elements (app s)
     end.
Proof.
  intros Ht point; unfold onTouchStart; rewrite Ht; cbn [Tool_eqb].
  fold point.
  destruct (getPathAtPoint _ _ point) as [p |]; [| now split].
  split; [apply wb_eraseById | apply elements_eraseById].
Qed.

(** [C8] at the input where the touch path departs from it: a touch with the
    stroke eraser on an unlocked image, no path being under the finger,
    removes nothing, where the mouse press at the same place removes the
    image. *)
Theorem touch_stroke_eraser_keeps_unlocked_image :
  elements (app (onTouchStart {| touchX := 150; touchY := 80 |} Sample.erasing))
  = [ImageEl Sample.photo]
  /\ elements (app (handleMouseDown (Sample.click 150 80) Sample.erasing)) = []
  /\ ImageElement.locked Sample.photo = Some false.
Proof.
  vm_compute; repeat split.
Qed.

(** ** The zoom scale *)

Lemma handleWheel_scaleInRange (e : WheelEvent) (s : Session) :
  scaleInRange (handleWheel e s).
Proof.
  unfold scaleInRange, handleWheel; cbn [wb with_wb viewTransform setViewTransform scale].
  split; [apply Q.le_max_l |].
  apply Q.max_lub; [discriminate | apply Q.le_min_l].
Qed.

(** No other event changes the scale. *)
Lemma handle_scale (ev : Event) (s : Session) :
  (forall e, ev <> Wheel e) ->
  scale (viewTransform (wb (handle ev s))) = scale (viewTransform (wb s)).
Proof.
  intros Hw; destruct ev as [e | e | now | now | t | t | now | e]; cbn [handle];
    try (unfold handleMouseDown, handleMouseMove, onMouseLeave, onTouchEnd,
           handleMouseUp, onTouchStart, onTouchMove, startDrawing, eraseById;
         break_branches; reflexivity).
  exfalso; now apply (Hw e).
Qed.

(** From a session whose scale is in range, as the initial scale 1 is, every
    sequence of events leads to a session whose scale is in range: the
    divisions by the scale never divide by zero. *)
Lemma run_scaleInRange (evs : list Event) (s : Session) :
  scaleInRange s -> scaleInRange (run evs s).
Proof.
  revert s; induction evs as [| ev evs IH]; intros s Hs; simpl; [exact Hs |].
  apply IH.
  destruct ev as [e | e | now | now | t | t | now | e];
    try (unfold scaleInRange; rewrite handle_scale by discriminate; exact Hs).
  apply handleWheel_scaleInRange.
Qed.

(** ** What the wrapped setter sends *)

(** Appending an element through [handleSetElements] on an open channel sends
    one [ADD_ELEMENT] with it; this is the setter that [handleRemoteData] does
    not use. *)
Lemma handleSetElements_append_sends (p : PathElement.t) (a : AppState) :
  connOpen a = true ->
  sent (handleSetElements (Updater (fun prev => prev ++ [PathEl p])) a)
  = sent a ++ [AddElement (PathEl p)].
Proof.
  intros Hopen; unfold handleSetElements.
  rewrite length_app; cbn [List.length].
  assert (Hlt : (List.length (elements a) <? List.length (elements a) + 1)%nat = true)
    by (apply Nat.ltb_lt; lia).
  rewrite Hlt.
  replace (List.length (elements a) + 1 - 1)%nat with (List.length (elements a)) by lia.
  rewrite nth_error_app2, Nat.sub_diag by lia; cbn [nth_error].
  unfold sendSyncMessage; cbn [sent setElements]; rewrite Hopen; reflexivity.
Qed.

Lemma handleSetElements_remove_sends (a : AppState) (el : CanvasElement) :
  connOpen a = true ->
  elements a = [el] ->
  sent (handleSetElements
          (Updater (filter (fun x => negb (elId x =? elId el)%string))) a)
  = sent a ++ [RemoveElement (elId el)].
Proof.
  intros Hopen Hel; unfold handleSetElements; rewrite Hel; cbn [filter].
  rewrite String.eqb_refl; cbn [negb List.length Nat.ltb Nat.leb map existsb find].
  unfold sendSyncMessage; cbn [sent setElements]; rewrite Hopen; reflexivity.
Qed.

(** ** Worked examples *)

(** One drag per corner of [Sample.photo], which spans 100..300 by 50..150:
    the opposite corner stays and the ratio 2 : 1 is kept. *)
Example drag_top_left :
  let el' := resizeImage (Some top_left) (Sample.at_ 50 0) Sample.photo in
  samePoint (corner bottom_right el') (Sample.at_ 300 150)
  /\ samePoint (corner top_left el') (Sample.at_ 0 0)
  /\ ImageElement.width el' == 300 /\ ImageElement.height el' == 150.
Proof. vm_compute; repeat split. Qed.

Example drag_top_right :
  let el' := resizeImage (Some top_right) (Sample.at_ 500 100) Sample.photo in
  samePoint (corner bottom_left el') (Sample.at_ 100 150)
  /\ samePoint (corner top_right el') (Sample.at_ 500 (-50))
  /\ ImageElement.width el' == 400 /\ ImageElement.height el' == 200.
Proof. vm_compute; repeat split. Qed.

Example drag_bottom_left :
  let el' := resizeImage (Some bottom_left) (Sample.at_ 200 75) Sample.photo in
  samePoint (corner top_right el') (Sample.at_ 300 50)
  /\ samePoint (corner bottom_left el') (Sample.at_ 200 100)
  /\ ImageElement.width el' == 100 /\ ImageElement.height el' == 50.
Proof. vm_compute; repeat split. Qed.

Example drag_bottom_right :
  let el' := resizeImage (Some bottom_right) (Sample.at_ 90 40) Sample.photo in
  samePoint (corner top_left el') (Sample.at_ 100 50)
  /\ samePoint (corner bottom_right el') (Sample.at_ 120 60)
  /\ ImageElement.width el' == 20 /\ ImageElement.height el' == 10.
Proof. vm_compute; repeat split. Qed.

(** A probe above the middle of [Sample.stroke], of stroke width 4, hits it
    exactly below the distance [(4 / 2 + 5) / scale]: 14, 7 and 7/2 at the
    scales 1/2, 1 and 2. *)
Example probe_scale_half :
  getPathAtPoint (Sample.zoom (1 # 2)) [PathEl Sample.stroke] (Sample.at_ 5 (139 # 10))
  = Some Sample.stroke
  /\ getPathAtPoint (Sample.zoom (1 # 2)) [PathEl Sample.stroke] (Sample.at_ 5 14) = None.
Proof. split; reflexivity. Qed.

Example probe_scale_one :
  getPathAtPoint (Sample.zoom 1) [PathEl Sample.stroke] (Sample.at_ 5 (69 # 10))
  = Some Sample.stroke
  /\ getPathAtPoint (Sample.zoom 1) [PathEl Sample.stroke] (Sample.at_ 5 7) = None.
Proof. split; reflexivity. Qed.

Example probe_scale_two :
  getPathAtPoint (Sample.zoom 2) [PathEl Sample.stroke] (Sample.at_ 5 (34 # 10))
  = Some Sample.stroke
  /\ getPathAtPoint (Sample.zoom 2) [PathEl Sample.stroke] (Sample.at_ 5 (7 # 2)) = None.
Proof. split; reflexivity. Qed.

(** Beyond the end of the stroke the distance is the one to the end point:
    from (13, 4) it is 5. *)
Example probe_past_the_end :
  getPathAtPoint (Sample.zoom 1) [PathEl Sample.stroke] (Sample.at_ 13 4)
  = Some Sample.stroke
  /\ getPathAtPoint (Sample.zoom 1) [PathEl Sample.stroke] (Sample.at_ 16 4) = None.
Proof. split; reflexivity. Qed.

(** The scenario of the specification: the guest starts from [FullState([])],
    the host draws a stroke of three points and sends one [AddElement], and
    the guest that applies it holds one element with the same id. *)
Example scenario_stroke :
  let host := {| app := Sample.peer pen []; wb := Sample.board none None |} in
  let host' :=
    run [MouseDown (Sample.click 0 0); MouseMove (Sample.click 3 4);
         MouseMove (Sample.click 6 8); MouseUp 1700000000005] host in
  exists el guest',
    elements (app host') = [el]
    /\ sent (app host') = [AddElement el]
    /\ applyAll (FullState [] :: sent (app host')) (Sample.peer pen []) = Done guest'
    /\ map elId (elements guest') = ["1700000000005"].
Proof.
  intros host host'.
  eexists; eexists; split; [vm_compute; reflexivity |].
  split; [vm_compute; reflexivity |].
  split; vm_compute; reflexivity.
Qed.

(** * Further properties of the code *)

(** ** Hit-testing of images *)

Lemma pointInImage_iff (point : Point.t) (i : ImageElement.t) :
  pointInImage point i = true <-> insideImage point i.
Proof.
  unfold pointInImage, insideImage; rewrite !andb_true_iff, !Qle_bool_iff; tauto.
Qed.

Lemma getElementAtPoint_loop_Some (point : Point.t) (topDown : list CanvasElement)
      (i : ImageElement.t) :
  getElementAtPoint_loop point topDown = Some i
  <-> exists over under,
      topDown = over ++ ImageEl i :: under
      /\ insideImage point i
      /\ forall i', In (ImageEl i') over -> ~ insideImage point i'.
Proof.
  induction topDown as [| el topDown IH]; cbn [getElementAtPoint_loop].
  - split; [discriminate | intros [[| ? ?] [? [H _]]]; discriminate].
  - destruct el as [p | q].
    + rewrite IH; split.
      * intros [over [under [Heq [Hin Hno]]]]; subst.
        exists (PathEl p :: over), under; split; [reflexivity |].
        split; [exact Hin |].
        intros i' [E | Hi']; [discriminate | now apply Hno].
      * intros [[| el over] [under [Heq [Hin Hno]]]]; simpl in Heq; [discriminate |].
        inversion Heq; subst; exists over, under; split; [reflexivity |].
        split; [exact Hin |]; intros i' Hi'; apply Hno; now right.
    + destruct (pointInImage point q) eqn:Hq.
      * apply pointInImage_iff in Hq; split.
        -- intros H; inversion H; subst; exists [], topDown; simpl; tauto.
        -- intros [[| el over] [under [Heq [Hin Hno]]]]; simpl in Heq.
           ++ congruence.
           ++ inversion Heq; subst; exfalso; apply (Hno q); [now left | exact Hq].
      * assert (Hnq : ~ insideImage point q).
        { intros H; apply pointInImage_iff in H; congruence. }
        rewrite IH; split.
        -- intros [over [under [Heq [Hin Hno]]]]; subst.
           exists (ImageEl q :: over), under; split; [reflexivity |].
           split; [exact Hin |].
           intros i' [E | Hi']; [inversion E; subst; exact Hnq | now apply Hno].
        -- intros [[| el over] [under [Heq [Hin Hno]]]]; simpl in Heq.
           ++ inversion Heq; subst; contradiction.
           ++ inversion Heq; subst; exists over, under; split; [reflexivity |].
              split; [exact Hin |]; intros i' Hi'; apply Hno; now right.
Qed.

Lemma getElementAtPoint_loop_None (point : Point.t) (topDown : list CanvasElement) :
  getElementAtPoint_loop point topDown = None
  <-> forall i, In (ImageEl i) topDown -> ~ insideImage point i.
Proof.
  induction topDown as [| el topDown IH]; cbn [getElementAtPoint_loop].
  - split; [intros _ i [] | reflexivity].
  - destruct el as [p | q].
    + rewrite IH; split.
      * intros H i [E | Hin]; [discriminate | now apply H].
      * intros H i Hin; apply H; now right.
    + destruct (pointInImage point q) eqn:Hq.
      * apply pointInImage_iff in Hq; split; [discriminate |].
        intros H; exfalso; apply (H q); [now left | exact Hq].
      * rewrite IH; split.
        -- intros H i [E | Hin]; [| now apply H].
           inversion E; subst; intros Hi.
           apply pointInImage_iff in Hi; congruence.
        -- intros H i Hin; apply H; now right.
Qed.

(** [X1] [getElementAtPoint] returns an image exactly when the point lies in
    its rectangle, edges included, and in the rectangle of no image later in
    the store, which is above it; paths are passed over; it returns nothing
    exactly when the point lies in no image of the store. *)
Theorem image_hit_test_topmost (store : list CanvasElement) (point : Point.t) :
  (forall i,
      getElementAtPoint store point = Some i
      <-> exists below above,
          store = below ++ ImageEl i :: above
          /\ insideImage point i
          /\ forall i', In (ImageEl i') above -> ~ insideImage point i')
  /\ (getElementAtPoint store point = None
      <-> forall i, In (ImageEl i) store -> ~ insideImage point i).
Proof.
  unfold getElementAtPoint; split.
  - intros i; rewrite getElementAtPoint_loop_Some; split.
    + intros [over [under [Heq [Hin Hno]]]].
      exists (rev under), (rev over); split; [| split].
      * rewrite <- (rev_involutive store), Heq, rev_app_distr; simpl.
        now rewrite <- app_assoc.
      * exact Hin.
      * intros i' Hi'; apply Hno; now apply in_rev.
    + intros [below [above [Heq [Hin Hno]]]].
      exists (rev above), (rev below); split; [| split].
      * rewrite Heq, rev_app_distr; simpl; now rewrite <- app_assoc.
      * exact Hin.
      * intros i' Hi'; apply Hno; now apply in_rev in Hi'.
  - rewrite getElementAtPoint_loop_None; split; intros H i Hin; apply H.
    + now apply in_rev in Hin.
    + now apply in_rev.
Qed.

(** ** The view transform *)

Lemma scale_nonzero (k : Q) : 0 < k -> ~ k == 0.
Proof. intros H E; rewrite E in H; discriminate. Qed.

(** [X2] For a scale that is not zero, [getTransformedPoint] is the inverse of
    the transform the canvas is drawn with: a client position maps to the
    point of the document that is drawn at that position, and a point of the
    document is found again under the position it is drawn at. *)
Theorem transformed_point_inverts_view (vt : ViewTransform) (r : DOMRect.t) :
  ~ scale vt == 0 ->
  (forall cx cy,
      samePoint (toClient vt r (getTransformedPoint vt r cx cy))
                {| Point.x := cx; Point.y := cy |})
  /\ (forall p,
         samePoint (getTransformedPoint vt r (Point.x (toClient vt r p))
                                        (Point.y (toClient vt r p))) p).
Proof.
  intros Hk; split.
  - intros cx cy; unfold samePoint, toClient, getTransformedPoint; simpl.
    split; field; exact Hk.
  - intros p; unfold samePoint, toClient, getTransformedPoint; simpl.
    split; field; exact Hk.
Qed.

Lemma transformed_point_inverts_view_witness :
  samePoint (toClient (Sample.zoom 2) {| DOMRect.left := 10; DOMRect.top := 20 |}
                      (getTransformedPoint (Sample.zoom 2)
                                           {| DOMRect.left := 10; DOMRect.top := 20 |}
                                           110 220))
            (Sample.at_ 110 220).
Proof.
  assert (Hk : ~ scale (Sample.zoom 2) == 0) by discriminate.
  exact (proj1 (transformed_point_inverts_view
                  (Sample.zoom 2) {| DOMRect.left := 10; DOMRect.top := 20 |} Hk)
               110 220).
Defined.

(** [X3] The zoom scale stays between 1/10 and 10: a wheel event clamps it
    into that range whatever it was, no other event of the canvas changes it,
    and so every sequence of events from a session in range, as the initial
    scale 1 is, ends in range, where the divisions by the scale are by a
    positive number. *)
Theorem scale_stays_in_range (evs : list Event) (s : Session) :
  scaleInRange s ->
  scaleInRange (run evs s)
  /\ 0 < scale (viewTransform (wb (run evs s)))
  /\ (forall e s0, scaleInRange (handleWheel e s0))
  /\ (forall ev s0,
         (forall e, ev <> Wheel e) ->
         scale (viewTransform (wb (handle ev s0))) = scale (viewTransform (wb s0))).
Proof.
  intros Hs; pose proof (run_scaleInRange evs s Hs) as Hr.
  split; [exact Hr |]; split.
  - destruct Hr as [Hlo _]; eapply Qlt_le_trans; [| exact Hlo]; reflexivity.
  - split; [apply handleWheel_scaleInRange | apply handle_scale].
Qed.

Lemma scale_stays_in_range_witness :
  let s := {| app := Sample.peer pen []; wb := Sample.board none None |} in
  scaleInRange
    (run [Wheel {| wheelX := 50; wheelY := 50; deltaY := -100000 |};
          MouseDown (Sample.click 5 5);
          Wheel {| wheelX := 50; wheelY := 50; deltaY := 250 |}] s).
Proof.
  intros s.
  refine (proj1 (scale_stays_in_range _ s _)).
  split; discriminate.
Defined.

(** [X4] Zooming with the wheel keeps the point of the document under the
    pointer where it is: for a positive scale, the pointer position is over
    the same point of the document after the wheel event as before. *)
Theorem wheel_fixes_point_under_pointer (e : WheelEvent) (s : Session) :
  0 < scale (viewTransform (wb s)) ->
  samePoint (eventPoint (handleWheel e s) (wheelX e) (wheelY e))
            (eventPoint s (wheelX e) (wheelY e))
  /\ elements (app (handleWheel e s)) = elements (app s)
  /\ actionRef (wb (handleWheel e s)) = actionRef (wb s).
Proof.
  intros Hk; split; [| split; reflexivity].
  pose proof (scale_nonzero _ Hk) as Hne.
  unfold eventPoint, getTransformedPoint, handleWheel, samePoint;
    cbn [wb with_wb viewTransform setViewTransform scale offset rect Point.x Point.y].
  set (k' := Qmax (1 # 10) (Qmin 10 _)).
  assert (Hk' : ~ k' == 0).
  { apply scale_nonzero; eapply Qlt_le_trans; [| apply Q.le_max_l]; reflexivity. }
  split; field; split; assumption.
Qed.

Lemma wheel_fixes_point_under_pointer_witness :
  let s := {| app := Sample.peer pen []; wb := Sample.drawingBoard |} in
  let e := {| wheelX := 120; wheelY := 80; deltaY := -300 |} in
  samePoint (eventPoint (handleWheel e s) 120 80) (eventPoint s 120 80).
Proof.
  intros s e.
  refine (proj1 (wheel_fixes_point_under_pointer e s _)); reflexivity.
Defined.

(** ** Panning *)

Lemma handleMouseMove_pan (e : MouseEvent) (s : Session) :
  panReady s ->
  exists c,
    handleMouseMove e s =
    with_wb (fun w =>
               set_panStartRef {| Point.x := clientX e; Point.y := clientY e |}
                 (setViewTransform
                    {| scale := scale (viewTransform w);
                       offset :=
                         {| Point.x := Point.x (offset (viewTransform w))
                                       + (clientX e - Point.x (panStartRef (wb s)));
                            Point.y := Point.y (offset (viewTransform w))
                                       + (clientY e - Point.y (panStartRef (wb s))) |} |}
                    w))
            (with_wb (set_cursor c) s).
Proof.
  intros [Ha [Hne Hsel]]; unfold handleMouseMove.
  destruct (tool (app s)) eqn:Ht; try congruence; cbn [Tool_eqb andb];
    try (cbn [wb with_wb actionRef set_cursor]; rewrite Ha; eexists; reflexivity).
  rewrite (Hsel eq_refl); cbn [wb with_wb actionRef set_cursor]; rewrite Ha.
  eexists; reflexivity.
Qed.

Lemma selectedImage_with_wb_view (s : Session) (f : WhiteboardState -> WhiteboardState) :
  selectedElementId (f (wb s)) = selectedElementId (wb s) ->
  selectedImage (with_wb f s) = selectedImage s.
Proof. intros H; unfold selectedImage; cbn [wb app with_wb]; now rewrite H. Qed.

Lemma pan_step (e : MouseEvent) (s : Session) :
  panReady s ->
  panReady (handleMouseMove e s)
  /\ samePoint (panAnchorPoint (handleMouseMove e s)) (panAnchorPoint s)
  /\ app (handleMouseMove e s) = app s
  /\ scale (viewTransform (wb (handleMouseMove e s))) = scale (viewTransform (wb s))
  /\ panStartRef (wb (handleMouseMove e s))
     = {| Point.x := clientX e; Point.y := clientY e |}.
Proof.
  intros Hp; destruct (handleMouseMove_pan e s Hp) as [c ->].
  destruct Hp as [Ha [Hne Hsel]].
  split; [| split; [| repeat split]].
  - split; [exact Ha |]; split; [exact Hne |].
    intros Ht; rewrite <- (Hsel Ht); reflexivity.
  - unfold panAnchorPoint, eventPoint, getTransformedPoint, samePoint; simpl.
    unfold Qdiv; split; ring.
Qed.

(** [X5] While a pan is in progress the document follows the pointer: each
    move adds the displacement of the pointer to the offset and takes the
    pointer as the new anchor, so over any sequence of moves the point of the
    document under the anchor stays the same, and neither the store nor the
    scale changes. *)
Theorem pan_keeps_grabbed_point (moves : list MouseEvent) (s : Session) :
  panReady s ->
  samePoint (panAnchorPoint (run (map MouseMove moves) s)) (panAnchorPoint s)
  /\ app (run (map MouseMove moves) s) = app s
  /\ scale (viewTransform (wb (run (map MouseMove moves) s)))
     = scale (viewTransform (wb s))
  /\ forall e,
      panStartRef (wb (run (map MouseMove (moves ++ [e])) s))
      = {| Point.x := clientX e; Point.y := clientY e |}.
Proof.
  intros Hp.
  assert (Hinv : panReady (run (map MouseMove moves) s)
                 /\ samePoint (panAnchorPoint (run (map MouseMove moves) s))
                              (panAnchorPoint s)
                 /\ app (run (map MouseMove moves) s) = app s
                 /\ scale (viewTransform (wb (run (map MouseMove moves) s)))
                    = scale (viewTransform (wb s))).
  { revert s Hp; induction moves as [| e moves IH]; intros s Hp; simpl.
    - repeat split; try reflexivity; apply Hp.
    - destruct (pan_step e s Hp) as [Hp' [Hpt [Happ [Hsc _]]]].
      destruct (IH _ Hp') as [Hr [Hpt' [Happ' Hsc']]].
      split; [exact Hr |]; split; [| split; congruence].
      destruct Hpt as [Hx Hy]; destruct Hpt' as [Hx' Hy'].
      split; [now rewrite Hx' | now rewrite Hy']. }
  destruct Hinv as [Hr [Hpt [Happ Hsc]]].
  split; [exact Hpt |]; split; [exact Happ |]; split; [exact Hsc |].
  intros e; rewrite map_app; unfold run; rewrite fold_left_app; cbn [map fold_left handle].
  now destruct (pan_step e _ Hr) as [_ [_ [_ [_ H]]]].
Qed.

Lemma pan_keeps_grabbed_point_witness :
  let s := {| app := Sample.peer pen [PathEl Sample.stroke];
              wb := Sample.board panning None |} in
  let moves := [Sample.click 30 40; Sample.click 70 10] in
  samePoint (panAnchorPoint (run (map MouseMove moves) s)) (panAnchorPoint s).
Proof.
  intros s moves.
  refine (proj1 (pan_keeps_grabbed_point moves s _)).
  split; [reflexivity |]; split; [discriminate | discriminate].
Defined.

(** ** Pointer moves under the stroke eraser *)

Lemma handleMouseMove_stroke_eraser (e : MouseEvent) (s : Session) :
  tool (app s) = stroke_eraser ->
  exists c, handleMouseMove e s = with_wb (set_cursor c) s.
Proof.
  intros Ht; unfold handleMouseMove; rewrite Ht; cbn [Tool_eqb].
  eexists; reflexivity.
Qed.

(** [X6] With the stroke eraser active a pointer move only sets the cursor:
    over any sequence of moves the store, the view, the action in progress
    and its anchors stay as they are, so a pan begun with the middle button
    does not move the view while that tool is active. *)
Theorem stroke_eraser_moves_change_only_cursor (moves : list MouseEvent) (s : Session) :
  tool (app s) = stroke_eraser ->
  exists c, run (map MouseMove moves) s = with_wb (set_cursor c) s.
Proof.
  revert s; induction moves as [| e moves IH]; intros s Ht; simpl.
  - exists (cursor (wb s)); destruct s as [a [? ? ? ? ? ? ? ? ?]]; reflexivity.
  - destruct (handleMouseMove_stroke_eraser e s Ht) as [c ->].
    destruct (IH (with_wb (set_cursor c) s) Ht) as [c' ->].
    exists c'; reflexivity.
Qed.

Lemma stroke_eraser_moves_change_only_cursor_witness :
  let s := handleMouseDown {| clientX := 10; clientY := 10; button := 1 |} Sample.erasing in
  actionRef (wb s) = panning
  /\ exists c,
      run (map MouseMove [Sample.click 60 60; Sample.click 90 20]) s
      = with_wb (set_cursor c) s.
Proof.
  intros s; split; [reflexivity |].
  apply (stroke_eraser_moves_change_only_cursor
           [Sample.click 60 60; Sample.click 90 20] s); reflexivity.
Defined.

(** ** Moving an image *)

(** A pointer move while [moving]: either it only sets the cursor, or it
    applies the update of the action and takes the pointer as the new
    anchor. *)
Lemma handleMouseMove_moving (e : MouseEvent) (s : Session) :
  actionRef (wb s) = moving ->
  (exists c, handleMouseMove e s = with_wb (set_cursor c) s)
  \/ (exists c,
         handleMouseMove e s =
         with_wb (set_moveStartRef (mousePoint s e))
           (with_app
              (handleSetElements
                 (Updater
                    (movingUpdate (selectedElementId (wb s))
                       (Point.x (mousePoint s e) - Point.x (moveStartRef (wb s)))
                       (Point.y (mousePoint s e) - Point.y (moveStartRef (wb s))))))
              (with_wb (set_cursor c) s))).
Proof.
  intros Ha; unfold handleMouseMove, mousePoint.
  destruct (Tool_eqb (tool (app s)) stroke_eraser); [left; eexists; reflexivity |].
  destruct (Tool_eqb (tool (app s)) select && _); [left; eexists; reflexivity |].
  cbn [wb with_wb actionRef set_cursor]; rewrite Ha.
  right; eexists; reflexivity.
Qed.

Lemma moving_step (e : MouseEvent) (s : Session) (n : nat) (i : ImageElement.t) :
  actionRef (wb s) = moving ->
  selectedElementId (wb s) = Some (ImageElement.id i) ->
  nth_error (elements (app s)) n = Some (ImageEl i) ->
  truthy_bool (ImageElement.locked i) = false ->
  let s' := handleMouseMove e s in
  actionRef (wb s') = moving
  /\ selectedElementId (wb s') = selectedElementId (wb s)
  /\ exists i',
      nth_error (elements (app s')) n = Some (ImageEl i')
      /\ ImageElement.id i' = ImageElement.id i
      /\ ImageElement.locked i' = ImageElement.locked i
      /\ ImageElement.width i' = ImageElement.width i
      /\ ImageElement.height i' = ImageElement.height i
      /\ ImageElement.x i' - Point.x (moveStartRef (wb s'))
         == ImageElement.x i - Point.x (moveStartRef (wb s))
      /\ ImageElement.y i' - Point.y (moveStartRef (wb s'))
         == ImageElement.y i - Point.y (moveStartRef (wb s)).
Proof.
  intros Ha Hsel Hn Hl s'; subst s'.
  destruct (handleMouseMove_moving e s Ha) as [[c ->] | [c ->]];
    cbn [wb app with_wb with_app actionRef selectedElementId set_cursor
            set_moveStartRef moveStartRef].
  - split; [exact Ha |]; split; [reflexivity |].
    exists i; repeat split; try reflexivity; exact Hn.
  - split; [exact Ha |]; split; [reflexivity |].
    rewrite elements_handleSetElements.
    unfold movingUpdate; rewrite nth_error_map, Hn, Hsel; cbn [option_map is_selected].
    rewrite String.eqb_refl, Hl.
    eexists; split; [reflexivity |]; cbn; repeat split; try reflexivity; ring.
Qed.

Lemma moving_step_others (e : MouseEvent) (s : Session) (n : nat) (el : CanvasElement) :
  actionRef (wb s) = moving ->
  nth_error (elements (app s)) n = Some el ->
  is_selected (selectedElementId (wb s)) (elId el) = false ->
  nth_error (elements (app (handleMouseMove e s))) n = Some el.
Proof.
  intros Ha Hn Hid.
  destruct (handleMouseMove_moving e s Ha) as [[c ->] | [c ->]];
    cbn [wb app with_wb with_app]; [exact Hn |].
  rewrite elements_handleSetElements.
  unfold movingUpdate; rewrite nth_error_map, Hn; cbn [option_map].
  destruct el as [p | j]; [reflexivity |].
  cbn [elId] in Hid; now rewrite Hid.
Qed.

(** [X7] While an unlocked selected image is moved, it keeps its place under
    the pointer: over any sequence of pointer moves its position minus the
    anchor of the move stays the same, so it is displaced by exactly what the
    anchor is; its size, id and lock flag stay, and every element with
    another id is left as it is. *)
Theorem moving_image_follows_pointer (moves : list MouseEvent) (s : Session)
        (n : nat) (i : ImageElement.t) :
  actionRef (wb s) = moving ->
  selectedElementId (wb s) = Some (ImageElement.id i) ->
  nth_error (elements (app s)) n = Some (ImageEl i) ->
  truthy_bool (ImageElement.locked i) = false ->
  let s' := run (map MouseMove moves) s in
  (exists i',
      nth_error (elements (app s')) n = Some (ImageEl i')
      /\ ImageElement.id i' = ImageElement.id i
      /\ ImageElement.locked i' = ImageElement.locked i
      /\ ImageElement.width i' = ImageElement.width i
      /\ ImageElement.height i' = ImageElement.height i
      /\ ImageElement.x i' - ImageElement.x i
         == Point.x (moveStartRef (wb s')) - Point.x (moveStartRef (wb s))
      /\ ImageElement.y i' - ImageElement.y i
         == Point.y (moveStartRef (wb s')) - Point.y (moveStartRef (wb s)))
  /\ (forall m el,
         nth_error (elements (app s)) m = Some el ->
         elId el <> ImageElement.id i ->
         nth_error (elements (app s')) m = Some el).
Proof.
  revert s i; induction moves as [| e moves IH]; intros s i Ha Hsel Hn Hl; simpl.
  - split; [| auto].
    exists i; repeat split; try reflexivity; try exact Hn; ring.
  - destruct (moving_step e s n i Ha Hsel Hn Hl)
      as [Ha' [Hsel' [i1 [Hn1 [Hid [Hlk [Hw [Hh [Hx Hy]]]]]]]]].
    assert (Hsel1 : selectedElementId (wb (handleMouseMove e s))
                    = Some (ImageElement.id i1)) by congruence.
    assert (Hl1 : truthy_bool (ImageElement.locked i1) = false) by congruence.
    destruct (IH _ i1 Ha' Hsel1 Hn1 Hl1)
      as [[i' [Hn' [Hid' [Hlk' [Hw' [Hh' [Hx' Hy']]]]]]] Hoth].
    split.
    + exists i'; split; [exact Hn' |].
      repeat split; try congruence.
      * Lqa.lra.
      * Lqa.lra.
    + intros m el Hm Hne; apply Hoth; [| congruence].
      apply moving_step_others; [exact Ha | exact Hm |].
      rewrite Hsel; cbn [is_selected]; now apply String.eqb_neq.
Qed.

Lemma moving_image_follows_pointer_witness :
  let s := {| app := Sample.peer select [PathEl Sample.stroke; ImageEl Sample.photo];
              wb := Sample.board moving (Some (ImageElement.id Sample.photo)) |} in
  let s' := run (map MouseMove [Sample.click 30 40; Sample.click 70 10]) s in
  exists i',
    nth_error (elements (app s')) 1 = Some (ImageEl i')
    /\ ImageElement.x i' - 100 == Point.x (moveStartRef (wb s')) - 0.
Proof.
  intros s s'.
  destruct (moving_image_follows_pointer [Sample.click 30 40; Sample.click 70 10] s 1
              Sample.photo eq_refl eq_refl eq_refl eq_refl)
    as [[i' [Hn [_ [_ [_ [_ [Hx _]]]]]]] _].
  exists i'; split; [exact Hn | exact Hx].
Defined.

(** ** Drawing a stroke *)

Lemma undoStack_handleSetElements (u : SetStateAction) (a : AppState) :
  undoStack (handleSetElements u a) = undoStack a.
Proof.
  unfold handleSetElements, sendSyncMessage; break_branches; reflexivity.
Qed.

Lemma handleMouseMove_drawing (e : MouseEvent) (s : Session) (p : Path.t) :
  drawingTool (tool (app s)) ->
  actionRef (wb s) = drawing ->
  currentPathRef (wb s) = Some p ->
  handleMouseMove e s =
  with_wb (set_currentPathRef (Some (push_point p (mousePoint s e))))
          (with_wb (set_cursor cursor_crosshair) s).
Proof.
  intros Ht Ha Hp; unfold handleMouseMove, mousePoint.
  destruct Ht as [Ht | [Ht | Ht]]; rewrite Ht; cbn [Tool_eqb andb];
    cbn [wb with_wb actionRef currentPathRef set_cursor]; rewrite Ha, Hp; reflexivity.
Qed.

Lemma drawing_moves (moves : list MouseEvent) (s : Session) (p : Path.t) :
  drawingTool (tool (app s)) ->
  actionRef (wb s) = drawing ->
  currentPathRef (wb s) = Some p ->
  let s' := run (map MouseMove moves) s in
  app s' = app s
  /\ actionRef (wb s') = drawing
  /\ viewTransform (wb s') = viewTransform (wb s)
  /\ rect (wb s') = rect (wb s)
  /\ currentPathRef (wb s')
     = Some {| Path.points := Path.points p ++ map (mousePoint s) moves;
               Path.color := Path.color p;
               Path.lineWidth := Path.lineWidth p;
               Path.tool := Path.tool p |}.
Proof.
  revert s p; induction moves as [| e moves IH]; intros s p Ht Ha Hp; simpl.
  - repeat split; try assumption.
    rewrite Hp, app_nil_r; now destruct p.
  - rewrite (handleMouseMove_drawing e s p Ht Ha Hp).
    set (s1 := with_wb _ (with_wb _ s)).
    destruct (IH s1 (push_point p (mousePoint s e)) Ht Ha eq_refl)
      as [Happ [Ha' [Hvt [Hr Hcp]]]].
    repeat split; try assumption.
    rewrite Hcp; cbn [push_point Path.points Path.color Path.lineWidth Path.tool].
    rewrite <- app_assoc; reflexivity.
Qed.

(** [X8] A stroke from press to release: with a drawing tool, a left press,
    any pointer moves and the release append one path to the store, whose
    points are the points of the document under the press and under each
    move, in order, with the current colour and tool and the stroke width
    divided by the scale; a press released without a move appends nothing.
    Either way the action ends idle, the redo stack is emptied and nothing is
    selected. *)
Theorem stroke_gesture_commits_path (e0 : MouseEvent) (moves : list MouseEvent)
        (now : N) (s : Session) :
  drawingTool (tool (app s)) ->
  button e0 = 0%nat ->
  let s' := run (MouseDown e0 :: map MouseMove moves ++ [MouseUp now]) s in
  elements (app s')
  = elements (app s) ++ match moves with
                        | [] => []
                        | _ :: _ => [strokeOf s now e0 moves]
                        end
  /\ actionRef (wb s') = none
  /\ currentPathRef (wb s') = None
  /\ undoStack (app s') = []
  /\ selectedElementId (wb s') = None.
Proof.
  intros Ht Hb s'; subst s'.
  unfold run; cbn [fold_left handle]; rewrite fold_left_app; cbn [fold_left handle].
  set (s1 := handleMouseDown e0 s).
  assert (H1 : s1 = startDrawing (clientX e0) (clientY e0)
                                 (with_wb (setSelectedElementId None) s)).
  { unfold s1, handleMouseDown; rewrite Hb.
    destruct Ht as [Ht | [Ht | Ht]]; rewrite Ht; reflexivity. }
  assert (Htool : tool (app s1) = tool (app s)) by (rewrite H1; reflexivity).
  assert (Ht1 : drawingTool (tool (app s1))) by now rewrite Htool.
  assert (Hpath :
            currentPathRef (wb s1)
            = Some {| Path.points := [mousePoint s e0];
                      Path.color := color (app s);
                      Path.lineWidth := lineWidth (app s);
                      Path.tool := tool (app s) |}).
  { rewrite H1; unfold startDrawing;
      cbn [wb app with_wb with_app currentPathRef set_currentPathRef set_actionRef
              setSelectedElementId setUndoStack color lineWidth tool].
    destruct Ht as [Ht | [Ht | Ht]]; rewrite Ht; reflexivity. }
  destruct (drawing_moves moves s1 _ Ht1 ltac:(rewrite H1; reflexivity) Hpath)
    as [Happ [Ha [Hvt [Hr Hcp]]]].
  fold (run (map MouseMove moves) s1) in *.
  set (s2 := run (map MouseMove moves) s1) in *.
  assert (Hels1 : elements (app s1) = elements (app s)) by (rewrite H1; reflexivity).
  assert (Hvt1 : viewTransform (wb s1) = viewTransform (wb s)) by (rewrite H1; reflexivity).
  assert (Hmp : forall e, mousePoint s1 e = mousePoint s e).
  { intros e; rewrite H1; reflexivity. }
  split; [| split; [| split; [| split]]].
  - unfold handleMouseUp; rewrite Ha, Hcp; cbn [Path.points].
    destruct moves as [| m moves]; cbn [map Datatypes.app List.length Nat.ltb Nat.leb].
    + cbn [app with_wb]; rewrite Happ, Hels1, app_nil_r; reflexivity.
    + cbn [app with_wb with_app]; rewrite elements_handleSetElements, Happ, Hels1.
      unfold strokeOf; rewrite Hvt, Hvt1; cbn [map].
      rewrite !Hmp, (map_ext _ _ Hmp); reflexivity.
  - apply handleMouseUp_idle.
  - apply handleMouseUp_idle.
  - unfold handleMouseUp; rewrite Ha, Hcp; cbn [Path.points].
    destruct (1 <? _)%nat; cbn [app with_wb with_app];
      rewrite ?undoStack_handleSetElements, Happ, H1; reflexivity.
  - unfold handleMouseUp; rewrite Ha, Hcp.
    assert (Hsel : selectedElementId (wb s2) = None).
    { unfold s2; clear - H1.
      assert (G : forall ms st, selectedElementId (wb st) = None ->
                                selectedElementId (wb (run (map MouseMove ms) st)) = None).
      { induction ms as [| m ms IH]; intros st Hst; simpl; [exact Hst |].
        apply IH; unfold handleMouseMove; break_branches; exact Hst. }
      apply G; rewrite H1; reflexivity. }
    destruct (1 <? _)%nat; exact Hsel.
Qed.

Lemma stroke_gesture_commits_path_witness :
  let s := {| app := Sample.peer highlighter [ImageEl Sample.photo];
              wb := Sample.board none (Some "stale") |} in
  let moves := [Sample.click 3 4; Sample.click 6 8] in
  elements (app (run (MouseDown (Sample.click 0 0) :: map MouseMove moves
                        ++ [MouseUp 1700000000006]) s))
  = [ImageEl Sample.photo; strokeOf s 1700000000006 (Sample.click 0 0) moves].
Proof.
  intros s moves.
  refine (proj1 (stroke_gesture_commits_path (Sample.click 0 0) moves 1700000000006 s _ _));
    [right; left; reflexivity | reflexivity].
Defined.

(** ** What the whiteboard sends *)

(** Every event reaches the application state through the wrapped setter and
    the setter of the redo stack alone. *)
Lemma handle_app_shape (ev : Event) (s : Session) :
  app (handle ev s) = app s
  \/ app (handle ev s) = setUndoStack [] (app s)
  \/ (exists u, app (handle ev s) = handleSetElements u (app s))
  \/ (exists u, app (handle ev s) = setUndoStack [] (handleSetElements u (app s))).
Proof.
  destruct ev as [e | e | now | now | t | t | now | e]; cbn [handle];
    unfold handleMouseDown, handleMouseMove, onMouseLeave, onTouchEnd, handleMouseUp,
      onTouchStart, onTouchMove, handleWheel, startDrawing, eraseById;
    break_branches; cbn [app with_app with_wb];
    first [ left; reflexivity
          | right; left; reflexivity
          | right; right; left; eexists; reflexivity
          | right; right; right; eexists; reflexivity ].
Qed.

Lemma handleSetElements_sent (u : SetStateAction) (a : AppState) :
  sent (handleSetElements u a) = sent a
  \/ (connOpen a = true
      /\ exists m, sent (handleSetElements u a) = sent a ++ [m] /\ storeChangeKind m).
Proof.
  unfold handleSetElements, sendSyncMessage, storeChangeKind.
  destruct (connOpen a) eqn:Hopen; break_branches; cbn [sent setElements];
    first [ left; reflexivity
          | right; split; [reflexivity |]; eexists; split; [reflexivity |];
            cbn [type]; tauto ].
Qed.

Lemma handleSetElements_fixed (u : SetStateAction) (a : AppState) :
  connOpen (handleSetElements u a) = connOpen a
  /\ tool (handleSetElements u a) = tool a
  /\ color (handleSetElements u a) = color a
  /\ lineWidth (handleSetElements u a) = lineWidth a.
Proof.
  unfold handleSetElements, sendSyncMessage.
  destruct (connOpen a) eqn:Hopen; break_branches;
    cbn [setElements connOpen tool color lineWidth]; repeat split;
    solve [assumption | reflexivity].
Qed.

Lemma event_sends_at_most_one_message_aux (ev : Event) (s : Session) :
  (sent (app (handle ev s)) = sent (app s)
   \/ (connOpen (app s) = true
       /\ exists m,
           sent (app (handle ev s)) = sent (app s) ++ [m] /\ storeChangeKind m))
  /\ connOpen (app (handle ev s)) = connOpen (app s).
Proof.
  destruct (handle_app_shape ev s) as [H | [H | [[u H] | [u H]]]]; rewrite H;
    cbn [setUndoStack sent connOpen].
  - split; [now left | reflexivity].
  - split; [now left | reflexivity].
  - split; [apply handleSetElements_sent | apply handleSetElements_fixed].
  - split; [apply handleSetElements_sent | apply handleSetElements_fixed].
Qed.

(** [X9] One event of the canvas sends at most one message, an
    [ADD_ELEMENT] or a [REMOVE_ELEMENT] and that only on an open channel; it
    never changes the tool, the colour, the stroke width or the channel. *)
Theorem event_sends_at_most_one_message (ev : Event) (s : Session) :
  (sent (app (handle ev s)) = sent (app s)
   \/ (connOpen (app s) = true
       /\ exists m,
           sent (app (handle ev s)) = sent (app s) ++ [m] /\ storeChangeKind m))
  /\ connOpen (app (handle ev s)) = connOpen (app s)
  /\ tool (app (handle ev s)) = tool (app s)
  /\ color (app (handle ev s)) = color (app s)
  /\ lineWidth (app (handle ev s)) = lineWidth (app s).
Proof.
  destruct (handle_app_shape ev s) as [H | [H | [[u H] | [u H]]]]; rewrite H;
    cbn [setUndoStack sent connOpen tool color lineWidth].
  - split; [now left | repeat split].
  - split; [now left | repeat split].
  - split; [apply handleSetElements_sent | apply handleSetElements_fixed].
  - split; [apply handleSetElements_sent | apply handleSetElements_fixed].
Qed.

(** [X10] With the data channel closed nothing is sent: over any sequence of
    events of the canvas the trace of sent messages stays as it was, and the
    channel stays closed. *)
Theorem closed_channel_sends_nothing (evs : list Event) (s : Session) :
  connOpen (app s) = false ->
  sent (app (run evs s)) = sent (app s)
  /\ connOpen (app (run evs s)) = false.
Proof.
  revert s; induction evs as [| ev evs IH]; intros s Hc; simpl; [now split |].
  destruct (event_sends_at_most_one_message_aux ev s) as [Hs Ho].
  destruct (IH (handle ev s)) as [Hs' Ho']; [congruence |].
  split; [| exact Ho'].
  rewrite Hs'; destruct Hs as [Hs | [Hopen _]]; congruence.
Qed.

Lemma closed_channel_sends_nothing_witness :
  let s := {| app := {| tool := pen; color := "#000000"; lineWidth := 4;
                        elements := [ImageEl Sample.photo]; undoStack := [];
                        connOpen := false; sent := [] |};
              wb := Sample.board none None |} in
  sent (app (run [MouseDown (Sample.click 0 0); MouseMove (Sample.click 3 4);
                  MouseUp 1700000000007] s)) = []
  /\ List.length
       (elements (app (run [MouseDown (Sample.click 0 0); MouseMove (Sample.click 3 4);
                            MouseUp 1700000000007] s))) = 2%nat.
Proof.
  intros s; split; [| reflexivity].
  refine (proj1 (closed_channel_sends_nothing _ s _)); reflexivity.
Defined.

Lemma length_movingUpdate (sel : option string) (dx dy : Q) (store : list CanvasElement) :
  List.length (movingUpdate sel dx dy store) = List.length store.
Proof. unfold movingUpdate; apply length_map. Qed.

Lemma length_resizingUpdate (sel : option string) (h : option ResizeHandle)
      (point : Point.t) (store : list CanvasElement) :
  List.length (resizingUpdate sel h point store) = List.length store.
Proof. unfold resizingUpdate; apply length_map. Qed.

Lemma handleMouseMove_sent (e : MouseEvent) (s : Session) :
  sent (app (handleMouseMove e s)) = sent (app s).
Proof.
  unfold handleMouseMove; break_branches; cbn [app with_app with_wb];
    first [ reflexivity
          | apply sent_handleSetElements_same_length, length_resizingUpdate
          | apply sent_handleSetElements_same_length, length_movingUpdate ].
Qed.

(** [X11] Pointer moves send nothing, also on an open channel: the changes a
    [moving] or [resizing] action makes to an image in place keep the length
    of the store, and the wrapped setter sends only when the length changes.
    Over any sequence of mouse and touch moves the trace of sent messages
    stays as it was. *)
Theorem pointer_moves_send_nothing (evs : list Event) (s : Session) :
  Forall isPointerMove evs ->
  sent (app (run evs s)) = sent (app s).
Proof.
  intros Hmv; revert s; induction Hmv as [| ev evs Hev _ IH]; intros s; simpl;
    [reflexivity |].
  rewrite IH; destruct ev; try contradiction; cbn [handle].
  - apply handleMouseMove_sent.
  - now rewrite onTouchMove_app.
Qed.

Lemma pointer_moves_send_nothing_witness :
  let s := {| app := Sample.peer select [PathEl Sample.stroke; ImageEl Sample.photo];
              wb := Sample.board moving (Some (ImageElement.id Sample.photo)) |} in
  let s' := run [MouseMove (Sample.click 30 40); MouseMove (Sample.click 70 10)] s in
  sent (app s') = []
  /\ elements (app s') <> elements (app s).
Proof.
  intros s s'; split.
  - apply (pointer_moves_send_nothing
             [MouseMove (Sample.click 30 40); MouseMove (Sample.click 70 10)] s).
    repeat constructor.
  - vm_compute; discriminate.
Defined.

(** ** Convergence of the two stores *)

Lemma sentSince_snoc (a a' : AppState) (m : SyncMessage) :
  sent a' = sent a ++ [m] -> sentSince a a' = [m].
Proof.
  intros H; unfold sentSince; rewrite H, skipn_app, Nat.sub_diag, skipn_all; reflexivity.
Qed.

Lemma sentSince_same (a a' : AppState) :
  sent a' = sent a -> sentSince a a' = [].
Proof. intros H; unfold sentSince; rewrite H; apply skipn_all. Qed.

Lemma filter_length_same {A : Type} (keep : A -> bool) (l : list A) :
  List.length (filter keep l) = List.length l -> filter keep l = l.
Proof.
  induction l as [| a l IH]; simpl; [reflexivity |].
  destruct (keep a); simpl; intros H.
  - f_equal; apply IH; lia.
  - pose proof (filter_length_le keep l); lia.
Qed.

(** The element that the wrapped setter reports as removed after a removal by
    id is the first one with that id. *)
Lemma find_removed_by_id (id : string) (store : list CanvasElement) :
  (List.length (withoutId id store) < List.length store)%nat ->
  exists removed,
    find (fun e => negb (existsb (String.eqb (elId e)) (map elId (withoutId id store))))
         store = Some removed
    /\ elId removed = id.
Proof.
  intros Hlen.
  assert (Hmem : forall e, In e store ->
                           existsb (String.eqb (elId e)) (map elId (withoutId id store))
                           = negb (elId e =? id)%string).
  { intros e He; destruct (elId e =? id)%string eqn:E; cbn [negb].
    - apply String.eqb_eq in E.
      destruct (existsb _ _) eqn:X; [| reflexivity].
      apply existsb_exists in X; destruct X as [x [Hx Hxe]].
      apply in_map_iff in Hx; destruct Hx as [e' [He' Hin]].
      apply filter_In in Hin; destruct Hin as [_ Hne].
      apply String.eqb_eq in Hxe; rewrite <- He', E in Hxe.
      rewrite <- Hxe, String.eqb_refl in Hne; discriminate.
    - apply existsb_exists; exists (elId e); split; [| apply String.eqb_refl].
      apply in_map, filter_In; split; [exact He | now rewrite E]. }
  assert (Hex : exists e, In e store /\ elId e = id).
  { clear Hmem; unfold withoutId in Hlen; induction store as [| e store IH];
      simpl in *; [lia |].
    destruct (elId e =? id)%string eqn:E; simpl in Hlen.
    - exists e; split; [now left | now apply String.eqb_eq].
    - destruct IH as [x [Hx Hid]]; [lia |]; exists x; split; [now right | exact Hid]. }
  clear Hlen; revert Hmem Hex; generalize (map elId (withoutId id store)) as ids.
  induction store as [| e store IH]; intros ids Hmem [x [Hx Hid]]; [contradiction |].
  cbn [find]; rewrite (Hmem e (or_introl eq_refl)), negb_involutive.
  destruct (elId e =? id)%string eqn:E.
  - exists e; split; [reflexivity | now apply String.eqb_eq].
  - apply IH; [intros e' He'; apply Hmem; now right |].
    destruct Hx as [-> | Hx]; [apply String.eqb_neq in E; contradiction |].
    exists x; split; assumption.
Qed.

Lemma handleSetElements_withoutId (id : string) (a : AppState) :
  elements (handleSetElements (Updater (withoutId id)) a) = withoutId id (elements a)
  /\ (connOpen a = true ->
      sentSince a (handleSetElements (Updater (withoutId id)) a) =
      if (List.length (withoutId id (elements a)) <? List.length (elements a))%nat
      then [RemoveElement id] else []).
Proof.
  split; [apply elements_handleSetElements |].
  intros Hopen; unfold handleSetElements.
  pose proof (filter_length_le (fun el => negb (elId el =? id)%string) (elements a)) as Hle.
  fold (withoutId id (elements a)) in Hle.
  assert (Hnlt : (List.length (elements a) <? List.length (withoutId id (elements a)))%nat
                 = false) by (apply Nat.ltb_ge; exact Hle).
  rewrite Hnlt.
  destruct (List.length (withoutId id (elements a)) <? List.length (elements a))%nat eqn:Hlt.
  - apply Nat.ltb_lt in Hlt.
    destruct (find_removed_by_id id (elements a) Hlt) as [removed [Hf Hid]].
    rewrite Hf, Hid.
    apply sentSince_snoc; cbn [sent setElements]; unfold sendSyncMessage;
      rewrite Hopen; reflexivity.
  - now apply sentSince_same.
Qed.

Lemma applyAll_remove (id : string) (g : AppState) :
  applyAll [RemoveElement id] g = Done (setElements (withoutId id (elements g)) g).
Proof. reflexivity. Qed.

Lemma erase_converges (id : string) (s : Session) (g : AppState) :
  connOpen (app s) = true ->
  elements g = elements (app s) ->
  exists g',
    applyAll (sentSince (app s) (app (eraseById id s))) g = Done g'
    /\ elements g' = elements (app (eraseById id s)).
Proof.
  intros Hopen Hsame.
  assert (Hsent : sentSince (app s) (app (eraseById id s))
                  = sentSince (app s)
                              (handleSetElements (Updater (withoutId id)) (app s))).
  { reflexivity. }
  destruct (handleSetElements_withoutId id (app s)) as [Hel Hmsg].
  rewrite Hsent, (Hmsg Hopen), elements_eraseById.
  fold (withoutId id (elements (app s))).
  destruct (_ <? _)%nat eqn:Hlt.
  - eexists; split; [apply applyAll_remove |]; cbn [elements setElements].
    now rewrite Hsame.
  - exists g; split; [reflexivity |].
    rewrite Hsame; symmetry; apply filter_length_same.
    apply Nat.ltb_ge in Hlt.
    pose proof (filter_length_le (fun el => negb (elId el =? id)%string)
                                 (elements (app s))).
    unfold withoutId in *; lia.
Qed.

(** [X12] Erasing converges: when a press or a touch with the stroke eraser
    removes elements on a peer whose channel is open, the messages it sends,
    one [REMOVE_ELEMENT] with the id or none when nothing was removed, bring a
    peer that held the same store to the same store again. *)
Theorem stroke_eraser_converges (ev : Event) (s : Session) (g : AppState) :
  tool (app s) = stroke_eraser ->
  (exists e, ev = MouseDown e) \/ (exists t, ev = TouchStart t) ->
  connOpen (app s) = true ->
  elements g = elements (app s) ->
  exists g',
    applyAll (sentSince (app s) (app (handle ev s))) g = Done g'
    /\ elements g' = elements (app (handle ev s)).
Proof.
  intros Ht Hev Hopen Hsame.
  assert (Hnone : exists g',
             applyAll (sentSince (app s) (app s)) g = Done g'
             /\ elements g' = elements (app s)).
  { exists g; split; [now rewrite sentSince_same | exact Hsame]. }
  destruct Hev as [[e ->] | [t ->]]; cbn [handle].
  - unfold handleMouseDown; rewrite Ht; cbn [Tool_eqb].
    destruct (button e =? 1)%nat; [exact Hnone |].
    destruct (button e =? 0)%nat; [| exact Hnone].
    destruct (getPathAtPoint _ _ _); [now apply erase_converges |].
    destruct (getElementAtPoint _ _); [| exact Hnone].
    destruct (negb _); [now apply erase_converges | exact Hnone].
  - unfold onTouchStart; rewrite Ht; cbn [Tool_eqb].
    destruct (getPathAtPoint _ _ _); [now apply erase_converges | exact Hnone].
Qed.

Lemma stroke_eraser_converges_witness :
  exists g',
    applyAll (sentSince (app Sample.erasing)
                        (app (handle (MouseDown (Sample.click 150 80)) Sample.erasing)))
             (Sample.peer pen [ImageEl Sample.photo]) = Done g'
    /\ elements g' = [].
Proof.
  destruct (stroke_eraser_converges (MouseDown (Sample.click 150 80)) Sample.erasing
              (Sample.peer pen [ImageEl Sample.photo]) eq_refl
              (or_introl (ex_intro _ (Sample.click 150 80) eq_refl)) eq_refl eq_refl)
    as [g' [Hrun Hel]].
  exists g'; split; [exact Hrun | exact Hel].
Defined.

Lemma elId_wirePayload (el : CanvasElement) : elId (wirePayload el) = elId el.
Proof.
  destruct el as [p | i]; cbn [wirePayload]; [reflexivity |].
  destruct (image_is_data_url _); reflexivity.
Qed.

Lemma handleSetElements_append (el : CanvasElement) (a : AppState) :
  elements (handleSetElements (Updater (fun prev => prev ++ [el])) a) = elements a ++ [el]
  /\ (connOpen a = true ->
      sentSince a (handleSetElements (Updater (fun prev => prev ++ [el])) a)
      = [AddElement (wirePayload el)]).
Proof.
  split; [apply elements_handleSetElements |].
  intros Hopen; apply sentSince_snoc; unfold handleSetElements.
  rewrite length_app; cbn [List.length].
  assert (Hlt : (List.length (elements a) <? List.length (elements a) + 1)%nat = true)
    by (apply Nat.ltb_lt; lia).
  rewrite Hlt.
  replace (List.length (elements a) + 1 - 1)%nat with (List.length (elements a)) by lia.
  rewrite nth_error_app2, Nat.sub_diag by lia; cbn [nth_error].
  unfold sendSyncMessage; cbn [sent setElements]; rewrite Hopen.
  destruct el as [p | i]; [reflexivity |].
  cbn [wirePayload]; destruct (image_is_data_url _); reflexivity.
Qed.

Lemma data_url_not_empty (s : string) :
  String.prefix "data:" s = true -> (s =? "")%string = false.
Proof. destruct s; [discriminate | reflexivity]. Qed.

(** [X13] What goes on the wire for an element and comes back: the receiver's
    copy has the same id, rectangle and lock flag, so it is hit by the same
    points; a path comes back as it was; an image whose bitmap is a data URL
    is sent without the bitmap, with the URL as its source, and gets a bitmap
    of that URL back. *)
Theorem wire_round_trip (el : CanvasElement) :
  elId (rehydrate (wirePayload el)) = elId el
  /\ (forall p, el = PathEl p -> rehydrate (wirePayload el) = el)
  /\ (forall i,
         el = ImageEl i ->
         exists i',
           rehydrate (wirePayload el) = ImageEl i'
           /\ ImageElement.x i' = ImageElement.x i
           /\ ImageElement.y i' = ImageElement.y i
           /\ ImageElement.width i' = ImageElement.width i
           /\ ImageElement.height i' = ImageElement.height i
           /\ ImageElement.locked i' = ImageElement.locked i
           /\ (forall point, pointInImage point i' = pointInImage point i)
           /\ (image_is_data_url (ImageElement.image i) = true ->
               (exists url,
                   wirePayload el
                   = ImageEl {| ImageElement.id := ImageElement.id i;
                                ImageElement.image := None;
                                ImageElement.src := Some url;
                                ImageElement.x := ImageElement.x i;
                                ImageElement.y := ImageElement.y i;
                                ImageElement.width := ImageElement.width i;
                                ImageElement.height := ImageElement.height i;
                                ImageElement.locked := ImageElement.locked i |}
                   /\ ImageElement.image i = Some (newImage url)
                   /\ ImageElement.src i' = Some url)
               /\ ImageElement.image i' = ImageElement.image i)).
Proof.
  split; [now rewrite elId_rehydrate, elId_wirePayload |].
  split; [intros p ->; reflexivity |].
  intros i ->; cbn [wirePayload].
  destruct (image_is_data_url (ImageElement.image i)) eqn:Hd.
  - destruct (ImageElement.image i) as [[url] |] eqn:Him; [| discriminate].
    cbn [image_is_data_url img_src] in Hd.
    pose proof (data_url_not_empty url Hd) as Hne.
    cbn [rehydrate ImageElement.src option_map img_src truthy_string]; rewrite Hne;
      cbn [negb or_else].
    eexists; split; [reflexivity |]; cbn.
    repeat split; try reflexivity.
    exists url; repeat split; reflexivity.
  - cbn [rehydrate].
    destruct (truthy_string (ImageElement.src i)); eexists; split; try reflexivity;
      cbn; repeat split; try reflexivity; discriminate.
Qed.

Lemma handleMouseUp_app (now : N) (s : Session) :
  app (handleMouseUp now s) = app s
  \/ app (handleMouseUp now s) = setUndoStack [] (app s)
  \/ exists p,
      actionRef (wb s) = drawing
      /\ currentPathRef (wb s) = Some p
      /\ (2 <= List.length (Path.points p))%nat
      /\ app (handleMouseUp now s)
         = handleSetElements
             (Updater
                (fun prev =>
                   prev ++
                   [PathEl {| PathElement.id := Date_now_toString now;
                              PathElement.path :=
                                {| Path.points := Path.points p;
                                   Path.color := Path.color p;
                                   Path.lineWidth :=
                                     Path.lineWidth p / scale (viewTransform (wb s));
                                   Path.tool := Path.tool p |} |}])) (app s).
Proof.
  unfold handleMouseUp.
  destruct (actionRef (wb s)) eqn:Ha; cbn [app with_wb with_app]; try (now left);
    try (right; left; reflexivity).
  destruct (currentPathRef (wb s)) as [p |] eqn:Hp; [| now left].
  destruct (1 <? List.length (Path.points p))%nat eqn:Hlen; [| now left].
  right; right; exists p; repeat split; try reflexivity.
  apply Nat.ltb_lt in Hlen; lia.
Qed.

(** [X14] Drawing converges when the id is new: on an open channel the path
    that a release commits is sent as one [ADD_ELEMENT], and a peer that held
    the same store, in which no element has the id taken from the clock, holds
    the same store again after applying what was sent.  When the store
    already holds that id, the committing peer appends the path all the same
    while the receiving peer drops the message, and the stores differ. *)
Theorem pointer_up_converges (now : N) (s : Session) (g : AppState) :
  connOpen (app s) = true ->
  elements g = elements (app s) ->
  (hasId (Date_now_toString now) (elements (app s)) = false ->
   exists g',
     applyAll (sentSince (app s) (app (handleMouseUp now s))) g = Done g'
     /\ elements g' = elements (app (handleMouseUp now s)))
  /\ (hasId (Date_now_toString now) (elements (app s)) = true ->
      forall p,
        actionRef (wb s) = drawing ->
        currentPathRef (wb s) = Some p ->
        (2 <= List.length (Path.points p))%nat ->
        exists g',
          applyAll (sentSince (app s) (app (handleMouseUp now s))) g = Done g'
          /\ elements g' = elements (app s)
          /\ List.length (elements (app (handleMouseUp now s)))
             = S (List.length (elements g'))).
Proof.
  intros Hopen Hsame; split.
  - intros Hfresh.
    destruct (handleMouseUp_app now s) as [H | [H | [p [_ [_ [_ H]]]]]]; rewrite H.
    + exists g; split; [now rewrite sentSince_same | exact Hsame].
    + exists g; split; [now rewrite sentSince_same | exact Hsame].
    + match goal with
      | |- context [handleSetElements (Updater (fun prev => prev ++ [?el])) _] =>
          destruct (handleSetElements_append el (app s)) as [Hel Hmsg]
      end.
      rewrite (Hmsg Hopen), Hel.
      eexists; split; [cbn [applyAll]; rewrite handleRemoteData_add; reflexivity |].
      cbn [elements setElements wirePayload elId PathElement.id rehydrate].
      now rewrite Hsame, Hfresh.
  - intros Hdup p Ha Hp Hlen.
    unfold handleMouseUp; rewrite Ha, Hp.
    assert (H1 : (1 <? List.length (Path.points p))%nat = true)
      by (apply Nat.ltb_lt; lia).
    rewrite H1; cbn [app with_wb with_app].
    match goal with
    | |- context [handleSetElements (Updater (fun prev => prev ++ [?el])) _] =>
        destruct (handleSetElements_append el (app s)) as [Hel Hmsg]
    end.
    rewrite (Hmsg Hopen), Hel.
    eexists; split; [cbn [applyAll]; rewrite handleRemoteData_add; reflexivity |].
    cbn [elements setElements wirePayload elId PathElement.id rehydrate].
    rewrite Hsame, Hdup; split; [reflexivity |].
    rewrite length_app; cbn [List.length]; lia.
Qed.

Lemma pointer_up_converges_witness :
  let s := {| app := Sample.peer pen [ImageEl Sample.photo]; wb := Sample.drawingBoard |} in
  exists g',
    applyAll (sentSince (app s) (app (handleMouseUp 1700000000008 s)))
             (Sample.peer select [ImageEl Sample.photo]) = Done g'
    /\ elements g' = elements (app (handleMouseUp 1700000000008 s)).
Proof.
  intros s.
  apply (proj1 (pointer_up_converges 1700000000008 s
                  (Sample.peer select [ImageEl Sample.photo]) eq_refl eq_refl)).
  reflexivity.
Defined.

(** ** Removal and the uniqueness of ids *)

Lemma hasId_withoutId (id : string) (store : list CanvasElement) :
  hasId id (withoutId id store) = false.
Proof.
  unfold hasId, withoutId; induction store as [| e store IH]; simpl; [reflexivity |].
  destruct (elId e =? id)%string eqn:E; simpl; [exact IH | now rewrite E].
Qed.

Lemma withoutId_absent (id : string) (store : list CanvasElement) :
  hasId id store = false -> withoutId id store = store.
Proof. apply filter_absent. Qed.

Lemma withoutId_unique (below above : list CanvasElement) (e : CanvasElement) :
  NoDup (map elId (below ++ e :: above)) ->
  withoutId (elId e) (below ++ e :: above) = below ++ above.
Proof.
  intros Hnd; unfold withoutId; rewrite filter_app; cbn [filter].
  rewrite String.eqb_refl; cbn [negb].
  rewrite map_app in Hnd; cbn [map] in Hnd.
  pose proof (NoDup_remove_2 _ _ _ Hnd) as Hnotin.
  rewrite in_app_iff in Hnotin.
  fold (withoutId (elId e) below); fold (withoutId (elId e) above).
  rewrite !withoutId_absent; [reflexivity | |].
  - destruct (hasId (elId e) above) eqn:H; [| reflexivity].
    apply hasId_In in H; tauto.
  - destruct (hasId (elId e) below) eqn:H; [| reflexivity].
    apply hasId_In in H; tauto.
Qed.

(** [X15] [RemoveElement(id)] removes every element with that id and nothing
    else, the rest keeping its order: afterwards no element has the id, an
    element is in the store exactly when it was before and has another id,
    applying the message again changes nothing, and in a store with unique
    ids just the one element with the id goes. *)
Theorem remove_element_removes_exactly (id : string) (st : AppState) :
  exists st',
    handleRemoteData (RemoveElement id) st = Done st'
    /\ elements st' = withoutId id (elements st)
    /\ hasId id (elements st') = false
    /\ (forall el, In el (elements st') <-> In el (elements st) /\ elId el <> id)
    /\ handleRemoteData (RemoveElement id) st' = Done st'
    /\ (forall below e above,
           NoDup (map elId (elements st)) ->
           elements st = below ++ e :: above ->
           elId e = id ->
           elements st' = below ++ above).
Proof.
  eexists; split; [reflexivity |]; cbn [elements setElements payload RemoveElement id_is].
  fold (withoutId id (elements st)).
  split; [reflexivity |]; split; [apply hasId_withoutId |]; split; [| split].
  - intros el; unfold withoutId; rewrite filter_In, negb_true_iff, String.eqb_neq; tauto.
  - unfold handleRemoteData; cbn [type payload RemoveElement String.eqb Ascii.eqb Bool.eqb
                                       elements setElements id_is].
    fold (withoutId id (withoutId id (elements st))).
    rewrite (withoutId_absent id (withoutId id (elements st))) by apply hasId_withoutId.
    reflexivity.
  - intros below e above Hnd Heq Hid; rewrite Heq in *; rewrite <- Hid.
    now apply withoutId_unique.
Qed.

Lemma map_elId_merge (p : Partial.t) (store : list CanvasElement) :
  map elId (map (fun el => if (elId el =? Partial.id p)%string then merge el p else el) store)
  = map elId store.
Proof.
  rewrite map_map; apply map_ext; intros el.
  destruct (elId el =? Partial.id p)%string eqn:E; [| reflexivity].
  apply String.eqb_eq in E; destruct el;
    cbn [merge elId PathElement.id ImageElement.id] in *; now symmetry.
Qed.

Lemma NoDup_snoc_fresh (store : list CanvasElement) (el : CanvasElement) :
  NoDup (map elId store) -> hasId (elId el) store = false ->
  NoDup (map elId (store ++ [el])).
Proof.
  intros Hnd Hfresh; rewrite map_app; cbn [map].
  apply NoDup_app; [exact Hnd | repeat constructor; intros [] |].
  intros id Hin [<- | []].
  apply hasId_In in Hin; congruence.
Qed.

Lemma handleRemoteData_keeps_unique_ids (msg : SyncMessage) (st st' : AppState) :
  NoDup (map elId (elements st)) ->
  type msg <> "SYNC_FULL_STATE" ->
  handleRemoteData msg st = Done st' ->
  NoDup (map elId (elements st')).
Proof.
  intros Hnd Hkind H; unfold handleRemoteData in H.
  destruct (String.eqb_spec (type msg) "SYNC_FULL_STATE") as [E | _]; [contradiction |].
  destruct (type msg =? "ADD_ELEMENT")%string.
  { destruct (payload msg) as [| els | newEl | id | p]; try discriminate.
    - destruct (find _ (elements st)) eqn:Hf.
      + inversion H; subst; exact Hnd.
      + apply find_hasId in Hf.
        assert (Hr : forall x, elId x = elId newEl ->
                               NoDup (map elId (elements st ++ [x]))).
        { intros x Hx; apply NoDup_snoc_fresh; [exact Hnd | now rewrite Hx]. }
        destruct newEl as [pe | i].
        * inversion H; subst; now apply Hr.
        * destruct (truthy_string _); inversion H; subst; now apply Hr.
    - destruct (find _ (elements st)); [| discriminate].
      inversion H; subst; exact Hnd. }
  destruct (type msg =? "REMOVE_ELEMENT")%string.
  { inversion H; subst; cbn [elements setElements]; now apply NoDup_ids_filter. }
  destruct (type msg =? "CLEAR_BOARD")%string.
  { inversion H; subst; constructor. }
  destruct (type msg =? "UPDATE_ELEMENT")%string; [| inversion H; subst; exact Hnd].
  destruct (payload msg) as [| els | e | id | p].
  - destruct (elements st); [| discriminate]; inversion H; subst; constructor.
  - inversion H; subst; exact Hnd.
  - destruct (find _ (elements st)); [discriminate |]; inversion H; subst; exact Hnd.
  - inversion H; subst; exact Hnd.
  - inversion H; subst; cbn [elements setElements]; now rewrite map_elId_merge.
Qed.

(** [X16] The ids of the store stay unique under received messages: when a
    store with unique ids takes any sequence of messages none of which is a
    [SYNC_FULL_STATE], and the handler returns, the ids are unique again; an
    [UPDATE_ELEMENT] changes neither the ids nor their order, and a
    [SYNC_FULL_STATE] leaves exactly the ids of its payload. *)
Theorem received_messages_keep_ids_unique (msgs : list SyncMessage) (st st' : AppState) :
  NoDup (map elId (elements st)) ->
  Forall (fun m => type m <> "SYNC_FULL_STATE") msgs ->
  applyAll msgs st = Done st' ->
  NoDup (map elId (elements st'))
  /\ (forall p a,
         exists a',
           handleRemoteData (UpdateElement p) a = Done a'
           /\ map elId (elements a') = map elId (elements a))
  /\ (forall els a,
         exists a',
           handleRemoteData (FullState els) a = Done a'
           /\ map elId (elements a') = map elId els).
Proof.
  intros Hnd Hall Hrun; split; [| split].
  - revert st Hnd Hrun; induction Hall as [| m msgs Hm _ IH]; intros st Hnd Hrun;
      cbn [applyAll] in Hrun.
    + inversion Hrun; subst; exact Hnd.
    + destruct (handleRemoteData m st) as [st1 | |] eqn:H1; try discriminate.
      apply (IH st1); [| exact Hrun].
      now apply (handleRemoteData_keeps_unique_ids m st st1).
  - intros p a; eexists; split; [reflexivity |].
    cbn [elements setElements payload UpdateElement]; apply map_elId_merge.
  - intros els a; eexists; split; [apply handleRemoteData_full |].
    cbn [elements setElements]; apply map_elId_rehydrate.
Qed.

Lemma received_messages_keep_ids_unique_witness :
  exists st',
    applyAll [AddElement (ImageEl Sample.photo); AddElement (PathEl Sample.stroke);
              UpdateElement (lockPatch "pdf-1700000000002-1" true);
              RemoveElement "nobody"]
             (Sample.peer pen Sample.batch) = Done st'
    /\ NoDup (map elId (elements st')).
Proof.
  eexists; split; [reflexivity |].
  refine (proj1 (received_messages_keep_ids_unique
                   [AddElement (ImageEl Sample.photo); AddElement (PathEl Sample.stroke);
                    UpdateElement (lockPatch "pdf-1700000000002-1" true);
                    RemoveElement "nobody"]
                   (Sample.peer pen Sample.batch) _ _ _ eq_refl)).
  - repeat constructor; simpl; intuition discriminate.
  - repeat constructor; discriminate.
Defined.

(** ** The stroke eraser on a store with unique ids *)

Lemma getPathAtPoint_Some_split (vt : ViewTransform) (store : list CanvasElement)
      (point : Point.t) (pe : PathElement.t) :
  getPathAtPoint vt store point = Some pe ->
  exists below above, store = below ++ PathEl pe :: above /\ pathHit vt point pe.
Proof.
  unfold getPathAtPoint; intros H.
  apply getPathAtPoint_loop_Some in H; destruct H as [over [under [Heq [Hhit _]]]].
  exists (rev under), (rev over); split; [| exact Hhit].
  rewrite <- (rev_involutive store), Heq, rev_app_distr; simpl.
  now rewrite <- app_assoc.
Qed.

Lemma getElementAtPoint_Some_split (store : list CanvasElement) (point : Point.t)
      (i : ImageElement.t) :
  getElementAtPoint store point = Some i ->
  exists below above, store = below ++ ImageEl i :: above /\ insideImage point i.
Proof.
  unfold getElementAtPoint; intros H.
  apply getElementAtPoint_loop_Some in H; destruct H as [over [under [Heq [Hin _]]]].
  exists (rev under), (rev over); split; [| exact Hin].
  rewrite <- (rev_involutive store), Heq, rev_app_distr; simpl.
  now rewrite <- app_assoc.
Qed.

Lemma getPathAtPoint_None_all (vt : ViewTransform) (store : list CanvasElement)
      (point : Point.t) :
  getPathAtPoint vt store point = None ->
  forall pe, In (PathEl pe) store -> ~ pathHit vt point pe.
Proof.
  unfold getPathAtPoint; intros H pe Hin.
  apply (proj1 (getPathAtPoint_loop_None vt point (rev store)) H).
  rewrite <- in_rev; exact Hin.
Qed.

Lemma erase_path_unique (s : Session) (point : Point.t) (pe : PathElement.t) :
  NoDup (map elId (elements (app s))) ->
  getPathAtPoint (viewTransform (wb s)) (elements (app s)) point = Some pe ->
  erasedAt s point (elements (app (eraseById (PathElement.id pe) s))).
Proof.
  intros Hnd Hp; right.
  destruct (getPathAtPoint_Some_split _ _ _ _ Hp) as [below [above [Heq Hhit]]].
  exists below, (PathEl pe), above; split; [exact Heq |]; split; [| exact Hhit].
  rewrite elements_eraseById; fold (withoutId (PathElement.id pe) (elements (app s))).
  rewrite Heq; apply (withoutId_unique below above (PathEl pe)).
  now rewrite <- Heq.
Qed.

Lemma erase_image_unique (s : Session) (point : Point.t) (i : ImageElement.t) :
  NoDup (map elId (elements (app s))) ->
  getPathAtPoint (viewTransform (wb s)) (elements (app s)) point = None ->
  getElementAtPoint (elements (app s)) point = Some i ->
  truthy_bool (ImageElement.locked i) = false ->
  erasedAt s point (elements (app (eraseById (ImageElement.id i) s))).
Proof.
  intros Hnd Hp Hi Hl; right.
  destruct (getElementAtPoint_Some_split _ _ _ Hi) as [below [above [Heq Hin]]].
  exists below, (ImageEl i), above; split; [exact Heq |]; split.
  - rewrite elements_eraseById; fold (withoutId (ImageElement.id i) (elements (app s))).
    rewrite Heq; apply (withoutId_unique below above (ImageEl i)).
    now rewrite <- Heq.
  - split; [exact Hin |]; split; [exact Hl |].
    now apply getPathAtPoint_None_all.
Qed.

Lemma erasedAt_keeps_locked (s : Session) (point : Point.t) (after : list CanvasElement)
      (i : ImageElement.t) :
  erasedAt s point after ->
  In (ImageEl i) (elements (app s)) ->
  truthy_bool (ImageElement.locked i) = true ->
  In (ImageEl i) after.
Proof.
  intros [-> | [below [el [above [Heq [-> Her]]]]]] Hin Hl; [exact Hin |].
  rewrite Heq in Hin; apply in_app_iff in Hin; apply in_app_iff.
  destruct Hin as [Hin | [E | Hin]]; [now left | | now right].
  subst el; destruct Her as [_ [Hun _]]; congruence.
Qed.

(** [X17] On a store with unique ids a press or a touch with the stroke
    eraser removes at most one element and keeps the order of the rest: the
    store stays as it is, or it loses one element that is a path hit at the
    point or, for the mouse and with no path hit, an unlocked image under the
    point.  A locked image is never removed, and the board state is not
    touched. *)
Theorem stroke_eraser_removes_one_erasable (s : Session) :
  NoDup (map elId (elements (app s))) ->
  tool (app s) = stroke_eraser ->
  (forall e,
      button e = 0%nat ->
      erasedAt s (mousePoint s e) (elements (app (handleMouseDown e s)))
      /\ wb (handleMouseDown e s) = wb s)
  /\ (forall t,
         erasedAt s (eventPoint s (touchX t) (touchY t))
                  (elements (app (onTouchStart t s)))
         /\ wb (onTouchStart t s) = wb s)
  /\ (forall ev i,
         (exists e, ev = MouseDown e) \/ (exists t, ev = TouchStart t) ->
         In (ImageEl i) (elements (app s)) ->
         truthy_bool (ImageElement.locked i) = true ->
         In (ImageEl i) (elements (app (handle ev s)))).
Proof.
  intros Hnd Ht.
  assert (Hmouse : forall e,
             button e = 0%nat ->
             erasedAt s (mousePoint s e) (elements (app (handleMouseDown e s)))
             /\ wb (handleMouseDown e s) = wb s).
  { intros e Hb; unfold handleMouseDown, mousePoint; rewrite Hb, Ht; cbn [Nat.eqb Tool_eqb].
    destruct (getPathAtPoint _ _ _) as [pe |] eqn:Hp.
    - split; [now apply erase_path_unique | reflexivity].
    - destruct (getElementAtPoint _ _) as [i |] eqn:Hi; [| split; [now left | reflexivity]].
      destruct (truthy_bool (ImageElement.locked i)) eqn:Hl; cbn [negb];
        [split; [now left | reflexivity] |].
      split; [now apply erase_image_unique | reflexivity]. }
  assert (Htouch : forall t,
             erasedAt s (eventPoint s (touchX t) (touchY t))
                      (elements (app (onTouchStart t s)))
             /\ wb (onTouchStart t s) = wb s).
  { intros t; unfold onTouchStart; rewrite Ht; cbn [Tool_eqb].
    destruct (getPathAtPoint _ _ _) as [pe |] eqn:Hp.
    - split; [now apply erase_path_unique | reflexivity].
    - split; [now left | reflexivity]. }
  split; [exact Hmouse |]; split; [exact Htouch |].
  intros ev i [[e ->] | [t ->]] Hin Hl; cbn [handle].
  - destruct (Nat.eq_dec (button e) 0) as [Hb | Hb].
    + eapply erasedAt_keeps_locked; [apply (Hmouse e Hb) | exact Hin | exact Hl].
    + unfold handleMouseDown; rewrite Ht; cbn [Tool_eqb].
      destruct (button e =? 1)%nat; [exact Hin |].
      apply Nat.eqb_neq in Hb; rewrite Hb; exact Hin.
  - eapply erasedAt_keeps_locked; [apply (Htouch t) | exact Hin | exact Hl].
Qed.

Lemma stroke_eraser_removes_one_erasable_witness :
  let s := {| app := Sample.peer stroke_eraser
                       [ImageEl Sample.lockedPhoto; PathEl Sample.stroke];
              wb := Sample.board none None |} in
  In (ImageEl Sample.lockedPhoto)
     (elements (app (handle (MouseDown (Sample.click 150 80)) s)))
  /\ erasedAt s (mousePoint s (Sample.click 5 3))
              (elements (app (handleMouseDown (Sample.click 5 3) s))).
Proof.
  intros s.
  assert (Hnd : NoDup (map elId (elements (app s)))).
  { repeat constructor; simpl; intuition discriminate. }
  destruct (stroke_eraser_removes_one_erasable s Hnd eq_refl) as [Hm [_ Hk]].
  split.
  - apply Hk; [left; eexists; reflexivity | now left | reflexivity].
  - apply (Hm (Sample.click 5 3) eq_refl).
Defined.

(** ** Completeness of the path hit test *)

Lemma distance_self (p : Point.t) : distance p p = 0%R.
Proof.
  unfold distance.
  replace ((Q2R (Point.x p) - Q2R (Point.x p)) * (Q2R (Point.x p) - Q2R (Point.x p))
           + (Q2R (Point.y p) - Q2R (Point.y p)) * (Q2R (Point.y p) - Q2R (Point.y p)))%R
    with 0%R by ring.
  apply sqrt_0.
Qed.

Lemma Q2R_pos (q : Q) : 0 < q -> (0 < Q2R q)%R.
Proof.
  intros H; replace 0%R with (Q2R 0) by (unfold Q2R; simpl; lra); now apply Qlt_Rlt.
Qed.

(** [X18] What the path hit test cannot miss and cannot hit: with a positive
    threshold every point of a segment of a path of the store makes
    [getPathAtPoint] return a path; a path of fewer than two points is never
    hit, and no path is hit when its threshold
    [(strokeWidth / 2 + 5) / scale] is zero or negative. *)
Theorem path_hit_test_complete (vt : ViewTransform) (store : list CanvasElement)
        (pe : PathElement.t) :
  In (PathEl pe) store ->
  (forall j p1 p2 t,
      nth_error (Path.points (PathElement.path pe)) j = Some p1 ->
      nth_error (Path.points (PathElement.path pe)) (S j) = Some p2 ->
      0 <= t -> t <= 1 ->
      0 < (Path.lineWidth (PathElement.path pe) / 2 + 5) / scale vt ->
      exists hit, getPathAtPoint vt store (along p1 p2 t) = Some hit)
  /\ (forall point,
         (List.length (Path.points (PathElement.path pe)) <= 1)%nat ->
         ~ pathHit vt point pe)
  /\ (forall point,
         (Path.lineWidth (PathElement.path pe) / 2 + 5) / scale vt <= 0 ->
         ~ pathHit vt point pe).
Proof.
  intros Hin; split; [| split].
  - intros j p1 p2 t H1 H2 H0 Ht Hth.
    destruct (getPathAtPoint vt store (along p1 p2 t)) as [hit |] eqn:Hg;
      [now exists hit |].
    exfalso; apply (getPathAtPoint_None_all _ _ _ Hg pe Hin).
    apply pathHit_iff_near_segment; exists j, p1, p2, t.
    repeat split; try assumption.
    rewrite distance_self; now apply Q2R_pos.
  - intros point Hlen [j [p1 [p2 [H1 [H2 _]]]]].
    assert (S j < List.length (Path.points (PathElement.path pe)))%nat
      by (apply nth_error_Some; congruence).
    lia.
  - intros point Hth [j [p1 [p2 [_ [_ Hd]]]]].
    apply Qle_Rle in Hth.
    replace (Q2R 0) with 0%R in Hth by (unfold Q2R; simpl; lra).
    unfold distance in Hd.
    match type of Hd with (sqrt ?x < _)%R => pose proof (sqrt_pos x) end.
    lra.
Qed.

Lemma path_hit_test_complete_witness :
  exists hit,
    getPathAtPoint (Sample.zoom 2) [PathEl Sample.stroke; ImageEl Sample.photo]
                   (along {| Point.x := 0; Point.y := 0 |}
                          {| Point.x := 10; Point.y := 0 |} (1 # 3))
    = Some hit.
Proof.
  refine (proj1 (path_hit_test_complete (Sample.zoom 2)
                   [PathEl Sample.stroke; ImageEl Sample.photo] Sample.stroke _)
                0%nat _ _ (1 # 3) eq_refl eq_refl _ _ _);
    [now left | discriminate | discriminate | reflexivity].
Defined.

(** ** The rectangle of a resize *)

Lemma if_lt_is_max (w m : Q) : (if Qlt_bool w m then m else w) == Qmax w m.
Proof.
  destruct (Qlt_bool w m) eqn:E.
  - apply Qlt_bool_iff in E; symmetry; apply Q.max_r; now apply Qlt_le_weak.
  - apply Qlt_bool_false in E; symmetry; now apply Q.max_l.
Qed.

Lemma constrain_covers (m ar w h : Q) :
  0 < m -> 0 < ar ->
  Qmax w m <= fst (constrain m ar w h)
  /\ Qmax h (m / ar) <= snd (constrain m ar w h)
  /\ (fst (constrain m ar w h) == Qmax w m
      \/ snd (constrain m ar w h) == Qmax h (m / ar)).
Proof.
  intros Hm Har; unfold constrain.
  assert (Hne : ~ ar == 0) by now apply scale_nonzero.
  pose proof (if_lt_is_max w m) as Ew; pose proof (if_lt_is_max h (m / ar)) as Eh.
  set (w1 := if Qlt_bool w m then m else w) in *.
  set (h1 := if Qlt_bool h (m / ar) then m / ar else h) in *.
  assert (Hh1 : 0 < h1).
  { rewrite Eh; eapply Qlt_le_trans; [apply (div_pos m ar Hm Har) | apply Q.le_max_r]. }
  assert (Hh1ne : ~ h1 == 0) by now apply scale_nonzero.
  destruct (Qlt_bool ar (w1 / h1)) eqn:E; cbn [fst snd].
  - apply Qlt_bool_iff in E.
    split; [rewrite Ew; apply Qle_refl |]; split; [| left; exact Ew].
    rewrite <- Eh; apply Qlt_le_weak.
    apply Qlt_shift_div_l; [exact Har |].
    apply (Qmult_lt_compat_r _ _ h1 Hh1) in E.
    rewrite (div_mul_cancel w1 h1 Hh1ne) in E.
    now rewrite Qmult_comm.
  - apply Qlt_bool_false in E.
    split; [| split; [rewrite Eh; apply Qle_refl | right; exact Eh]].
    rewrite <- Ew.
    apply (Qmult_le_compat_r _ _ h1) in E; [| now apply Qlt_le_weak].
    rewrite (div_mul_cancel w1 h1 Hh1ne) in E.
    now rewrite Qmult_comm.
Qed.

(** [X19] A resize makes the smallest rectangle of the image's ratio, held at
    the opposite corner, that reaches the pointer along both axes and is at
    least 20 wide and 20 divided by the ratio high: its width and height are
    at least what the pointer asks for and at least those floors, and one of
    the two is exactly the larger of the asked value and its floor. *)
Theorem resize_covers_pointer (h : ResizeHandle) (point : Point.t) (el : ImageElement.t) :
  0 < ImageElement.width el ->
  0 < ImageElement.height el ->
  let el' := resizeImage (Some h) point el in
  let anchor := corner (opposite h) el in
  let ar := ImageElement.width el / ImageElement.height el in
  Qmax (dragWidth h anchor point) 20 <= ImageElement.width el'
  /\ Qmax (dragHeight h anchor point) (20 / ar) <= ImageElement.height el'
  /\ (ImageElement.width el' == Qmax (dragWidth h anchor point) 20
      \/ ImageElement.height el' == Qmax (dragHeight h anchor point) (20 / ar)).
Proof.
  intros Hw Hh el' anchor ar.
  destruct (resizeImage_size h point el) as [HW HH].
  fold el' in HW, HH; fold anchor in HW, HH; fold ar in HW, HH.
  rewrite HW, HH.
  apply constrain_covers; [reflexivity | now apply div_pos].
Qed.

Lemma resize_covers_pointer_witness :
  let el' := resizeImage (Some top_left) (Sample.at_ 50 0) Sample.photo in
  Qmax (300 - 50) 20 <= ImageElement.width el'
  /\ ImageElement.height el' == Qmax (150 - 0) (20 / (200 / 100)).
Proof.
  intros el'.
  destruct (resize_covers_pointer top_left (Sample.at_ 50 0) Sample.photo eq_refl eq_refl)
    as [Hw [_ _]].
  split; [exact Hw | reflexivity].
Defined.

(** ** The resize handles *)

Lemma nearHandle_test (vt : ViewTransform) (point : Point.t) (el : ImageElement.t)
      (h : ResizeHandle) :
  nearHandleb vt point el h = true <-> nearHandle vt point el h.
Proof. unfold nearHandleb, nearHandle; now rewrite andb_true_iff, !Qlt_bool_iff. Qed.

Lemma getResizeHandleAtPoint_chain (vt : ViewTransform) (point : Point.t)
      (el : ImageElement.t) :
  getResizeHandleAtPoint vt point el =
  if nearHandleb vt point el top_left then Some top_left
  else if nearHandleb vt point el top_right then Some top_right
  else if nearHandleb vt point el bottom_left then Some bottom_left
  else if nearHandleb vt point el bottom_right then Some bottom_right
  else None.
Proof.
  unfold getResizeHandleAtPoint, handlePositions, nearHandleb; cbn [find snd corner].
  repeat match goal with
         | |- context [if ?c then _ else _] => destruct c; cbn [option_map fst]
         end; reflexivity.
Qed.

Lemma getResizeHandleAtPoint_cases (vt : ViewTransform) (point : Point.t)
      (el : ImageElement.t) :
  (nearHandle vt point el top_left
   /\ getResizeHandleAtPoint vt point el = Some top_left)
  \/ (~ nearHandle vt point el top_left
      /\ nearHandle vt point el top_right
      /\ getResizeHandleAtPoint vt point el = Some top_right)
  \/ (~ nearHandle vt point el top_left
      /\ ~ nearHandle vt point el top_right
      /\ nearHandle vt point el bottom_left
      /\ getResizeHandleAtPoint vt point el = Some bottom_left)
  \/ (~ nearHandle vt point el top_left
      /\ ~ nearHandle vt point el top_right
      /\ ~ nearHandle vt point el bottom_left
      /\ nearHandle vt point el bottom_right
      /\ getResizeHandleAtPoint vt point el = Some bottom_right)
  \/ ((forall h, ~ nearHandle vt point el h)
      /\ getResizeHandleAtPoint vt point el = None).
Proof.
  rewrite getResizeHandleAtPoint_chain.
  assert (N : forall h, nearHandleb vt point el h = false -> ~ nearHandle vt point el h).
  { intros h E H; apply nearHandle_test in H; congruence. }
  pose proof (fun h => proj1 (nearHandle_test vt point el h)) as Y.
  destruct (nearHandleb vt point el top_left) eqn:E1.
  { left; split; [now apply Y | reflexivity]. }
  destruct (nearHandleb vt point el top_right) eqn:E2.
  { right; left; split; [now apply N |]; split; [now apply Y | reflexivity]. }
  destruct (nearHandleb vt point el bottom_left) eqn:E3.
  { right; right; left; split; [now apply N |]; split; [now apply N |];
      split; [now apply Y | reflexivity]. }
  destruct (nearHandleb vt point el bottom_right) eqn:E4.
  { right; right; right; left; split; [now apply N |]; split; [now apply N |];
      split; [now apply N |]; split; [now apply Y | reflexivity]. }
  right; right; right; right; split; [| reflexivity].
  intros []; now apply N.
Qed.

Lemma nearHandle_unique (vt : ViewTransform) (point : Point.t) (el : ImageElement.t)
      (h h' : ResizeHandle) :
  12 / scale vt <= ImageElement.width el ->
  12 / scale vt <= ImageElement.height el ->
  nearHandle vt point el h -> nearHandle vt point el h' -> h = h'.
Proof.
  unfold nearHandle; set (k := 12 / scale vt); intros Hw Hh [Hx Hy] [Hx' Hy'].
  apply Qabs_Qlt_condition in Hx, Hy, Hx', Hy'.
  assert (Hk : k == 2 * (k / 2)) by (field; discriminate).
  set (half := k / 2) in *.
  destruct h, h'; try reflexivity; exfalso; cbn [corner Point.x Point.y] in *;
    Lqa.lra.
Qed.

(** [X20] [getResizeHandleAtPoint] returns a handle only when the point is
    within half a handle, 6 pixels of the screen, of its corner along both
    axes, and nothing exactly when the point is near no corner; of several
    near corners the first in the order top-left, top-right, bottom-left,
    bottom-right is returned, and for an image at least one handle wide and
    high there is at most one, so the handle returned is the near one. *)
Theorem resize_handle_at_point (vt : ViewTransform) (point : Point.t)
        (el : ImageElement.t) :
  (forall h, getResizeHandleAtPoint vt point el = Some h -> nearHandle vt point el h)
  /\ (getResizeHandleAtPoint vt point el = None
      <-> forall h, ~ nearHandle vt point el h)
  /\ (nearHandle vt point el top_left ->
      getResizeHandleAtPoint vt point el = Some top_left)
  /\ (12 / scale vt <= ImageElement.width el ->
      12 / scale vt <= ImageElement.height el ->
      forall h,
        getResizeHandleAtPoint vt point el = Some h <-> nearHandle vt point el h).
Proof.
  assert (Hsound : forall h, getResizeHandleAtPoint vt point el = Some h ->
                             nearHandle vt point el h).
  { intros h Hh.
    destruct (getResizeHandleAtPoint_cases vt point el)
      as [[N E] | [[_ [N E]] | [[_ [_ [N E]]] | [[_ [_ [_ [N E]]]] | [_ E]]]]];
      rewrite E in Hh; inversion Hh; subst; exact N. }
  assert (Hnone : getResizeHandleAtPoint vt point el = None
                  <-> forall h, ~ nearHandle vt point el h).
  { split.
    - intros Hn.
      destruct (getResizeHandleAtPoint_cases vt point el)
        as [[_ E] | [[_ [_ E]] | [[_ [_ [_ E]]] | [[_ [_ [_ [_ E]]]] | [N _]]]]];
        try congruence; exact N.
    - intros Hno.
      destruct (getResizeHandleAtPoint vt point el) as [h |] eqn:E; [| reflexivity].
      exfalso; apply (Hno h); now apply Hsound. }
  split; [exact Hsound |]; split; [exact Hnone |]; split.
  - intros Htl.
    destruct (getResizeHandleAtPoint_cases vt point el)
      as [[_ E] | [[N _] | [[N _] | [[N _] | [N _]]]]];
      [exact E | contradiction | contradiction | contradiction |].
    exfalso; now apply (N top_left).
  - intros Hw Hh h; split; [apply Hsound |].
    intros Hnear.
    destruct (getResizeHandleAtPoint vt point el) as [h' |] eqn:E.
    + f_equal; apply (nearHandle_unique vt point el h' h Hw Hh); [| exact Hnear].
      now apply Hsound.
    + exfalso; apply (proj1 Hnone eq_refl h Hnear).
Qed.

(** ** Pasting an image *)

Lemma handlePaste_loop_Some (vt : ViewTransform) (items : list ClipboardItem)
      (pending : PendingImage) :
  handlePaste_loop vt items = Some pending ->
  capturedView pending = vt
  /\ exists before item after imageUrl,
      items = before ++ item :: after
      /\ (forall b, In b before -> isImageItem b = false \/ item_file b = None)
      /\ isImageItem item = true
      /\ item_file item = Some imageUrl
      /\ img_src (pendingImage pending) = imageUrl.
Proof.
  induction items as [| item rest IH]; cbn [handlePaste_loop]; [discriminate |].
  assert (Hskip : isImageItem item = false \/ item_file item = None ->
                  handlePaste_loop vt rest = Some pending ->
                  capturedView pending = vt
                  /\ exists before item0 after imageUrl,
                      item :: rest = before ++ item0 :: after
                      /\ (forall b, In b before ->
                                    isImageItem b = false \/ item_file b = None)
                      /\ isImageItem item0 = true
                      /\ item_file item0 = Some imageUrl
                      /\ img_src (pendingImage pending) = imageUrl).
  { intros Hitem H; destruct (IH H) as [Hv [before [item0 [after [url [E [Hb Hrest]]]]]]].
    split; [exact Hv |]; exists (item :: before), item0, after, url.
    split; [now rewrite E |]; split; [| exact Hrest].
    intros b [<- | Hin]; [exact Hitem | now apply Hb]. }
  destruct (isImageItem item) eqn:Himg; [| apply Hskip; now left].
  destruct (item_file item) as [imageUrl |] eqn:Hfile; [| apply Hskip; now right].
  intros H; injection H as <-; split; [reflexivity |].
  exists [], item, rest, imageUrl; repeat split; try assumption.
  intros b [].
Qed.

(** [X21] A pasted image is the first item of the clipboard that is an image
    and has a file.  When its bitmap has loaded it is appended to the store
    unlocked, with the ratio of width to height of the bitmap, and laid out
    in the view in which the paste arrived: in that view it is shown no wider
    than half the canvas and no wider than the bitmap, with its middle in the
    middle of the canvas, and so it is in the view of the moment it has
    loaded when the view did not change in between.  On an open channel one
    [ADD_ELEMENT] is sent for it. *)
Theorem pasted_image_is_centred (items : option (list ClipboardItem))
        (pending : PendingImage) (imageWidth imageHeight : Q)
        (rectWidth rectHeight : Q) (now : N) (s0 s : Session) :
  handlePaste items s0 = Some pending ->
  0 < imageWidth -> 0 < imageHeight -> 0 < rectWidth ->
  0 < scale (viewTransform (wb s0)) ->
  let vt := viewTransform (wb s0) in
  let r := rect (wb s) in
  let s' := handlePaste_onload pending imageWidth imageHeight rectWidth rectHeight now s in
  exists i,
    elements (app s') = elements (app s) ++ [ImageEl i]
    /\ ImageElement.id i = Date_now_toString now
    /\ ImageElement.locked i = Some false
    /\ ImageElement.src i = None
    /\ (exists l before item after imageUrl,
           items = Some l
           /\ l = before ++ item :: after
           /\ (forall b, In b before -> isImageItem b = false \/ item_file b = None)
           /\ isImageItem item = true
           /\ item_file item = Some imageUrl
           /\ ImageElement.image i = Some {| img_src := imageUrl |})
    /\ ImageElement.width i / ImageElement.height i == imageWidth / imageHeight
    /\ ImageElement.width i * scale vt <= rectWidth / 2
    /\ ImageElement.width i * scale vt <= imageWidth
    /\ (ImageElement.width i * scale vt == imageWidth
        \/ ImageElement.width i * scale vt == rectWidth / 2)
    /\ samePoint (toClient vt r (centreOf i)) (canvasCentre r rectWidth rectHeight)
    /\ (viewTransform (wb s) = vt ->
        samePoint (toClient (viewTransform (wb s)) r (centreOf i))
                  (canvasCentre r rectWidth rectHeight))
    /\ (connOpen (app s) = true ->
        sentSince (app s) (app s') = [AddElement (wirePayload (ImageEl i))])
    /\ wb s' = wb s.
Proof.
  intros Hpaste Hiw Hih Hrw Hk vt r s'.
  destruct items as [l |]; cbn [handlePaste] in Hpaste; [| discriminate Hpaste].
  destruct (handlePaste_loop_Some _ _ _ Hpaste)
    as [Hview [before [item [after [imageUrl [Hl [Hbefore [Himg [Hfile Hsrc]]]]]]]]].
  fold vt in Hview.
  pose proof (scale_nonzero _ Hk) as Hkne; fold vt in Hkne.
  pose proof (scale_nonzero _ Hiw) as Hiwne.
  pose proof (scale_nonzero _ Hih) as Hihne.
  unfold s', handlePaste_onload; cbv zeta; rewrite Hview; fold r.
  set (tw := Qmin imageWidth (rectWidth * (1 # 2))).
  assert (Htw : 0 < tw).
  { unfold tw; apply Q.min_glb_lt; [exact Hiw | Lqa.lra]. }
  pose proof (scale_nonzero _ Htw) as Htwne.
  assert (Hhalf : rectWidth * (1 # 2) == rectWidth / 2)
    by (unfold Qdiv; change (/ 2) with (1 # 2); reflexivity).
  match goal with
  | |- context [Updater (fun prev => prev ++ [ImageEl ?el])] =>
      exists el; destruct (handleSetElements_append (ImageEl el) (app s)) as [Hel Hmsg];
        assert (Hcentre : samePoint (toClient vt r (centreOf el))
                                    (canvasCentre r rectWidth rectHeight))
  end.
  { unfold samePoint, toClient, centreOf, canvasCentre, getTransformedPoint;
      cbn [Point.x Point.y ImageElement.x ImageElement.y
             ImageElement.width ImageElement.height].
    split; field; repeat split; assumption. }
  cbn [app with_app wb].
  split; [exact Hel |]; split; [reflexivity |]; split; [reflexivity |];
    split; [reflexivity |].
  split.
  { exists l, before, item, after, imageUrl; repeat split; try assumption.
    cbn [ImageElement.image]; f_equal.
    destruct (pendingImage pending) as [u]; cbn [img_src] in Hsrc; now rewrite Hsrc. }
  cbn [ImageElement.width ImageElement.height].
  assert (Hshown : tw / scale vt * scale vt == tw) by (field; exact Hkne).
  split; [field; repeat split; assumption |].
  split; [rewrite Hshown, <- Hhalf; apply Q.le_min_r |].
  split; [rewrite Hshown; apply Q.le_min_l |].
  split.
  { rewrite Hshown, <- Hhalf; unfold tw.
    destruct (Q.min_spec imageWidth (rectWidth * (1 # 2))) as [[_ E] | [_ E]];
      rewrite E; [left | right]; reflexivity. }
  split; [exact Hcentre |].
  split; [intros ->; exact Hcentre |].
  split; [exact Hmsg | reflexivity].
Qed.

Lemma pasted_image_is_centred_witness :
  let s := {| app := Sample.peer select [PathEl Sample.stroke]; wb := Sample.drawingBoard |} in
  let items := Some [ {| item_type := "text/plain"; item_file := None |};
                      {| item_type := "image/png"; item_file := Some "blob:1" |} ] in
  exists pending i,
    handlePaste items s = Some pending
    /\ elements (app (handlePaste_onload pending 1200 600 800 600 1700000000009 s))
       = [PathEl Sample.stroke; ImageEl i]
    /\ ImageElement.image i = Some {| img_src := "blob:1" |}
    /\ ImageElement.width i * 2 <= 800 / 2.
Proof.
  intros s items.
  exists {| pendingImage := newImage "blob:1"; capturedView := viewTransform (wb s) |}.
  destruct (pasted_image_is_centred items
              {| pendingImage := newImage "blob:1"; capturedView := viewTransform (wb s) |}
              1200 600 800 600 1700000000009 s s
              eq_refl eq_refl eq_refl eq_refl eq_refl)
    as [i [Hel [_ [_ [_ [_ [_ [Hw _]]]]]]]].
  exists i; split; [reflexivity |]; split; [exact Hel |]; split; [| exact Hw].
  cbn [handlePaste_onload app with_app] in Hel.
  rewrite elements_handleSetElements in Hel.
  cbn [elements Sample.peer app s Datatypes.app] in Hel.
  injection Hel as <-; reflexivity.
Defined.

(** A zoom between the paste and the load: pasted at scale 1 on a canvas of
    800 by 600, a bitmap of 1200 by 600 is laid out 400 wide about the point
    (400, 300) of the document; the wheel having doubled the scale about the
    corner of the canvas in between, it is shown 800 wide about (800, 600),
    as wide as the canvas and not in its middle. *)
Example paste_then_zoom :
  let s0 := {| app := Sample.peer select []; wb := Sample.board none None |} in
  let s := handleWheel {| wheelX := 0; wheelY := 0; deltaY := - (1000) |} s0 in
  exists pending i,
    handlePaste (Some [ {| item_type := "image/png"; item_file := Some "blob:2" |} ]) s0
    = Some pending
    /\ elements (app (handlePaste_onload pending 1200 600 800 600 1700000000009 s))
       = [ImageEl i]
    /\ scale (viewTransform (wb s)) == 2
    /\ ImageElement.x i == 200 /\ ImageElement.y i == 200
    /\ ImageElement.width i == 400 /\ ImageElement.height i == 200
    /\ ImageElement.width i * scale (viewTransform (wb s)) == 800
    /\ Point.x (toClient (viewTransform (wb s)) (rect (wb s)) (centreOf i)) == 800
    /\ Point.y (toClient (viewTransform (wb s)) (rect (wb s)) (centreOf i)) == 600.
Proof.
  intros s0 s; eexists; eexists.
  split; [reflexivity |]; split; [reflexivity |].
  repeat split; vm_compute; reflexivity.
Qed.

(** ** Importing a PDF *)

Lemma digits_then_dash (d1 d2 : Decimal.uint) (r1 r2 : string) :
  (NilEmpty.string_of_uint d1 ++ String "-" r1)%string
  = (NilEmpty.string_of_uint d2 ++ String "-" r2)%string ->
  r1 = r2.
Proof.
  revert d2; induction d1; intros d2; destruct d2;
    cbn [NilEmpty.string_of_uint String.append]; intros H;
    try discriminate H;
    try (injection H as H; now apply IHd1 in H);
    now injection H.
Qed.

Lemma pdfId_index (t1 t2 : N) (i1 i2 : nat) : pdfId t1 i1 = pdfId t2 i2 -> i1 = i2.
Proof.
  unfold pdfId, Date_now_toString; cbn [String.append]; intros H.
  injection H as H; apply digits_then_dash in H.
  apply Unsigned.to_uint_inj.
  pose proof (NilEmpty.usu (Nat.to_uint i1)) as U1.
  pose proof (NilEmpty.usu (Nat.to_uint i2)) as U2.
  rewrite H in U1; congruence.
Qed.

Lemma importPages_shape (pages : list RenderedPage) (i : nat) (y : Q) (el : ImageElement.t) :
  In el (importPages i y pages) ->
  exists page j,
    In page pages /\ (i <= j)%nat
    /\ ImageElement.id el = pdfId (renderedAt page) j
    /\ ImageElement.src el = Some (imgData page)
    /\ ImageElement.image el = Some (newImage (imgData page))
    /\ ImageElement.locked el = Some false
    /\ ImageElement.width el = viewportWidth page / 2
    /\ ImageElement.height el = viewportHeight page / 2.
Proof.
  revert i y; induction pages as [| page rest IH]; intros i y Hin; cbn [importPages] in Hin;
    [contradiction |].
  assert (Hrest : forall y', In el (importPages (S i) y' rest) ->
                             exists page0 j, In page0 (page :: rest) /\ (i <= j)%nat
                               /\ ImageElement.id el = pdfId (renderedAt page0) j
                               /\ ImageElement.src el = Some (imgData page0)
                               /\ ImageElement.image el = Some (newImage (imgData page0))
                               /\ ImageElement.locked el = Some false
                               /\ ImageElement.width el = viewportWidth page0 / 2
                               /\ ImageElement.height el = viewportHeight page0 / 2).
  { intros y' H; destruct (IH _ _ H) as [p0 [j [Hp [Hj Hrest]]]].
    exists p0, j; split; [now right |]; split; [lia | exact Hrest]. }
  destruct (hasContext page); [| now apply (Hrest y)].
  destruct Hin as [<- | Hin]; [| exact (Hrest _ Hin)].
  exists page, i; cbn; repeat split; first [reflexivity | now left | lia].
Qed.

Lemma In_first_pages (n : nat) (pages : list RenderedPage) (page : RenderedPage) :
  In page (firstn n pages) -> In page pages.
Proof.
  revert pages; induction n as [| n IH]; intros [| p pages]; cbn [firstn];
    try contradiction.
  intros [-> | H]; [now left | right; now apply IH].
Qed.

Lemma importPages_length (pages : list RenderedPage) (i : nat) (y : Q) :
  (List.length (importPages i y pages) <= List.length pages)%nat.
Proof.
  revert i y; induction pages as [| page rest IH]; intros i y; cbn [importPages List.length];
    [lia |].
  destruct (hasContext page); cbn [List.length]; [apply le_n_S, IH |].
  apply Nat.le_trans with (List.length rest); [apply IH | lia].
Qed.

Lemma importPages_ids (pages : list RenderedPage) (i : nat) (y : Q) :
  NoDup (map ImageElement.id (importPages i y pages)).
Proof.
  revert i y; induction pages as [| page rest IH]; intros i y; cbn [importPages];
    [constructor |].
  destruct (hasContext page); [| apply IH].
  cbn [map ImageElement.id]; constructor; [| apply IH].
  intros Hin; apply in_map_iff in Hin; destruct Hin as [el [Hid Hel]].
  destruct (importPages_shape _ _ _ _ Hel) as [p0 [j [_ [Hj [Hidj _]]]]].
  rewrite Hidj in Hid; apply pdfId_index in Hid; lia.
Qed.

Lemma stackedFrom_ext (els : list ImageElement.t) (y y' : Q) :
  y == y' -> stackedFrom y els -> stackedFrom y' els.
Proof.
  revert y y'; induction els as [| el rest IH]; intros y y' E; cbn [stackedFrom];
    [trivial |].
  intros [Hx [Hy Hrest]]; split; [exact Hx |]; split; [now rewrite <- E |].
  eapply IH; [| exact Hrest]; now rewrite E.
Qed.

Lemma importPages_stacked (pages : list RenderedPage) (i : nat) (y : Q) :
  stackedFrom y (importPages i y pages).
Proof.
  revert i y; induction pages as [| page rest IH]; intros i y; cbn [importPages];
    [exact I |].
  destruct (hasContext page); [| apply IH].
  cbn [stackedFrom ImageElement.x ImageElement.y ImageElement.height].
  split; [reflexivity |]; split; [reflexivity |].
  eapply stackedFrom_ext; [| apply IH]; ring.
Qed.

Lemma send_all (els : list ImageElement.t) (a : AppState) :
  let a' :=
    fold_left (fun a el =>
                 sendSyncMessage
                   {| type := "ADD_ELEMENT";
                      payload := PElement (ImageEl (without_image el)) |} a) els a in
  elements a' = elements a
  /\ undoStack a' = undoStack a
  /\ connOpen a' = connOpen a
  /\ sent a' = sent a ++ (if connOpen a
                          then map (fun el => AddElement (ImageEl (without_image el))) els
                          else []).
Proof.
  revert a; induction els as [| el els IH]; intros a; cbn [fold_left map].
  - repeat split; destruct (connOpen a); now rewrite app_nil_r.
  - destruct (IH (sendSyncMessage
                    {| type := "ADD_ELEMENT";
                       payload := PElement (ImageEl (without_image el)) |} a))
      as [He [Hu [Hc Hs]]].
    cbv zeta in *; rewrite He, Hu, Hc, Hs; unfold sendSyncMessage.
    destruct (connOpen a) eqn:Hopen; cbn [elements undoStack connOpen sent];
      rewrite ?Hopen; repeat split; try reflexivity.
    + now rewrite <- app_assoc.
Qed.

Lemma importPages_pages (n i : nat) (y : Q) (pages : list RenderedPage) :
  Forall2 imageOfPage
          (filter (fun numbered => hasContext (snd numbered)) (combine (seq i n) pages))
          (importPages i y (firstn n pages)).
Proof.
  revert i y pages; induction n as [| n IH]; intros i y pages;
    [cbn [seq combine filter firstn importPages]; constructor |].
  destruct pages as [| page rest];
    cbn [seq combine filter firstn importPages snd]; [constructor |].
  destruct (hasContext page); [| apply IH].
  constructor; [| apply IH].
  unfold imageOfPage; cbn; repeat split; reflexivity.
Qed.

(** [X22] An import of a PDF appends one unlocked image for each of the first
    20 pages that gave a drawing context and for no other page, in page order
    after what the store held: the image of a page has the id made of the
    clock and the number of the page, the data URL of the page as source and
    as bitmap, and half the size of its viewport; the images stand at
    [x = 100], one under the other from [y = 50] with 20 between them; their
    ids differ from each other; the tool becomes the select tool; and a file
    that is no PDF changes nothing. *)
Theorem pdf_import_layout (pages : list RenderedPage) (st : AppState) :
  (exists new,
      elements (handleImportPdf true pages st) = elements st ++ map ImageEl new
      /\ (List.length new <= 20)%nat
      /\ (List.length new <= List.length pages)%nat
      /\ stackedFrom 50 new
      /\ NoDup (map ImageElement.id new)
      /\ (forall el,
             In el new ->
             exists page,
               In page pages
               /\ ImageElement.src el = Some (imgData page)
               /\ ImageElement.image el = Some (newImage (imgData page))
               /\ ImageElement.locked el = Some false
               /\ ImageElement.width el = viewportWidth page / 2
               /\ ImageElement.height el = viewportHeight page / 2)
      /\ tool (handleImportPdf true pages st) = select
      /\ undoStack (handleImportPdf true pages st) = undoStack st
      /\ Forall2 imageOfPage (renderedPages pages) new
      /\ List.length new = List.length (renderedPages pages)
      /\ (Forall (fun page => hasContext page = true) pages ->
          List.length new = Nat.min 20 (List.length pages)))
  /\ handleImportPdf false pages st = st.
Proof.
  split; [| reflexivity].
  exists (importPages 1 50 (firstn 20 pages)).
  unfold handleImportPdf; cbn [negb]; cbv zeta.
  match goal with
  | |- context [fold_left ?f ?els ?a] => destruct (send_all els a) as [He [Hu [_ _]]]
  end.
  cbv zeta in He, Hu; cbn [setTool elements tool undoStack].
  rewrite He, Hu; cbn [elements undoStack setElements].
  pose proof (importPages_length (firstn 20 pages) 1 50) as Hlen.
  pose proof (firstn_le_length 20 pages) as Hf.
  pose proof (length_firstn 20 pages) as Hf2.
  pose proof (importPages_pages 20 1 50 pages) as Hpages.
  fold (renderedPages pages) in Hpages.
  pose proof (Forall2_length Hpages) as Hcount.
  split; [reflexivity |]; split; [lia |]; split; [lia |].
  split; [apply importPages_stacked |]; split; [apply importPages_ids |].
  split; [| split; [reflexivity | split; [reflexivity |]]].
  - intros el Hel; destruct (importPages_shape _ _ _ _ Hel)
      as [page [j [Hp [_ [_ [Hs [Hi [Hl [Hw Hh]]]]]]]]].
    exists page; repeat split; try assumption.
    now apply (In_first_pages 20 pages).
  - split; [exact Hpages |]; split; [now symmetry |].
    intros Hall; rewrite <- Hcount; unfold renderedPages.
    assert (Hkeep : forall l : list (nat * RenderedPage),
               Forall (fun page => hasContext page = true) (map snd l) ->
               filter (fun numbered => hasContext (snd numbered)) l = l).
    { induction l as [| [k page] l IHl]; cbn [map filter snd]; [reflexivity |].
      intros H; inversion H as [| ? ? Hp Hrest]; subst; rewrite Hp.
      now rewrite IHl. }
    rewrite Hkeep.
    + now rewrite length_combine, length_seq.
    + apply Forall_forall; intros page Hin; apply in_map_iff in Hin.
      destruct Hin as [[k page'] [<- Hin]]; apply in_combine_r in Hin.
      cbn [snd]; now apply (proj1 (Forall_forall _ _) Hall).
Qed.

(** Three pages of which the second gave no context: the images of the pages
    1 and 3, the second under the first. *)
Example pdf_import_three_pages :
  let pages :=
    [ {| hasContext := true; viewportWidth := 900; viewportHeight := 1200;
         imgData := "data:image/png;base64,AAAA"; renderedAt := 1700000000010 |};
      {| hasContext := false; viewportWidth := 900; viewportHeight := 1200;
         imgData := "data:image/png;base64,BBBB"; renderedAt := 1700000000011 |};
      {| hasContext := true; viewportWidth := 900; viewportHeight := 600;
         imgData := "data:image/png;base64,CCCC"; renderedAt := 1700000000011 |} ] in
  exists first second,
    elements (handleImportPdf true pages (Sample.peer pen [PathEl Sample.stroke]))
    = [PathEl Sample.stroke; ImageEl first; ImageEl second]
    /\ ImageElement.id first = "pdf-1700000000010-1"
    /\ ImageElement.id second = "pdf-1700000000011-3"
    /\ ImageElement.image second = Some {| img_src := "data:image/png;base64,CCCC" |}
    /\ ImageElement.y first == 50
    /\ ImageElement.height first == 600
    /\ ImageElement.y second == 670
    /\ ImageElement.width second == 450.
Proof.
  intros pages; eexists; eexists; split; [reflexivity |].
  repeat split; vm_compute; reflexivity.
Qed.

Lemma sentSince_app (a a' : AppState) (l : list SyncMessage) :
  sent a' = sent a ++ l -> sentSince a a' = l.
Proof.
  intros H; unfold sentSince; rewrite H, skipn_app, Nat.sub_diag, skipn_all; reflexivity.
Qed.

Lemma rehydrate_without_image (el : ImageElement.t) (url : string) :
  ImageElement.src el = Some url ->
  ImageElement.image el = Some (newImage url) ->
  url <> "" ->
  rehydrate (ImageEl (without_image el)) = ImageEl el.
Proof.
  intros Hs Hi Hne; cbn [rehydrate without_image ImageElement.src]; rewrite Hs.
  cbn [truthy_string]; apply String.eqb_neq in Hne; rewrite Hne; cbn [negb or_else].
  destruct el; cbn in *; subst; reflexivity.
Qed.

(** [X23] An import of a PDF converges: on an open channel one [ADD_ELEMENT]
    is sent for each new image, without its bitmap and with its data URL, and
    a peer that held the same store, in which none of the new ids occurs,
    holds the same store as the importing peer after applying them, the
    bitmaps rebuilt from the data URLs, none of which is empty. *)
Theorem pdf_import_converges (pages : list RenderedPage) (st g : AppState) :
  connOpen st = true ->
  elements g = elements st ->
  (forall page, In page pages -> imgData page <> "") ->
  (forall el,
      In el (importPages 1 50 (firstn 20 pages)) ->
      hasId (ImageElement.id el) (elements st) = false) ->
  exists g',
    applyAll (sentSince st (handleImportPdf true pages st)) g = Done g'
    /\ elements g' = elements (handleImportPdf true pages st)
    /\ List.length (sentSince st (handleImportPdf true pages st))
       = List.length (importPages 1 50 (firstn 20 pages)).
Proof.
  intros Hopen Hsame Hurl Hfresh.
  set (new := importPages 1 50 (firstn 20 pages)) in *.
  assert (Hst : elements (handleImportPdf true pages st) = elements st ++ map ImageEl new
                /\ sentSince st (handleImportPdf true pages st)
                   = map AddElement (map (fun el => ImageEl (without_image el)) new)).
  { unfold handleImportPdf; cbn [negb]; cbv zeta; fold new.
    destruct (send_all new (setElements (elements st ++ map ImageEl new) st))
      as [He [_ [_ Hs]]].
    cbv zeta in He, Hs; cbn [setTool elements sent].
    split; [rewrite He; reflexivity |].
    apply sentSince_app; cbn [setTool sent]; rewrite Hs;
      cbn [connOpen setElements sent]; rewrite Hopen.
    now rewrite map_map. }
  destruct Hst as [Hel Hsent]; rewrite Hel, Hsent.
  set (batch := map (fun el => ImageEl (without_image el)) new).
  assert (Hids : map elId batch = map ImageElement.id new).
  { unfold batch; rewrite map_map; apply map_ext; reflexivity. }
  assert (Hnd : NoDup (map elId batch)) by (rewrite Hids; apply importPages_ids).
  rewrite (applyAll_add batch Hnd g).
  eexists; split; [reflexivity |]; cbn [elements setElements]; split.
  - rewrite fresh_all.
    + rewrite Hsame; f_equal; unfold batch; rewrite map_map.
      apply map_ext_in; intros el Hin.
      destruct (importPages_shape _ _ _ _ Hin) as [page [j [Hp [_ [_ [Hs [Hi _]]]]]]].
      apply (rehydrate_without_image el (imgData page) Hs Hi).
      apply Hurl; now apply (In_first_pages 20 pages).
    + intros e He Hin; unfold batch in He; apply in_map_iff in He.
      destruct He as [el [<- Hel']].
      apply hasId_In in Hin; rewrite Hsame in Hin.
      cbn [elId without_image ImageElement.id] in Hin.
      rewrite (Hfresh el Hel') in Hin; discriminate.
  - unfold batch; now rewrite !length_map.
Qed.

Lemma pdf_import_converges_witness :
  let pages :=
    [ {| hasContext := true; viewportWidth := 900; viewportHeight := 1200;
         imgData := "data:image/png;base64,AAAA"; renderedAt := 1700000000010 |};
      {| hasContext := false; viewportWidth := 900; viewportHeight := 1200;
         imgData := "data:image/png;base64,BBBB"; renderedAt := 1700000000011 |};
      {| hasContext := true; viewportWidth := 900; viewportHeight := 600;
         imgData := "data:image/png;base64,CCCC"; renderedAt := 1700000000011 |} ] in
  exists g',
    applyAll (sentSince (Sample.peer pen [PathEl Sample.stroke])
                        (handleImportPdf true pages (Sample.peer pen [PathEl Sample.stroke])))
             (Sample.peer select [PathEl Sample.stroke]) = Done g'
    /\ List.length (elements g') = 3%nat.
Proof.
  intros pages.
  destruct (pdf_import_converges pages (Sample.peer pen [PathEl Sample.stroke])
              (Sample.peer select [PathEl Sample.stroke]) eq_refl eq_refl)
    as [g' [Hrun [Hel _]]].
  - intros page [<- | [<- | [<- | []]]]; discriminate.
  - intros el [<- | [<- | []]]; reflexivity.
  - exists g'; split; [exact Hrun |]; rewrite Hel; reflexivity.
Defined.

(** ** A press with the select tool *)

(** [X24] A left press with the select tool respects the lock: it leaves the
    store as it is or, on the lock control of the selected image, toggles the
    lock of the images with that id and nothing else; it starts [moving] only
    over an unlocked image, which it selects, with the pressed point as
    anchor; and it starts [resizing] only on a handle of the selected image
    when that image is unlocked. *)
Theorem select_press_respects_lock (e : MouseEvent) (s : Session) :
  tool (app s) = select ->
  button e = 0%nat ->
  let s' := handleMouseDown e s in
  let point := mousePoint s e in
  (elements (app s') = elements (app s)
   \/ exists sel,
       selectedImage s = Some sel
       /\ elements (app s') = toggleLock (ImageElement.id sel) (elements (app s))
       /\ wb s' = wb s)
  /\ (actionRef (wb s') = moving ->
      actionRef (wb s) = moving
      \/ exists i,
          getElementAtPoint (elements (app s)) point = Some i
          /\ truthy_bool (ImageElement.locked i) = false
          /\ selectedElementId (wb s') = Some (ImageElement.id i)
          /\ moveStartRef (wb s') = point)
  /\ (actionRef (wb s') = resizing ->
      actionRef (wb s) = resizing
      \/ exists sel h,
          selectedImage s = Some sel
          /\ truthy_bool (ImageElement.locked sel) = false
          /\ getResizeHandleAtPoint (viewTransform (wb s)) point sel = Some h
          /\ resizeHandleRef (wb s') = Some h
          /\ selectedElementId (wb s') = selectedElementId (wb s)).
Proof.
  intros Ht Hb s' point; subst s'; unfold mousePoint in point.
  unfold handleMouseDown; rewrite Hb, Ht; cbn [Nat.eqb Tool_eqb]; fold point.
  assert (Hbody :
            forall r,
              r = match getElementAtPoint (elements (app s)) point with
                  | Some elementUnderMouse =>
                      if negb (truthy_bool (ImageElement.locked elementUnderMouse))
                      then with_wb (fun w => set_moveStartRef point (set_actionRef moving w))
                                   (with_wb (setSelectedElementId
                                               (Some (ImageElement.id elementUnderMouse))) s)
                      else with_wb (setSelectedElementId
                                      (Some (ImageElement.id elementUnderMouse))) s
                  | None => with_wb (setSelectedElementId None) s
                  end ->
              (elements (app r) = elements (app s)
               \/ exists sel,
                   selectedImage s = Some sel
                   /\ elements (app r) = toggleLock (ImageElement.id sel) (elements (app s))
                   /\ wb r = wb s)
              /\ (actionRef (wb r) = moving ->
                  actionRef (wb s) = moving
                  \/ exists i,
                      getElementAtPoint (elements (app s)) point = Some i
                      /\ truthy_bool (ImageElement.locked i) = false
                      /\ selectedElementId (wb r) = Some (ImageElement.id i)
                      /\ moveStartRef (wb r) = point)
              /\ (actionRef (wb r) = resizing ->
                  actionRef (wb s) = resizing
                  \/ exists sel h,
                      selectedImage s = Some sel
                      /\ truthy_bool (ImageElement.locked sel) = false
                      /\ getResizeHandleAtPoint (viewTransform (wb s)) point sel = Some h
                      /\ resizeHandleRef (wb r) = Some h
                      /\ selectedElementId (wb r) = selectedElementId (wb s))).
  { intros r ->.
    destruct (getElementAtPoint (elements (app s)) point) as [u |] eqn:Hu.
    - destruct (truthy_bool (ImageElement.locked u)) eqn:Hl; cbn [negb].
      + split; [now left |]; split; intros H; left; exact H.
      + split; [now left |]; split.
        * intros _; right; exists u; repeat split; reflexivity || assumption.
        * intros H; discriminate H.
    - split; [now left |]; split; intros H; left; exact H. }
  destruct (selectedImage s) as [sel |] eqn:Hsel; [| now apply Hbody].
  destruct (isPointInLockButton _ point sel) eqn:Hlock.
  - cbn [app with_app wb]; split; [| split; intros H; left; exact H].
    right; exists sel; split; [reflexivity |]; split; [| reflexivity].
    apply elements_handleSetElements.
  - destruct (truthy_bool (ImageElement.locked sel)) eqn:Hl; cbn [negb];
      [now apply Hbody |].
    destruct (getResizeHandleAtPoint _ point sel) as [h |] eqn:Hh; [| now apply Hbody].
    cbn [app wb with_wb actionRef set_actionRef set_resizeHandleRef resizeHandleRef
             selectedElementId].
    split; [now left |]; split; [intros H; discriminate H |].
    intros _; right; exists sel, h; repeat split; reflexivity || assumption.
Qed.

Lemma select_press_respects_lock_witness :
  let s' := handleMouseDown (Sample.click 150 80) Sample.guest in
  actionRef (wb s') = moving
  /\ exists i,
      getElementAtPoint (elements (app Sample.guest))
                        (mousePoint Sample.guest (Sample.click 150 80)) = Some i
      /\ truthy_bool (ImageElement.locked i) = false.
Proof.
  intros s'; split; [reflexivity |].
  destruct (select_press_respects_lock (Sample.click 150 80) Sample.guest eq_refl eq_refl)
    as [_ [Hmove _]].
  destruct (Hmove eq_refl) as [H | [i [Hi [Hl _]]]]; [discriminate H |].
  exists i; split; [exact Hi | exact Hl].
Defined.

(** ** Touch *)

Lemma handleMouseUp_appends_path (now : N) (s : Session) :
  exists added,
    elements (app (handleMouseUp now s)) = elements (app s) ++ added
    /\ Forall isPath added.
Proof.
  destruct (handleMouseUp_app now s) as [H | [H | [p [_ [_ [_ H]]]]]]; rewrite H.
  - exists []; split; [now rewrite app_nil_r | constructor].
  - exists []; split; [now rewrite app_nil_r | constructor].
  - rewrite elements_handleSetElements.
    eexists; split; [reflexivity |].
    repeat constructor.
Qed.

Lemma touch_step (ev : Event) (s : Session) :
  isTouch ev ->
  tool (app s) <> stroke_eraser ->
  tool (app (handle ev s)) = tool (app s)
  /\ exists added,
      elements (app (handle ev s)) = elements (app s) ++ added
      /\ Forall isPath added.
Proof.
  intros Hev Ht; destruct ev as [e | e | now | now | t | t | now | e]; try contradiction;
    cbn [handle].
  - assert (Happ : app (onTouchStart t s) = app s
                   \/ app (onTouchStart t s) = setUndoStack [] (app s)).
    { unfold onTouchStart, startDrawing.
      destruct (tool (app s)) eqn:E; try congruence; cbn [Tool_eqb];
        break_branches; cbn [app with_app with_wb]; tauto. }
    destruct Happ as [-> | ->]; (split; [reflexivity |]);
      exists []; (split; [now rewrite app_nil_r | constructor]).
  - rewrite onTouchMove_app; split; [reflexivity |].
    exists []; split; [now rewrite app_nil_r | constructor].
  - split; [| apply handleMouseUp_appends_path].
    unfold onTouchEnd.
    destruct (handleMouseUp_app now s) as [H | [H | [p [_ [_ [_ H]]]]]]; rewrite H;
      try reflexivity.
    apply handleSetElements_fixed.
Qed.

(** [X25] By touch the store only grows by strokes: with any tool but the
    stroke eraser, every sequence of touch events leaves the elements the
    store held as they are and in place, and what it adds after them are
    paths; no image is moved, resized, locked or removed by a finger. *)
Theorem touch_only_adds_paths (evs : list Event) (s : Session) :
  Forall isTouch evs ->
  tool (app s) <> stroke_eraser ->
  exists added,
    elements (app (run evs s)) = elements (app s) ++ added
    /\ Forall isPath added.
Proof.
  intros Hall; revert s; induction Hall as [| ev evs Hev _ IH]; intros s Ht; simpl.
  - exists []; split; [now rewrite app_nil_r | constructor].
  - destruct (touch_step ev s Hev Ht) as [Htool [a1 [H1 P1]]].
    destruct (IH (handle ev s)) as [a2 [H2 P2]]; [congruence |].
    exists (a1 ++ a2); split; [now rewrite H2, H1, app_assoc |].
    apply Forall_app; split; assumption.
Qed.

Lemma touch_only_adds_paths_witness :
  let s := {| app := Sample.peer pen [ImageEl Sample.photo]; wb := Sample.board none None |} in
  exists added,
    elements (app (run [TouchStart {| touchX := 150; touchY := 80 |};
                        TouchMove {| touchX := 400; touchY := 300 |};
                        TouchEnd 1700000000012] s))
    = [ImageEl Sample.photo] ++ added
    /\ Forall isPath added.
Proof.
  intros s.
  apply (touch_only_adds_paths
           [TouchStart {| touchX := 150; touchY := 80 |};
            TouchMove {| touchX := 400; touchY := 300 |};
            TouchEnd 1700000000012] s);
    [repeat constructor | discriminate].
Defined.
